(** * The dependency resolver of pkgcore ([pkgcore/graph/resolver.py])

    A shallow embedding of the [resolver] class: the stack-of-stacks
    traversal ([iterate_unresolved_atoms]), the reference bookkeeping
    ([ref_stack_for_atom], [deref_stack_for_atom]) and the backtracking
    protocol ([unsatisfiable_atom]), followed by the properties of the
    specification that are checked against it.

    Python objects that the resolver mutates through several names are kept
    in explicit stores: choice points live in [cp_store] and are named by
    their index there; [current_stack] names one of the lists of
    [search_stacks] by its position.  A method is a function from the
    resolver to the resolver it leaves behind together with either the
    exception it raised or its result, so that what a method did before it
    raised stays visible. *)

From stdpp Require Import gmap strings list fin_maps.

(** ** The collaborators of the resolver

    Atoms and packages come from other modules of pkgcore.  The resolver
    reads an atom's [key] and [blocks] attributes, compares and hashes atoms,
    calls [atom.match(pkg)], and reads the [depends], [rdepends] and
    provided capabilities of packages through the choice point.  Nothing
    else about them is used, so they are taken as an interface. *)

Class Domain := {
  atom : Type;
  atom_eq_dec :: EqDecision atom;
  atom_countable :: Countable atom;
  key_t : Type;
  key_eq_dec :: EqDecision key_t;
  key_countable :: Countable key_t;
  pkg : Type;
  provide : Type;
  provide_eq_dec :: EqDecision provide;
  key : atom → key_t;
  blocks : atom → bool;
  atom_match : atom → pkg → bool;
  pkg_depends : pkg → list atom;
  pkg_rdepends : pkg → list atom;
  pkg_provides : pkg → list provide;
}.

(** Exceptions a method can leave with.  [NoSolution a msg] stands for the
    instance built from the message
    ["root node %s was marked unsatisfiable, reason: %s" % (a, msg)].
    The last two are not Python exceptions: [Dangling] marks a reference
    into a store that holds nothing there, which no session meets
    ([session_never_dangling]); [OutOfFuel] marks a loop stopped by the
    bound of the model, which the queue of [unsatisfiable_atom] never is
    ([unsatisfiable_atom_plain_exn]). *)
Inductive exn `{Domain} :=
  | AssertionError
  | IndexError
  | KeyError
  | NameError
  | TypeError
  | UnboundLocalError
  | NoSolution (a : atom) (msg : string)
  | Dangling
  | OutOfFuel.

Section Resolver.
Context `{D : Domain}.

(** ** Choice points *)

(** Modelled from the spec: the class [choice_point] of
    [pkgcore.graph.choice_point], which the resolver imports and which is
    not among the sources.  It is "an ordered, reducible collection of
    package candidates for one atom": the remaining candidates in order,
    the current pick being the head. *)
Record choice_point := ChoicePoint {
  cp_atom : atom;
  cp_matches : list pkg;
}.

(** Modelled from the spec: the constructor [choice_point(atom, matches)]. *)
Definition new_choice_point (a : atom) (matches : list pkg) : choice_point :=
  {| cp_atom := a; cp_matches := matches |}.

(** Modelled from the spec: the emptiness test ([if not c]); a choice point
    is true while candidates remain. *)
Definition cp_nonzero (c : choice_point) : bool :=
  match cp_matches c with [] => false | _ :: _ => true end.

(** Modelled from the spec: [c.current_pkg], the head of the remaining
    candidates.  An empty choice point has no current package; reading it is
    the [IndexError] of indexing an empty sequence, the one exception the
    resolver guards these calls against. *)
Definition cp_current_pkg (c : choice_point) : exn + pkg :=
  match cp_matches c with [] => inl IndexError | p :: _ => inr p end.

(** Modelled from the spec: [c.depends] and [c.rdepends], the dependency and
    runtime-dependency atoms of the current package. *)
Definition cp_depends (c : choice_point) : exn + list atom :=
  match cp_current_pkg c with inl e => inl e | inr p => inr (pkg_depends p) end.

Definition cp_rdepends (c : choice_point) : exn + list atom :=
  match cp_current_pkg c with inl e => inl e | inr p => inr (pkg_rdepends p) end.

Definition pkg_requires (a : atom) (p : pkg) : bool :=
  bool_decide (a ∈ pkg_depends p ++ pkg_rdepends p).

(** The first candidate that requires [a], taken out of the sequence. *)
Fixpoint remove_requiring (a : atom) (ps : list pkg) : option (pkg * list pkg) :=
  match ps with
  | [] => None
  | p :: ps' =>
      if pkg_requires a p then Some (p, ps')
      else match remove_requiring a ps' with
           | Some (q, rest) => Some (q, p :: rest)
           | None => None
           end
  end.

Definition required_by_some (ps : list pkg) (x : atom) : bool :=
  existsb (pkg_requires x) ps.

Definition provided_by_some (ps : list pkg) (v : provide) : bool :=
  existsb (λ p, bool_decide (v ∈ pkg_provides p)) ps.

(** Modelled from the spec: [c.reduce_atoms(atom)], "removing the candidate
    that required this atom; this yields the set of atoms (and provided
    capabilities) that were uniquely required by the removed candidate and
    are no longer required by any remaining candidate".  It removes exactly
    that candidate; when no remaining candidate requires the atom nothing is
    removed and nothing is released; on an empty choice point it is the
    [IndexError] the resolver catches. *)
Definition cp_reduce_atoms (c : choice_point) (a : atom)
  : exn + (choice_point * (list atom * list provide)) :=
  match cp_matches c with
  | [] => inl IndexError
  | _ :: _ =>
      match remove_requiring a (cp_matches c) with
      | None => inr (c, ([], []))
      | Some (p, rest) =>
          inr ({| cp_atom := cp_atom c; cp_matches := rest |},
               (filter (λ x, negb (required_by_some rest x))
                       (pkg_depends p ++ pkg_rdepends p),
                filter (λ v, negb (provided_by_some rest v)) (pkg_provides p)))
      end
  end.

(** ** The resolver object *)

(** [atoms] maps an atom to the two-element list [[c, stacks]]: the choice
    point (by reference) and the referencing stacks, each a tuple of atoms.
    [pkg_atoms] maps a key to a list of choice points (by reference). *)
Record resolver := Resolver {
  search_stacks : list (list atom);
  current_stack : option nat;
  current_atom : option atom;
  false_atoms : gset atom;
  atoms : gmap atom (nat * list (list atom));
  pkg_atoms : gmap key_t (list nat);
  cp_store : list choice_point;
}.

Definition set_search_stacks (f : list (list atom) → list (list atom)) (r : resolver) :=
  {| search_stacks := f (search_stacks r); current_stack := current_stack r;
     current_atom := current_atom r; false_atoms := false_atoms r;
     atoms := atoms r; pkg_atoms := pkg_atoms r; cp_store := cp_store r |}.

Definition set_current_stack (i : option nat) (r : resolver) :=
  {| search_stacks := search_stacks r; current_stack := i;
     current_atom := current_atom r; false_atoms := false_atoms r;
     atoms := atoms r; pkg_atoms := pkg_atoms r; cp_store := cp_store r |}.

Definition set_current_atom (a : option atom) (r : resolver) :=
  {| search_stacks := search_stacks r; current_stack := current_stack r;
     current_atom := a; false_atoms := false_atoms r;
     atoms := atoms r; pkg_atoms := pkg_atoms r; cp_store := cp_store r |}.

Definition set_false_atoms (f : gset atom → gset atom) (r : resolver) :=
  {| search_stacks := search_stacks r; current_stack := current_stack r;
     current_atom := current_atom r; false_atoms := f (false_atoms r);
     atoms := atoms r; pkg_atoms := pkg_atoms r; cp_store := cp_store r |}.

Definition set_atoms
    (f : gmap atom (nat * list (list atom)) → gmap atom (nat * list (list atom)))
    (r : resolver) :=
  {| search_stacks := search_stacks r; current_stack := current_stack r;
     current_atom := current_atom r; false_atoms := false_atoms r;
     atoms := f (atoms r); pkg_atoms := pkg_atoms r; cp_store := cp_store r |}.

Definition set_pkg_atoms (f : gmap key_t (list nat) → gmap key_t (list nat))
    (r : resolver) :=
  {| search_stacks := search_stacks r; current_stack := current_stack r;
     current_atom := current_atom r; false_atoms := false_atoms r;
     atoms := atoms r; pkg_atoms := f (pkg_atoms r); cp_store := cp_store r |}.

Definition set_cp_store (f : list choice_point → list choice_point) (r : resolver) :=
  {| search_stacks := search_stacks r; current_stack := current_stack r;
     current_atom := current_atom r; false_atoms := false_atoms r;
     atoms := atoms r; pkg_atoms := pkg_atoms r; cp_store := f (cp_store r) |}.

(** ** Methods: state and exceptions *)

Definition M (A : Type) : Type := resolver → resolver * (exn + A).

Definition ret {A} (x : A) : M A := λ r, (r, inr x).
Definition raise {A} (e : exn) : M A := λ r, (r, inl e).
Definition bind {A B} (m : M A) (k : A → M B) : M B :=
  λ r, match m r with
       | (r', inl e) => (r', inl e)
       | (r', inr x) => k x r'
       end.
Definition gets {A} (f : resolver → A) : M A := λ r, (r, inr (f r)).
Definition modify (f : resolver → resolver) : M unit := λ r, (f r, inr tt).
Definition lift {A} (x : exn + A) : M A := λ r, (r, x).
Definition assert_ (b : bool) : M unit :=
  if b then ret tt else raise AssertionError.

(** [try: m except IndexError: h]. *)
Definition try_IndexError {A} (m : M A) (h : M A) : M A :=
  λ r, match m r with
       | (r', inl IndexError) => h r'
       | res => res
       end.

#[global] Instance M_ret : MRet M := @ret.
#[global] Instance M_bind : MBind M := λ A B k m, bind m k.

End Resolver.

Section Bookkeeping.
Context `{D : Domain}.

(** ** Reference bookkeeping *)

(** [ref_stack_for_atom(atom, stack)]; the stack is normalised to a tuple,
    which the model's lists already are. *)
Definition ref_stack_for_atom (a : atom) (stack : list atom) : M unit :=
  e ← gets (λ r, atoms r !! a);
  match e with
  | None => raise AssertionError
  | Some (c, refs) =>
      if bool_decide (stack ∈ refs) then ret tt
      else modify (set_atoms <[a := (c, refs ++ [stack])]>)
  end.

(** [deref_stack_for_atom(atom, stack)].  The comprehension over
    [pkg_atoms[atom.key]] reads [x.atom] of every choice point listed there;
    a reference outside the store, which no method creates, is kept. *)
Definition deref_stack_for_atom (a : atom) (stack : list atom) : M unit :=
  e ← gets (λ r, atoms r !! a);
  match e with
  | None => raise AssertionError
  | Some (c, refs) =>
      let stack_l := length stack in
      let l := filter (λ x, take stack_l x ≠ stack) refs in
      match l with
      | _ :: _ => modify (set_atoms <[a := (c, l)]>)
      | [] =>
          store ← gets cp_store;
          modify (set_pkg_atoms (λ m,
            match m !! key a with
            | Some xs =>
                match filter (λ x, cp_atom <$> store !! x ≠ Some a) xs with
                | [] => delete (key a) m
                | l' => <[key a := l']> m
                end
            | None => m
            end));;
          modify (set_atoms (delete a))
      end
  end.

(** ** Stacks *)

(** [grab_next_stack()]: [self.current_stack = self.search_stacks[-1]]. *)
Definition grab_next_stack : M unit :=
  ss ← gets search_stacks;
  match ss with
  | [] => raise IndexError
  | _ :: _ => modify (set_current_stack (Some (length ss - 1)))
  end.

(** The list that reference [i] names. *)
Definition stack_at (i : nat) : M (list atom) :=
  ss ← gets search_stacks;
  match ss !! i with
  | Some s => ret s
  | None => raise Dangling
  end.

(** [self.current_stack], as reference and as the list it names; subscripting
    or iterating [None] is a [TypeError]. *)
Definition get_current_stack : M (nat * list atom) :=
  cs ← gets current_stack;
  match cs with
  | None => raise TypeError
  | Some i => s ← stack_at i; ret (i, s)
  end.

(** [l[-1]]. *)
Definition top_of (s : list atom) : M atom :=
  match last s with
  | Some x => ret x
  | None => raise IndexError
  end.

(** [l.pop(-1)] on the list that reference [i] names. *)
Definition pop_stack (i : nat) : M unit :=
  s ← stack_at i;
  match s with
  | [] => raise IndexError
  | _ :: _ => modify (set_search_stacks <[i := removelast s]>)
  end.

(** [l.append(x)] on the list that reference [i] names. *)
Definition push_stack (i : nat) (x : atom) : M unit :=
  s ← stack_at i;
  modify (set_search_stacks <[i := s ++ [x]]>).

(** The state [__init__] builds. *)
Definition init : resolver :=
  {| search_stacks := [[]]; current_stack := Some 0; current_atom := None;
     false_atoms := ∅; atoms := ∅; pkg_atoms := ∅; cp_store := [] |}.

(** The module binds no name [h]: evaluating it raises [NameError]. *)
Definition global_h : M atom := raise NameError.

(** [add_root_atom(atom)]. *)
Definition add_root_atom (a : atom) : M unit :=
  tracked ← gets (λ r, bool_decide (is_Some (atoms r !! a)));
  if (tracked : bool) then
    h ← global_h;
    ref_stack_for_atom h []
  else
    modify (set_search_stacks (λ ss, ss ++ [[a]]));;
    grab_next_stack.

(** ** Choice points held by the resolver *)

Definition cp_get (i : nat) : M choice_point :=
  store ← gets cp_store;
  match store !! i with
  | Some c => ret c
  | None => raise Dangling
  end.

(** A new choice point object; its reference is returned. *)
Definition cp_alloc (c : choice_point) : M nat :=
  store ← gets cp_store;
  modify (set_cp_store (λ s, s ++ [c]));;
  ret (length store).

Definition tracked_in (m : gmap atom (nat * list (list atom))) (x : atom) : bool :=
  bool_decide (is_Some (m !! x)).

(** [choice_point_is_complete(choice_point)]; the second [all] is evaluated
    only when the first holds. *)
Definition choice_point_is_complete (ci : nat) : M bool :=
  c ← cp_get ci;
  deps ← lift (cp_depends c);
  m ← gets atoms;
  if forallb (tracked_in m) deps then
    rdeps ← lift (cp_rdepends c);
    ret (forallb (tracked_in m) rdeps)
  else ret false.

End Bookkeeping.

Section Protocol.
Context `{D : Domain}.

(** ** The unsatisfiability protocol *)

(** The released atoms still in the graph are dereferenced one after the
    other; the test [x in self.atoms] of the generator expression is made
    when its turn comes. *)
Fixpoint deref_released (released : list atom) (t : list atom) : M unit :=
  match released with
  | [] => ret tt
  | x :: released' =>
      present ← gets (λ r, tracked_in (atoms r) x);
      (if (present : bool) then deref_stack_for_atom x t else ret tt);;
      deref_released released' t
  end.

(** The first half of the body of [for stack in istack], for a stack whose
    last two elements are [parent] and [top]: the parent's choice point is
    looked up and reduced, and the atoms the reduction released are
    dereferenced from the prefix.  The result is the reference [c] and
    [was_complete]. *)
Definition retract_choice (parent top : atom) (t : list atom) : M (nat * bool) :=
  e ← gets (λ r, atoms r !! parent);
  match e with
  | None => raise KeyError
  | Some (ci, _) =>
      '(was_complete, released_atoms) ←
        try_IndexError
          (was_complete ← choice_point_is_complete ci;
           c ← cp_get ci;
           '(c', (released_atoms, released_provides)) ← lift (cp_reduce_atoms c top);
           modify (set_cp_store <[ci := c']>);;
           ret (was_complete, released_atoms))
          (ret (false, [top]));
      deref_released released_atoms t;;
      ret (ci, was_complete)
  end.

(** The second half: the parents are notified, or the prefix is scheduled
    again.  The result is what was appended to [istack]. *)
Definition reschedule (ci : nat) (was_complete : bool) (t : list atom)
  : M (list (list atom)) :=
  c ← cp_get ci;
  if negb (cp_nonzero c) then ret [t]
  else if was_complete then
    now_complete ← choice_point_is_complete ci;
    if negb now_complete then
      modify (set_search_stacks (λ ss, ss ++ [t]));;
      ret []
    else ret []
  else ret [].

(** The body of [for stack in istack]: one referencing stack is processed.
    The result is the value of [bail] afterwards and what was appended to
    [istack].  [stack[-2]] is evaluated outside the [try]. *)
Definition process_stack (a : atom) (msg : string) (bail : option exn)
    (stack : list atom) : M (option exn * list (list atom)) :=
  let bail := match stack with [] => Some (NoSolution a msg) | _ :: _ => bail end in
  match reverse stack with
  | top :: parent :: _ =>
      let t := removelast stack in
      '(ci, was_complete) ← retract_choice parent top t;
      more ← reschedule ci was_complete t;
      ret (bail, more)
  | _ => raise IndexError
  end.

(** Modelled from the spec: [expandable_chain] of [pkgcore.util.iterables],
    "an expandable work queue seeded with the atom's referencing stacks";
    what [istack.append] adds is consumed after what is already queued.
    Every stack that is appended is shorter than the one being processed, so
    the loop ends; [fuel] bounds it. *)
Fixpoint drain (fuel : nat) (a : atom) (msg : string) (bail : option exn)
    (istack : list (list atom)) : M (option exn) :=
  match istack with
  | [] => ret bail
  | stack :: rest =>
      match fuel with
      | 0 => raise OutOfFuel
      | S fuel' =>
          '(bail', more) ← process_stack a msg bail stack;
          drain fuel' a msg bail' (rest ++ more)
      end
  end.

Definition queue_weight (istack : list (list atom)) : nat :=
  sum_list (map (λ s, S (length s)) istack).

(** [unsatisfiable_atom(atom, msg, permenant)]. *)
Definition unsatisfiable_atom (a : atom) (msg : string) (permenant : bool) : M unit :=
  ca ← gets current_atom;
  assert_ (bool_decide (ca = Some a));;
  (if permenant then modify (set_false_atoms (λ s, s ∪ {[a]})) else ret tt);;
  e ← gets (λ r, atoms r !! a);
  match e with
  | None => raise KeyError
  | Some (_, refs) =>
      bail ← drain (queue_weight refs) a msg None refs;
      grab_next_stack;;
      match bail with
      | Some b => raise b
      | None => ret tt
      end
  end.

(** ** [satisfy_atom] *)

(** [satisfy_atom(atom, matches)]; [caching_iter(matches)] is the sequence
    of matches itself. *)
Definition satisfy_atom (a : atom) (matches : list pkg) : M unit :=
  '(i, stack) ← get_current_stack;
  top ← top_of stack;
  assert_ (bool_decide (a = top));;
  ci ← cp_alloc (new_choice_point a matches);
  modify (set_atoms <[a := (ci, [])]>);;
  modify (set_pkg_atoms (λ m, <[key a := default [] (m !! key a) ++ [ci]]> m));;
  ref_stack_for_atom a stack;;
  c ← cp_get ci;
  if negb (cp_nonzero c) then
    unsatisfiable_atom a "None supplied" true;;
    cs ← gets current_stack;
    if bool_decide (cs = Some i) then pop_stack i else ret tt
  else ret tt.

End Protocol.

(** ** The traversal *)

(** What the traversal yields: an atom, or the restriction built in the
    cycle case from the constructors of [pkgcore.restrictions]. *)
#[warnings="-register-all"]
Inductive restriction `{Domain} :=
  | RAtom (a : atom)
  | ContainmentMatch (a : atom) (negate : bool)
  | PackageRestriction (attr : string) (v : restriction)
  | AndRestriction (rs : list restriction).

(** How one pass through the body of [while self.search_stacks] ends. *)
Inductive signal `{Domain} :=
  | Continue
  | Yielded (v : restriction)
  | Returned.

(** The generator object: where it is suspended, and its local [t], which
    is bound by the first pass that finds the top atom tracked and keeps its
    value from one pass to the next. *)
Inductive gen_pc := AtLoop | AfterYield | Finished.

Record generator `{Domain} := Generator {
  pc : gen_pc;
  local_t : option (list atom);
}.

(** What [next()] on the generator gives. *)
Inductive outcome `{Domain} :=
  | Yield (v : restriction)
  | StopIteration
  | Raised (e : exn).

Section Traversal.
Context `{D : Domain}.

(** [assert not any(x.blocks for x in self.current_stack)]; the handler
    around it enters the debugger and raises the error again. *)
Definition assert_no_blocker : M unit :=
  '(_, stack) ← get_current_stack;
  assert_ (negb (existsb blocks stack)).

(** [for x in c.depends + c.rdepends], with the stack at reference [i] and
    [t] the tuple taken before the loop; the result is [missing_atoms]. *)
Fixpoint scan_depends (i : nat) (t : list atom) (xs : list atom) : M bool :=
  match xs with
  | [] => ret false
  | x :: xs' =>
      present ← gets (λ r, tracked_in (atoms r) x);
      if (present : bool) then
        ref_stack_for_atom x t;;
        scan_depends i t xs'
      else
        modify (set_current_atom (Some x));;
        push_stack i x;;
        ret true
  end.

(** [for x in self.pkg_atoms.get(a.key, [])], up to its [break]: whether
    some non-empty choice point has a current package that [a] matches. *)
Fixpoint find_conflict (a : atom) (xs : list nat) : M bool :=
  match xs with
  | [] => ret false
  | x :: xs' =>
      c ← cp_get x;
      if negb (cp_nonzero c) then find_conflict a xs'
      else
        p ← lift (cp_current_pkg c);
        if atom_match a p then ret true else find_conflict a xs'
  end.

(** The branch [elif a.blocks]. *)
Definition blocker_case (i : nat) (a : atom) (t : option (list atom)) : M unit :=
  xs ← gets (λ r, default [] (pkg_atoms r !! key a));
  conflict ← find_conflict a xs;
  if (conflict : bool) then
    modify (set_current_atom (Some a));;
    unsatisfiable_atom a "backtracking for blocker" false;;
    pop_stack i
  else
    ci ← cp_alloc (new_choice_point a []);
    modify (set_atoms <[a := (ci, [])]>);;
    t ← match t with Some t => ret t | None => raise UnboundLocalError end;
    ref_stack_for_atom a t;;
    '(j, _) ← get_current_stack;
    pop_stack j.

Definition cycle_restriction (m a : atom) : restriction :=
  AndRestriction [RAtom m;
                  PackageRestriction "depends" (ContainmentMatch a true);
                  PackageRestriction "rdepends" (ContainmentMatch a true)].

(** One pass through the body of [while self.search_stacks], from the test
    of the loop to the next [yield], [return], [continue] or the end of the
    body.  The assertion that closes the body is made here when the pass
    does not yield, and on resumption otherwise. *)
Definition loop_pass (t : option (list atom)) : M (option (list atom) * signal) :=
  ss ← gets search_stacks;
  match ss with
  | [] => ret (t, Returned)
  | _ :: _ =>
      cs ← gets current_stack;
      let i := length ss - 1 in
      assert_ (bool_decide (cs = Some i));;
      stack ← stack_at i;
      match stack with
      | [] =>
          modify (set_search_stacks (λ l, removelast l));;
          ss' ← gets search_stacks;
          match ss' with
          | [] => modify (set_current_stack None);; ret (t, Returned)
          | _ :: _ => grab_next_stack;; ret (t, Continue)
          end
      | _ :: _ =>
          assert_ (negb (existsb blocks stack));;
          a ← top_of stack;
          e ← gets (λ r, atoms r !! a);
          '(t, missing_atoms) ←
            match e with
            | None => ret (t, true)
            | Some (ci, _) =>
                c ← cp_get ci;
                deps ← lift (cp_depends c);
                rdeps ← lift (cp_rdepends c);
                missing ← scan_depends i stack (deps ++ rdeps);
                ret (Some stack, missing)
            end;
          if (missing_atoms : bool) then
            stack' ← stack_at i;
            m ← top_of stack';
            modify (set_current_atom (Some m));;
            if bool_decide (m ∈ removelast stack') then
              ret (t, Yielded (cycle_restriction m a))
            else if blocks a then
              blocker_case i a t;;
              assert_no_blocker;;
              ret (t, Continue)
            else ret (t, Yielded (RAtom m))
          else
            pop_stack i;;
            assert_no_blocker;;
            ret (t, Continue)
      end
  end.

(** One step of the generator. *)
Definition gen_step (g : generator) : M (generator * signal) :=
  match pc g with
  | Finished => ret (g, Returned)
  | AfterYield =>
      assert_no_blocker;;
      ret ({| pc := AtLoop; local_t := local_t g |}, Continue)
  | AtLoop =>
      '(t, s) ← loop_pass (local_t g);
      ret ({| pc := match s with
                    | Continue => AtLoop
                    | Yielded _ => AfterYield
                    | Returned => Finished
                    end;
              local_t := t |}, s)
  end.

(** [next()] on the generator of [iterate_unresolved_atoms()]: steps until
    the generator yields, returns or raises.  A generator that raised is
    finished. *)
Fixpoint gen_next (fuel : nat) (g : generator) (r : resolver)
  : resolver * generator * outcome :=
  match fuel with
  | 0 => (r, g, Raised OutOfFuel)
  | S fuel' =>
      match gen_step g r with
      | (r', inl e) => (r', {| pc := Finished; local_t := local_t g |}, Raised e)
      | (r', inr (g', Continue)) => gen_next fuel' g' r'
      | (r', inr (g', Yielded v)) => (r', g', Yield v)
      | (r', inr (g', Returned)) => (r', g', StopIteration)
      end
  end.

(** The generator [iterate_unresolved_atoms()] returns. *)
Definition iterate_unresolved_atoms : generator :=
  {| pc := AtLoop; local_t := None |}.

End Traversal.

(** ** Sessions *)

(** What a caller can do to a resolver: the methods of the interface, and
    the steps of a traversal taken one at a time. *)
Inductive op `{Domain} :=
  | AddRoot (a : atom)
  | Pull (fuel : nat) (g : generator)
  | Pass (t : option (list atom))
  | Satisfy (a : atom) (matches : list pkg)
  | Fail (a : atom) (msg : string) (permanent : bool).

Section Sessions.
Context `{D : Domain}.

(** The resolver an operation leaves behind, whether it returned or raised. *)
Definition run_op (r : resolver) (o : op) : resolver :=
  match o with
  | AddRoot a => (add_root_atom a r).1
  | Pull fuel g => (gen_next fuel g r).1.1
  | Pass t => (loop_pass t r).1
  | Satisfy a matches => (satisfy_atom a matches r).1
  | Fail a msg permanent => (unsatisfiable_atom a msg permanent r).1
  end.

Definition run_ops (r : resolver) (ops : list op) : resolver :=
  foldl run_op r ops.

(** A stack none of whose atoms below the top is a blocker. *)
Definition below_top_free (s : list atom) : Prop :=
  Forall (λ x, blocks x = false) (removelast s).

Definition no_blocker_mid_stack (r : resolver) : Prop :=
  Forall below_top_free (search_stacks r).

Definition refs_below_top_free (r : resolver) : Prop :=
  map_Forall (λ _ e, Forall below_top_free e.2) (atoms r).

(** The invariant of the stacks: no blocker below the top of a search
    stack nor of a recorded referencing stack. *)
Definition stacks_ok (r : resolver) : Prop :=
  no_blocker_mid_stack r ∧ refs_below_top_free r.

(** ** Specifications of methods

    [triple P m Q E]: from a resolver satisfying [P], the method [m] either
    returns [x] leaving a resolver satisfying [Q x], or raises [e] leaving
    one satisfying [E e]. *)
Definition triple {A} (P : resolver → Prop) (m : M A)
    (Q : A → resolver → Prop) (E : exn → resolver → Prop) : Prop :=
  ∀ r, P r →
    match m r with
    | (r', inr x) => Q x r'
    | (r', inl e) => E e r'
    end.

(** [m] keeps [I], however it ends, and raises only exceptions in [X]. *)
Definition keeps {A} (I : resolver → Prop) (X : exn → Prop) (m : M A) : Prop :=
  triple I m (λ _, I) (λ e r, I r ∧ X e).

(** A method that neither reads nor writes [false_atoms]: run with another
    set in its place, it returns or raises the same and leaves the same
    resolver, that set apart. *)
Definition ignores_false_atoms {A} (m : M A) : Prop :=
  ∀ F r, m (set_false_atoms (λ _, F) r)
         = (set_false_atoms (λ _, F) (m r).1, (m r).2).

Definition any_exn : exn → Prop := λ _, True.

(** The exceptions of Python, without [NoSolution]. *)
Definition plain_exn (e : exn) : Prop :=
  match e with
  | NoSolution _ _ | OutOfFuel => False
  | _ => True
  end.

(** The resolver after [ref_stack_for_atom(x, t)] for each [x] of [xs] in
    turn, as the scan of the dependencies does for the tracked ones. *)
Definition ref_all (t : list atom) (xs : list atom) (r : resolver) : resolver :=
  foldl (λ r x, (ref_stack_for_atom x t r).1) r xs.

(** The resolver after the first four statements of [satisfy_atom(a,
    matches)] made with [stack] as current stack: the choice point is
    built, [[c, []]] is installed as the entry of [a], [c] is appended to
    [pkg_atoms[a.key]], and [stack] is registered as the one referencing
    stack. *)
Definition install_entry (a : atom) (matches : list pkg) (stack : list atom)
    (r : resolver) : resolver :=
  set_atoms <[a := (length (cp_store r), [stack])]>
    (set_pkg_atoms
       (λ m, <[key a := default [] (m !! key a) ++ [length (cp_store r)]]> m)
       (set_cp_store (λ s, s ++ [new_choice_point a matches]) r)).

(** [self.false_atoms.add(a)]. *)
Definition add_false_atom (a : atom) (r : resolver) : resolver :=
  set_false_atoms (λ s, s ∪ {[a]}) r.

(** The exceptions that are not [Dangling]. *)
Definition no_dangling (e : exn) : Prop :=
  match e with
  | Dangling => False
  | _ => True
  end.

(** The references the resolver holds name objects: every choice point
    reference is inside the store, and [current_stack] is inside
    [search_stacks]. *)
Definition store_ok (r : resolver) : Prop :=
  map_Forall (λ _ e, e.1 < length (cp_store r)) (atoms r) ∧
  map_Forall (λ _ xs, Forall (λ x, x < length (cp_store r)) xs) (pkg_atoms r) ∧
  (∀ i, current_stack r = Some i → i < length (search_stacks r)).

(** [store_ok], with at least [n] search stacks and [k] choice points. *)
Definition at_least (n k : nat) (r : resolver) : Prop :=
  store_ok r ∧ n ≤ length (search_stacks r) ∧ k ≤ length (cp_store r).

(** What [deref_stack_for_atom] leaves in [pkg_atoms] when the last
    referencing stack of [a] went. *)
Definition released_pkg_atoms (r : resolver) (a : atom) : gmap key_t (list nat) :=
  match pkg_atoms r !! key a with
  | Some xs =>
      match filter (λ x, cp_atom <$> cp_store r !! x ≠ Some a) xs with
      | [] => delete (key a) (pkg_atoms r)
      | l' => <[key a := l']> (pkg_atoms r)
      end
  | None => pkg_atoms r
  end.

End Sessions.

(** ** A small world of atoms and packages

    Atoms are a name and the [blocks] flag, the key is the name; a package
    is a name with its [depends] and [rdepends]; an atom matches the
    packages that carry its name. *)
Definition ex_domain : Domain := {|
  atom := string * bool;
  key_t := string;
  pkg := string * (list (string * bool) * list (string * bool));
  provide := string;
  key := λ a, a.1;
  blocks := λ a, a.2;
  atom_match := λ a p, String.eqb a.1 p.1;
  pkg_depends := λ p, p.2.1;
  pkg_rdepends := λ p, p.2.2;
  pkg_provides := λ _, [];
|}.

Section Scenarios.
#[local] Existing Instance ex_domain.

Definition want (n : string) : atom := (n, false).
Definition blocker (n : string) : atom := (n, true).
Definition package (n : string) (deps rdeps : list atom) : pkg := (n, (deps, rdeps)).

(** The resolver a method leaves behind. *)
Definition after {A} (m : M A) (r : resolver) : resolver := (m r).1.

(** *** Backtracking out of a dead end

    Two roots: [r1], whose first candidate needs [m] and whose second needs
    nothing, and [r2], whose only candidate needs [m]; nothing matches [m]. *)
Definition P1 : pkg := package "P1" [want "m"] [].
Definition P2 : pkg := package "P2" [] [].
Definition Q1 : pkg := package "Q1" [want "m"] [].

Definition bt0 : resolver :=
  after (add_root_atom (want "r1")) (after (add_root_atom (want "r2")) init).
(** [next()] yields [r1]; the caller supplies [P1] and [P2]. *)
Definition bt1 := gen_next 8 iterate_unresolved_atoms bt0.
Definition bt2 : resolver := after (satisfy_atom (want "r1") [P1; P2]) bt1.1.1.
(** [next()] yields [m]; the caller has no candidate for it. *)
Definition bt3 := gen_next 8 bt1.1.2 bt2.
Definition bt4 : resolver := after (satisfy_atom (want "m") []) bt3.1.1.
(** [next()] finishes [r1] and yields [r2]; the caller supplies [Q1]. *)
Definition bt5 := gen_next 8 bt3.1.2 bt4.
Definition bt6 : resolver := after (satisfy_atom (want "r2") [Q1]) bt5.1.1.
Definition bt7 := gen_next 8 bt5.1.2 bt6.

(** *** A root without candidates *)
Definition lone0 : resolver := after (add_root_atom (want "a")) init.
Definition lone1 := gen_next 8 iterate_unresolved_atoms lone0.

(** *** A lookup that fails

    [a] is yielded; the caller reports the failure with
    [unsatisfiable_atom(a, "lookup failed", True)] and pulls again. *)
Definition fl1 := unsatisfiable_atom (want "a") "lookup failed" true lone1.1.1.
Definition fl2 := gen_next 8 lone1.1.2 fl1.1.

(** *** A root-level reference

    [a] is resolved; the caller registers the root-level stack that
    [add_root_atom] means to register for a tracked atom, and the stack
    [(a,)] is dereferenced: the empty stack is the one reference left. *)
Definition rooted0 : resolver :=
  after (satisfy_atom (want "a") [package "A" [] []]) lone1.1.1.
Definition rooted : resolver :=
  after (deref_stack_for_atom (want "a") [want "a"])
        (after (ref_stack_for_atom (want "a") []) rooted0).

(** *** A blocker against a chosen package

    The roots are the blocker [!p] and [p]; [p] is resolved to the package
    [p], which the blocker matches. *)
Definition bl0 : resolver :=
  after (add_root_atom (want "p")) (after (add_root_atom (blocker "p")) init).
Definition bl1 := gen_next 8 iterate_unresolved_atoms bl0.
Definition bl2 : resolver := after (satisfy_atom (want "p") [package "p" [] []]) bl1.1.1.
Definition bl3 := gen_next 8 bl1.1.2 bl2.

(** *** A cycle met in a session

    The root [r] has the candidates [R1], which needs [p], and [R2], which
    needs [q]; the one candidate of [p] needs [n], and nothing matches [n].
    The failure of [n] releases [n] and [p] and schedules [(r,)] anew, while
    the stack [[r; p; n]] stays.  With [q] resolved the traversal comes
    back to that stack and yields [n] again; this time the caller has a
    candidate, which needs [p]. *)
Definition R1 : pkg := package "R1" [want "p"] [].
Definition R2 : pkg := package "R2" [want "q"] [].
Definition N1 : pkg := package "N1" [want "p"] [].

Definition cy0 : resolver := after (add_root_atom (want "r")) init.
Definition cy1 := gen_next 8 iterate_unresolved_atoms cy0.
Definition cy2 : resolver := after (satisfy_atom (want "r") [R1; R2]) cy1.1.1.
Definition cy3 := gen_next 8 cy1.1.2 cy2.
Definition cy4 : resolver :=
  after (satisfy_atom (want "p") [package "P" [want "n"] []]) cy3.1.1.
Definition cy5 := gen_next 8 cy3.1.2 cy4.
Definition cy6 : resolver := after (satisfy_atom (want "n") []) cy5.1.1.
Definition cy7 := gen_next 8 cy5.1.2 cy6.
Definition cy8 : resolver := after (satisfy_atom (want "q") [package "Q" [] []]) cy7.1.1.
Definition cy9 := gen_next 8 cy7.1.2 cy8.
Definition cy10 : resolver := after (satisfy_atom (want "n") [N1]) cy9.1.1.
(** [next()] yields the restriction on [p]; pulled again with no answer
    given, the traversal finds [p] on top of the stack it already is on. *)
Definition cy11 := gen_next 8 cy9.1.2 cy10.

(** *** A reduction that leaves the parent incomplete

    [r]'s first candidate needs [m], its second needs [n]; [m] is tracked
    and referenced from the stack [(r, m)], [n] is not tracked. *)
Definition inc : resolver :=
  {| search_stacks := [[want "r"; want "m"]]; current_stack := Some 0;
     current_atom := Some (want "m"); false_atoms := ∅;
     atoms := {[ want "r" := (0, [[want "r"]]);
                 want "m" := (1, [[want "r"; want "m"]]) ]};
     pkg_atoms := {[ "r" := [0]; "m" := [1] ]};
     cp_store := [new_choice_point (want "r")
                    [package "R1" [want "m"] []; package "R2" [want "n"] []];
                  new_choice_point (want "m") []] |}.

(** *** A parent with a single candidate

    As [inc], but [r] has the one candidate [R1], which needs [m]. *)
Definition solo : resolver :=
  {| search_stacks := [[want "r"; want "m"]]; current_stack := Some 0;
     current_atom := Some (want "m"); false_atoms := ∅;
     atoms := {[ want "r" := (0, [[want "r"]]);
                 want "m" := (1, [[want "r"; want "m"]]) ]};
     pkg_atoms := {[ "r" := [0]; "m" := [1] ]};
     cp_store := [new_choice_point (want "r") [package "R1" [want "m"] []];
                  new_choice_point (want "m") []] |}.

(** The backtracking scenario once [m]'s empty entry is installed. *)
Definition bt3i : resolver :=
  install_entry (want "m") [] [want "r1"; want "m"] bt3.1.1.

End Scenarios.

(** * Properties *)

Section MethodLaws.
Context `{D : Domain}.

Lemma bind_unfold {A B} (m : M A) (k : A → M B) (r : resolver) :
  (m ≫= k) r = match m r with
               | (r', inl e) => (r', inl e)
               | (r', inr x) => k x r'
               end.
Proof. reflexivity. Qed.

Lemma triple_ret {A} (x : A) (Q : A → resolver → Prop) E :
  triple (Q x) (mret x) Q E.
Proof. intros r HP. exact HP. Qed.

Lemma triple_raise {A} (e : exn) (Q : A → resolver → Prop) (E : exn → resolver → Prop) :
  triple (E e) (raise e) Q E.
Proof. intros r HP. exact HP. Qed.

Lemma triple_bind {A B} (m : M A) (k : A → M B) P Q R E :
  triple P m Q E → (∀ x, triple (Q x) (k x) R E) → triple P (m ≫= k) R E.
Proof.
  intros Hm Hk r HP. rewrite bind_unfold. specialize (Hm r HP).
  destruct (m r) as [r' [e|x]]; [exact Hm|]. exact (Hk x r' Hm).
Qed.

Lemma triple_gets {A} (f : resolver → A) (Q : A → resolver → Prop) E :
  triple (λ r, Q (f r) r) (gets f) Q E.
Proof. intros r HP. exact HP. Qed.

Lemma triple_modify (f : resolver → resolver) (Q : unit → resolver → Prop) E :
  triple (λ r, Q tt (f r)) (modify f) Q E.
Proof. intros r HP. exact HP. Qed.

Lemma triple_lift {A} (x : exn + A) (P : resolver → Prop) :
  triple P (lift x) (λ _, P) (λ _, P).
Proof. intros r HP. unfold lift. destruct x; exact HP. Qed.

Lemma triple_weaken {A} (m : M A) (P P' : resolver → Prop)
    (Q Q' : A → resolver → Prop) (E E' : exn → resolver → Prop) :
  triple P' m Q' E' →
  (∀ r, P r → P' r) → (∀ x r, Q' x r → Q x r) → (∀ e r, E' e r → E e r) →
  triple P m Q E.
Proof.
  intros Hm HP HQ HE r Hr. specialize (Hm r (HP r Hr)).
  destruct (m r) as [r' [e|x]]; auto.
Qed.

Lemma triple_try {A} (m h : M A) P Q E :
  triple P m Q (λ e r, match e with IndexError => triple (eq r) h Q E | _ => E e r end) →
  triple P (try_IndexError m h) Q E.
Proof.
  intros Hm r HP. unfold try_IndexError. specialize (Hm r HP).
  destruct (m r) as [r' [e|x]]; [|exact Hm].
  destruct e; try exact Hm. exact (Hm r' eq_refl).
Qed.

Lemma triple_pure_pre {A} (φ : Prop) P (m : M A) Q E :
  (φ → triple P m Q E) → triple (λ r, P r ∧ φ) m Q E.
Proof. intros H r [HP Hφ]. exact (H Hφ r HP). Qed.

Lemma triple_bind_gets {A B} (f : resolver → A) (k : A → M B) P R E :
  (∀ x, triple (λ r, P r ∧ f r = x) (k x) R E) → triple P (gets f ≫= k) R E.
Proof. intros H r HP. rewrite bind_unfold. simpl. apply (H (f r) r). by split. Qed.

Lemma triple_bind_assert {B} (b : bool) (k : unit → M B) (P : resolver → Prop) R
    (E : exn → resolver → Prop) :
  (∀ r, P r → E AssertionError r) → (b = true → triple P (k tt) R E) →
  triple P (assert_ b ≫= k) R E.
Proof.
  intros HE Hk r HP. rewrite bind_unfold. destruct b; simpl.
  - by apply Hk.
  - by apply HE.
Qed.

Lemma triple_bind_modify {B} (f : resolver → resolver) (k : unit → M B)
    (P Q : resolver → Prop) R E :
  (∀ r, P r → Q (f r)) → triple Q (k tt) R E → triple P (modify f ≫= k) R E.
Proof. intros Hf Hk r HP. rewrite bind_unfold. simpl. apply Hk. by apply Hf. Qed.

Lemma triple_bind_ret {A B} (x : A) (k : A → M B) P R E :
  triple P (k x) R E → triple P (ret x ≫= k) R E.
Proof. intros H r HP. exact (H r HP). Qed.

Lemma triple_bind_keeps {A B} (m : M A) (k : A → M B) (P : resolver → Prop) X R
    (E : exn → resolver → Prop) :
  keeps P X m → (∀ e r, P r → E e r) → (∀ x, triple P (k x) R E) →
  triple P (m ≫= k) R E.
Proof.
  intros Hm HE Hk. eapply triple_bind; [|exact Hk].
  eapply triple_weaken; [exact Hm|done|done|]. intros e r [HP _]. by apply HE.
Qed.

Lemma keeps_any {A} (I : resolver → Prop) (m : M A) :
  triple I m (λ _, I) (λ _, I) → keeps I any_exn m.
Proof. intros H. eapply triple_weaken; [exact H|done|done|]. by split. Qed.

Lemma keeps_any_triple {A} (I : resolver → Prop) X (m : M A) :
  keeps I X m → triple I m (λ _, I) (λ _, I).
Proof. intros H. eapply triple_weaken; [exact H|done|done|]. by intros e r [? _]. Qed.

Lemma triple_conj {A} (m : M A) P P' Q Q' E E' :
  triple P m Q E → triple P' m Q' E' →
  triple (λ r, P r ∧ P' r) m (λ x r, Q x r ∧ Q' x r) (λ e r, E e r ∧ E' e r).
Proof.
  intros H H' r [HP HP']. specialize (H r HP). specialize (H' r HP').
  destruct (m r) as [r' [e|x]]; by split.
Qed.

Lemma triple_from_state {A} (m : M A) (P : resolver → Prop) Q E :
  (∀ r0, P r0 → triple (λ r, r = r0) m Q E) → triple P m Q E.
Proof. intros H r HP. exact (H r HP r eq_refl). Qed.

Lemma triple_pre {A} (P P' : resolver → Prop) (m : M A) Q E :
  triple P' m Q E → (∀ r, P r → P' r) → triple P m Q E.
Proof. intros Hm HP r Hr. exact (Hm r (HP r Hr)). Qed.

(** Invariants. *)
Lemma keeps_ret {A} I X (x : A) : keeps I X (mret x).
Proof. intros r HP. exact HP. Qed.

Lemma keeps_raise {A} I (X : exn → Prop) (e : exn) : X e → keeps I X (raise e : M A).
Proof. intros HX r HP. split; [exact HP|exact HX]. Qed.

Lemma keeps_gets {A} I X (f : resolver → A) : keeps I X (gets f).
Proof. intros r HP. exact HP. Qed.

Lemma keeps_lift {A} I (X : exn → Prop) (x : exn + A) :
  (∀ e, x = inl e → X e) → keeps I X (lift x).
Proof. intros HX r HP. unfold lift. destruct x; auto. Qed.

Lemma keeps_assert I (X : exn → Prop) (b : bool) :
  X AssertionError → keeps I X (assert_ b).
Proof. intros HX. destruct b; intros r HP; [exact HP|]. split; [exact HP|exact HX]. Qed.

Lemma keeps_modify I X (f : resolver → resolver) :
  (∀ r, I r → I (f r)) → keeps I X (modify f).
Proof. intros Hf r HP. exact (Hf r HP). Qed.

Lemma keeps_bind {A B} I X (m : M A) (k : A → M B) :
  keeps I X m → (∀ x, keeps I X (k x)) → keeps I X (m ≫= k).
Proof. intros Hm Hk. eapply triple_bind; [exact Hm|exact Hk]. Qed.

(** With what was read available to the continuation. *)
Lemma keeps_bind_gets {A B} I X (f : resolver → A) (k : A → M B) :
  (∀ r0, I r0 → triple (λ r, r = r0) (k (f r0)) (λ _, I) (λ e r, I r ∧ X e)) →
  keeps I X (gets f ≫= k).
Proof.
  intros Hk r HP. rewrite bind_unfold. simpl. exact (Hk r HP r eq_refl).
Qed.

Lemma keeps_try {A} I (X : exn → Prop) (m h : M A) :
  keeps I (λ e, e = IndexError ∨ X e) m → keeps I X h →
  keeps I X (try_IndexError m h).
Proof.
  intros Hm Hh r HP. unfold try_IndexError. specialize (Hm r HP).
  destruct (m r) as [r' [e|x]]; [|exact Hm].
  destruct Hm as [HI HX].
  destruct e; try (split; [exact HI|]; destruct HX as [HX|HX]; [discriminate HX|exact HX]).
  exact (Hh r' HI).
Qed.

Lemma keeps_weaken {A} I (X X' : exn → Prop) (m : M A) :
  keeps I X' m → (∀ e, X' e → X e) → keeps I X m.
Proof.
  intros Hm HX. eapply triple_weaken; [exact Hm|auto|auto|].
  intros e r [HI He]. auto.
Qed.

End MethodLaws.

Section BookkeepingProps.
Context `{D : Domain}.

Lemma ref_stack_for_atom_tracked (r : resolver) a stack c refs :
  atoms r !! a = Some (c, refs) →
  ref_stack_for_atom a stack r =
    if bool_decide (stack ∈ refs) then (r, inr tt)
    else (set_atoms <[a := (c, refs ++ [stack])]> r, inr tt).
Proof.
  intros Ha. unfold ref_stack_for_atom. rewrite bind_unfold. simpl.
  rewrite Ha. case_bool_decide; reflexivity.
Qed.

Lemma ref_stack_for_atom_untracked (r : resolver) a stack :
  atoms r !! a = None → ref_stack_for_atom a stack r = (r, inl AssertionError).
Proof.
  intros Ha. unfold ref_stack_for_atom. rewrite bind_unfold. simpl.
  rewrite Ha. reflexivity.
Qed.

(** C10. Registering a referencing stack is idempotent.  For an atom with an
    entry: when the stack is already among its referencing stacks the call
    changes nothing at all; registering a second time changes nothing after
    the first; and the call leaves the stack recorded, without introducing a
    duplicate into a list that had none. *)
Theorem ref_stack_for_atom_idempotent (r : resolver) a stack c refs :
  atoms r !! a = Some (c, refs) →
  (stack ∈ refs → ref_stack_for_atom a stack r = (r, inr tt)) ∧
  (let r1 := (ref_stack_for_atom a stack r).1 in
   ref_stack_for_atom a stack r1 = (r1, inr tt)) ∧
  (∃ refs1, atoms (ref_stack_for_atom a stack r).1 !! a = Some (c, refs1) ∧
            stack ∈ refs1 ∧ (NoDup refs → NoDup refs1)).
Proof.
  intros Ha. rewrite (ref_stack_for_atom_tracked r a stack c refs Ha).
  case_bool_decide as Hin; simpl.
  - split; [done|]. split.
    + rewrite (ref_stack_for_atom_tracked r a stack c refs Ha).
      rewrite bool_decide_eq_true_2; done.
    + exists refs. done.
  - assert (Hins : atoms (set_atoms <[a := (c, refs ++ [stack])]> r) !! a
                   = Some (c, refs ++ [stack])) by apply lookup_insert_eq.
    split; [done|]. split.
    + rewrite (ref_stack_for_atom_tracked _ a stack c _ Hins).
      rewrite bool_decide_eq_true_2; [done|]. set_solver.
    + exists (refs ++ [stack]). split; [done|]. split; [set_solver|].
      intros Hnd. apply NoDup_app. split; [done|]. split.
      * intros x Hx Hx'. apply list_elem_of_singleton in Hx'. by subst.
      * apply NoDup_singleton.
Qed.

(** [x[:len(stack)] == stack] says that [stack] is a prefix of [x]. *)
Lemma take_eq_prefix (stack x : list atom) :
  take (length stack) x = stack ↔ stack `prefix_of` x.
Proof.
  split.
  - intros Ht. exists (drop (length stack) x).
    rewrite <- Ht at 1. symmetry. apply take_drop.
  - intros [k ->]. by rewrite take_app_length.
Qed.

Lemma deref_stack_for_atom_untracked (r : resolver) a stack :
  atoms r !! a = None → deref_stack_for_atom a stack r = (r, inl AssertionError).
Proof.
  intros Ha. unfold deref_stack_for_atom. rewrite bind_unfold. simpl.
  rewrite Ha. reflexivity.
Qed.

Lemma deref_stack_for_atom_tracked (r : resolver) a stack c refs :
  atoms r !! a = Some (c, refs) →
  deref_stack_for_atom a stack r =
    match filter (λ x, take (length stack) x ≠ stack) refs with
    | [] => (set_atoms (delete a) (set_pkg_atoms (λ _, released_pkg_atoms r a) r), inr tt)
    | l => (set_atoms <[a := (c, l)]> r, inr tt)
    end.
Proof.
  intros Ha. unfold deref_stack_for_atom. rewrite bind_unfold. simpl.
  rewrite Ha. destruct (filter _ refs); reflexivity.
Qed.

(** C6. [deref_stack_for_atom(atom, stack)], for a tracked atom, returns
    normally and keeps exactly the referencing stacks of which [stack] is
    not a prefix.  If some are kept, only the atom's list of referencing
    stacks changes.  If none is kept, the atom's entry is deleted, the
    choice points of that atom are taken out of [pkg_atoms[atom.key]] (so
    the atom's own choice point is no longer listed there), that key is
    dropped when its list becomes empty, and nothing else changes. *)
Theorem deref_stack_for_atom_spec (r : resolver) a stack c refs :
  atoms r !! a = Some (c, refs) →
  let kept := filter (λ x, take (length stack) x ≠ stack) refs in
  let r' := (deref_stack_for_atom a stack r).1 in
  (deref_stack_for_atom a stack r).2 = inr tt ∧
  (∀ x, x ∈ kept ↔ x ∈ refs ∧ ¬ stack `prefix_of` x) ∧
  (kept ≠ [] → r' = set_atoms <[a := (c, kept)]> r) ∧
  (kept = [] →
     atoms r' = delete a (atoms r) ∧
     (∀ k, k ≠ key a → pkg_atoms r' !! k = pkg_atoms r !! k) ∧
     pkg_atoms r' !! key a =
       match pkg_atoms r !! key a with
       | Some xs =>
           match filter (λ x, cp_atom <$> cp_store r !! x ≠ Some a) xs with
           | [] => None
           | l => Some l
           end
       | None => None
       end ∧
     (∀ cp xs, cp_store r !! c = Some cp → cp_atom cp = a →
               pkg_atoms r' !! key a = Some xs → c ∉ xs) ∧
     search_stacks r' = search_stacks r ∧ current_stack r' = current_stack r ∧
     current_atom r' = current_atom r ∧ false_atoms r' = false_atoms r ∧
     cp_store r' = cp_store r).
Proof.
  intros Ha kept r'. subst r'.
  rewrite (deref_stack_for_atom_tracked r a stack c refs Ha). fold kept.
  assert (Hkept : ∀ x, x ∈ kept ↔ x ∈ refs ∧ ¬ stack `prefix_of` x).
  { intros x. unfold kept. rewrite list_elem_of_filter, take_eq_prefix. tauto. }
  assert (Hkey : released_pkg_atoms r a !! key a =
    match pkg_atoms r !! key a with
    | Some xs =>
        match filter (λ x, cp_atom <$> cp_store r !! x ≠ Some a) xs with
        | [] => None
        | l => Some l
        end
    | None => None
    end).
  { unfold released_pkg_atoms. destruct (pkg_atoms r !! key a) as [xs|] eqn:Hk.
    - destruct (filter _ xs) eqn:Hf.
      + apply lookup_delete_eq.
      + apply lookup_insert_eq.
    - exact Hk. }
  destruct kept as [|s kept'] eqn:Hk; simpl.
  - split; [done|]. split; [done|]. split; [done|]. intros _.
    split; [done|]. split.
    { intros k Hne. unfold released_pkg_atoms.
      destruct (pkg_atoms r !! key a) as [xs|]; [|done].
      destruct (filter _ xs).
      - by rewrite lookup_delete_ne.
      - by rewrite lookup_insert_ne. }
    split; [exact Hkey|]. split; [|done].
    intros cp xs Hcp Hat Hxs Hin. rewrite Hkey in Hxs.
    destruct (pkg_atoms r !! key a) as [ys|]; [|done].
    destruct (filter _ ys) as [|y l] eqn:Hf; [done|].
    injection Hxs as <-. rewrite <- Hf in Hin.
    apply list_elem_of_filter in Hin as [Hne _].
    apply Hne. rewrite Hcp. simpl. by rewrite Hat.
  - split; [done|]. split; [done|]. split; [done|]. done.
Qed.

End BookkeepingProps.

(** ** Properties every method keeps

    A property of the resolver that no assignment to [search_stacks],
    [current_stack], [current_atom], [atoms], [pkg_atoms] or to a choice
    point can break, and that survives adding an atom to [false_atoms], is
    kept by every method; and the methods raise plain exceptions only. *)

Create HintDb keeps.

(** Runs the primitive steps of a method applied to a resolver. *)
Ltac msimpl :=
  cbv [mbind M_bind mret M_ret bind ret raise gets modify lift assert_].

Ltac keeps_step :=
  lazymatch goal with
  | |- keeps _ _ (mbind _ _) => apply keeps_bind; [|intros ?]
  | |- keeps _ _ (mret _) => apply keeps_ret
  | |- keeps _ _ (ret _) => apply keeps_ret
  | |- keeps _ _ (raise _) => apply keeps_raise; try exact I
  | |- keeps _ _ (gets _) => apply keeps_gets
  | |- keeps _ _ (assert_ _) => apply keeps_assert; try exact I
  | |- keeps _ _ (modify _) => apply keeps_modify
  | |- keeps _ _ (match ?x with _ => _ end) => destruct x
  end.

Ltac keeps_auto := repeat (first [ solve [auto with keeps] | keeps_step ]).

Section Frame.
Context `{D : Domain}.
Variable I : resolver → Prop.
Hypothesis I_search_stacks : ∀ f r, I r → I (set_search_stacks f r).
Hypothesis I_current_stack : ∀ i r, I r → I (set_current_stack i r).
Hypothesis I_current_atom : ∀ a r, I r → I (set_current_atom a r).
Hypothesis I_atoms : ∀ f r, I r → I (set_atoms f r).
Hypothesis I_pkg_atoms : ∀ f r, I r → I (set_pkg_atoms f r).
Hypothesis I_cp_store : ∀ f r, I r → I (set_cp_store f r).
Hypothesis I_false_atoms : ∀ a r, I r → I (set_false_atoms (λ s, s ∪ {[a]}) r).

#[local] Hint Resolve I_search_stacks I_current_stack I_current_atom I_atoms
  I_pkg_atoms I_cp_store I_false_atoms : keeps.

Lemma cp_current_pkg_error c e : cp_current_pkg c = inl e → plain_exn e.
Proof. unfold cp_current_pkg. destruct (cp_matches c); [|done]. by intros [= <-]. Qed.

Lemma cp_depends_error c e : cp_depends c = inl e → plain_exn e.
Proof.
  unfold cp_depends. destruct (cp_current_pkg c) eqn:E; [|done].
  intros [= <-]. by eapply cp_current_pkg_error.
Qed.

Lemma cp_rdepends_error c e : cp_rdepends c = inl e → plain_exn e.
Proof.
  unfold cp_rdepends. destruct (cp_current_pkg c) eqn:E; [|done].
  intros [= <-]. by eapply cp_current_pkg_error.
Qed.

Lemma cp_reduce_atoms_error c a e : cp_reduce_atoms c a = inl e → plain_exn e.
Proof.
  unfold cp_reduce_atoms. destruct (cp_matches c); [by intros [= <-]|].
  destruct (remove_requiring _ _) as [[? ?]|]; done.
Qed.

Lemma frame_ref_stack_for_atom a stack : keeps I plain_exn (ref_stack_for_atom a stack).
Proof. unfold ref_stack_for_atom. keeps_auto. Qed.

Lemma frame_deref_stack_for_atom a stack : keeps I plain_exn (deref_stack_for_atom a stack).
Proof. unfold deref_stack_for_atom. keeps_auto. Qed.

Lemma frame_grab_next_stack : keeps I plain_exn grab_next_stack.
Proof. unfold grab_next_stack. keeps_auto. Qed.

Lemma frame_stack_at i : keeps I plain_exn (stack_at i).
Proof. unfold stack_at. keeps_auto. Qed.

#[local] Hint Resolve frame_ref_stack_for_atom frame_deref_stack_for_atom
  frame_grab_next_stack frame_stack_at : keeps.

Lemma frame_get_current_stack : keeps I plain_exn get_current_stack.
Proof. unfold get_current_stack. keeps_auto. Qed.

Lemma frame_top_of s : keeps I plain_exn (top_of s).
Proof. unfold top_of. keeps_auto. Qed.

Lemma frame_pop_stack i : keeps I plain_exn (pop_stack i).
Proof. unfold pop_stack. keeps_auto. Qed.

Lemma frame_push_stack i x : keeps I plain_exn (push_stack i x).
Proof. unfold push_stack. keeps_auto. Qed.

Lemma frame_cp_get i : keeps I plain_exn (cp_get i).
Proof. unfold cp_get. keeps_auto. Qed.

Lemma frame_cp_alloc c : keeps I plain_exn (cp_alloc c).
Proof. unfold cp_alloc. keeps_auto. Qed.

#[local] Hint Resolve frame_get_current_stack frame_top_of frame_pop_stack
  frame_push_stack frame_cp_get frame_cp_alloc : keeps.

Lemma frame_add_root_atom a : keeps I plain_exn (add_root_atom a).
Proof. unfold add_root_atom, global_h. keeps_auto. Qed.

Lemma frame_choice_point_is_complete ci : keeps I plain_exn (choice_point_is_complete ci).
Proof.
  unfold choice_point_is_complete. keeps_auto.
  - apply keeps_lift, cp_depends_error.
  - apply keeps_lift, cp_rdepends_error.
Qed.

Lemma frame_deref_released released t : keeps I plain_exn (deref_released released t).
Proof. induction released as [|x released IH]; simpl; keeps_auto. Qed.

#[local] Hint Resolve frame_choice_point_is_complete frame_deref_released : keeps.

Lemma frame_retract_choice parent top t : keeps I plain_exn (retract_choice parent top t).
Proof.
  unfold retract_choice. keeps_auto.
  apply keeps_try; [|keeps_auto].
  eapply keeps_weaken; [|intros e He; right; exact He].
  keeps_auto. apply keeps_lift, cp_reduce_atoms_error.
Qed.

Lemma frame_reschedule ci was_complete t : keeps I plain_exn (reschedule ci was_complete t).
Proof. unfold reschedule. keeps_auto. Qed.

#[local] Hint Resolve frame_retract_choice frame_reschedule : keeps.

Lemma frame_reschedule_result ci was_complete t :
  triple I (reschedule ci was_complete t)
    (λ more r, I r ∧ (more = [] ∨ more = [t]))
    (λ e r, I r ∧ plain_exn e).
Proof.
  unfold reschedule. eapply triple_bind; [apply frame_cp_get|]. intros c.
  destruct (negb (cp_nonzero c)); [intros r Hr; msimpl; auto|].
  destruct was_complete; [|intros r Hr; msimpl; auto].
  eapply triple_bind; [apply frame_choice_point_is_complete|]. intros now_complete.
  destruct (negb now_complete); intros r Hr; msimpl; auto with keeps.
Qed.

Lemma queue_weight_app (q q' : list (list atom)) :
  queue_weight (q ++ q') = queue_weight q + queue_weight q'.
Proof.
  unfold queue_weight. induction q as [|s q IH]; [done|].
  cbn in *. lia.
Qed.

(** One pass of the queue leaves [bail] as it was, unless it raises, and
    appends at most the prefix of a stack of two atoms or more. *)
Lemma frame_process_stack a msg bail stack :
  triple I (process_stack a msg bail stack)
    (λ res r, I r ∧ (res.1 = bail ∧ queue_weight res.2 ≤ length stack))
    (λ e r, I r ∧ plain_exn e).
Proof.
  unfold process_stack. destruct stack as [|x stack'].
  { intros r Hr. msimpl. done. }
  destruct (reverse (x :: stack')) as [|top [|parent rest]] eqn:Hrev;
    [intros r Hr; msimpl; done..|].
  eapply triple_bind; [apply frame_retract_choice|]. intros [ci was_complete].
  eapply triple_bind; [apply frame_reschedule_result|]. intros more.
  intros r [Hr Hmore]. msimpl. split; [done|]. split; [done|].
  destruct Hmore as [->| ->]; [cbn; lia|].
  assert (length (removelast (x :: stack')) = length stack') as Hlen.
  { rewrite removelast_firstn_len. cbn [length]. rewrite length_take. cbn. lia. }
  unfold queue_weight. cbn [snd map sum_list sum_list_with length].
  rewrite Hlen. unfold id. lia.
Qed.

(** The queue is drained within the bound, and [bail] is still [None]
    when it is. *)
Lemma frame_drain fuel a msg q :
  queue_weight q ≤ fuel →
  triple I (drain fuel a msg None q)
    (λ b r, I r ∧ b = None) (λ e r, I r ∧ plain_exn e).
Proof.
  revert q. induction fuel as [|fuel IH]; intros q Hw;
    destruct q as [|stack rest]; simpl.
  - intros r Hr. msimpl. done.
  - unfold queue_weight in Hw. cbn in Hw. lia.
  - intros r Hr. msimpl. done.
  - eapply triple_bind; [apply frame_process_stack|]. intros [b more].
    apply triple_pure_pre. cbn [fst snd]. intros [-> Hmore].
    apply IH. rewrite queue_weight_app.
    unfold queue_weight in Hw |- *. cbn in Hw. fold queue_weight in *.
    unfold queue_weight in Hmore |- *. lia.
Qed.

Lemma frame_unsatisfiable_atom a msg permenant :
  keeps I plain_exn (unsatisfiable_atom a msg permenant).
Proof.
  unfold unsatisfiable_atom.
  apply keeps_bind; [keeps_auto|intros ca].
  apply keeps_bind; [keeps_auto|intros _].
  apply keeps_bind; [destruct permenant; keeps_auto|intros _].
  apply keeps_bind; [keeps_auto|intros e].
  destruct e as [[c refs]|]; [|keeps_auto].
  eapply triple_bind; [apply frame_drain; lia|]. intros b.
  apply triple_pure_pre. intros ->.
  lazymatch goal with |- triple _ ?m _ _ => change (keeps I plain_exn m) end.
  keeps_auto.
Qed.

#[local] Hint Resolve frame_unsatisfiable_atom : keeps.

Lemma frame_satisfy_atom a matches : keeps I plain_exn (satisfy_atom a matches).
Proof. unfold satisfy_atom. keeps_auto. Qed.

Lemma frame_assert_no_blocker : keeps I plain_exn assert_no_blocker.
Proof. unfold assert_no_blocker. keeps_auto. Qed.

Lemma frame_scan_depends i t xs : keeps I plain_exn (scan_depends i t xs).
Proof. induction xs as [|x xs IH]; simpl; keeps_auto. Qed.

Lemma frame_find_conflict a xs : keeps I plain_exn (find_conflict a xs).
Proof.
  induction xs as [|x xs IH]; simpl; keeps_auto.
  apply keeps_lift, cp_current_pkg_error.
Qed.

#[local] Hint Resolve frame_assert_no_blocker frame_scan_depends
  frame_find_conflict : keeps.

Lemma frame_blocker_case i a t : keeps I plain_exn (blocker_case i a t).
Proof. unfold blocker_case. keeps_auto. Qed.

#[local] Hint Resolve frame_blocker_case : keeps.

Lemma frame_loop_pass t : keeps I plain_exn (loop_pass t).
Proof.
  unfold loop_pass. keeps_auto.
  - apply keeps_lift, cp_depends_error.
  - apply keeps_lift, cp_rdepends_error.
Qed.

#[local] Hint Resolve frame_loop_pass : keeps.

Lemma frame_gen_step g : keeps I plain_exn (gen_step g).
Proof. unfold gen_step. keeps_auto. Qed.

Lemma frame_gen_next fuel g r : I r → I (gen_next fuel g r).1.1.
Proof.
  revert g r. induction fuel as [|fuel IH]; intros g r Hr; simpl; [done|].
  pose proof (frame_gen_step g r Hr) as Hs.
  destruct (gen_step g r) as [r' [e|[g' []]]]; simpl; try tauto.
  by apply IH.
Qed.

(** Whatever a caller does keeps the property. *)
Lemma frame_run_op r o : I r → I (run_op r o).
Proof.
  intros Hr. destruct o as [a|fuel g|t|a matches|a msg permanent]; simpl.
  - pose proof (frame_add_root_atom a r Hr) as H.
    destruct (add_root_atom a r) as [r' [e|x]]; simpl; tauto.
  - by apply frame_gen_next.
  - pose proof (frame_loop_pass t r Hr) as H.
    destruct (loop_pass t r) as [r' [e|x]]; simpl; tauto.
  - pose proof (frame_satisfy_atom a matches r Hr) as H.
    destruct (satisfy_atom a matches r) as [r' [e|x]]; simpl; tauto.
  - pose proof (frame_unsatisfiable_atom a msg permanent r Hr) as H.
    destruct (unsatisfiable_atom a msg permanent r) as [r' [e|x]]; simpl; tauto.
Qed.

Lemma frame_run_ops ops r : I r → I (run_ops r ops).
Proof.
  revert r. induction ops as [|o ops IH]; intros r Hr; simpl; [done|].
  apply IH. by apply frame_run_op.
Qed.

End Frame.

Section TraversalProps.
Context `{D : Domain}.

(** [add_root_atom] on an atom without entry: the stack [[a]] is appended
    and becomes the current stack. *)
Lemma add_root_atom_untracked (r : resolver) a :
  atoms r !! a = None →
  add_root_atom a r =
    (set_current_stack (Some (length (search_stacks r)))
       (set_search_stacks (λ ss, ss ++ [[a]]) r), inr tt).
Proof.
  intros Ha. unfold add_root_atom, grab_next_stack. msimpl. rewrite Ha.
  rewrite bool_decide_eq_false_2 by (by intros [? ?]).
  cbn [search_stacks set_search_stacks].
  destruct (search_stacks r ++ [[a]]) as [|s0 ss0] eqn:Happ.
  { by destruct (search_stacks r). }
  rewrite <- Happ, length_app. simpl.
  by replace (length (search_stacks r) + 1 - 1) with (length (search_stacks r)) by lia.
Qed.

(** On a tracked atom it raises [NameError] and changes nothing. *)
Lemma add_root_atom_tracked (r : resolver) a :
  is_Some (atoms r !! a) → add_root_atom a r = (r, inl NameError).
Proof.
  intros Ha. unfold add_root_atom, global_h. msimpl.
  by rewrite bool_decide_eq_true_2.
Qed.

Lemma last_app_singleton_length (ss : list (list atom)) (stack : list atom) :
  length (ss ++ [stack]) - 1 = length ss ∧ (ss ++ [stack]) !! length ss = Some stack.
Proof.
  split.
  - rewrite length_app. simpl. lia.
  - rewrite lookup_app_r by lia. by rewrite Nat.sub_diag.
Qed.

(** A pass over a current stack that holds a blocker, were it on top, ends
    in the assertion that opens the body; the branch [elif a.blocks] is
    never entered. *)
Lemma loop_pass_blocker_on_stack (r : resolver) t ss stack :
  search_stacks r = ss ++ [stack] →
  existsb blocks stack = true →
  loop_pass t r = (r, inl AssertionError).
Proof.
  intros Hss Hb. unfold loop_pass. rewrite bind_unfold. cbn [gets].
  destruct (last_app_singleton_length ss stack) as [Hlen Hlook].
  rewrite Hss. destruct (ss ++ [stack]) as [|s0 ss0] eqn:Happ.
  { by destruct ss. }
  rewrite Hlen. rewrite bind_unfold. cbn [gets].
  case_bool_decide as Hcs; [|reflexivity].
  cbn [assert_]. msimpl. unfold stack_at. msimpl.
  rewrite Hss, Hlook.
  destruct stack as [|x stack']; [done|].
  rewrite Hb. reflexivity.
Qed.

Lemma existsb_blocks_below_top (stack : list atom) m :
  last stack = Some m → below_top_free stack → blocks m = false →
  existsb blocks stack = false.
Proof.
  intros Hlast Hfree Hm. unfold below_top_free in Hfree.
  destruct stack as [|x stack' _] using rev_ind; [done|].
  rewrite last_snoc in Hlast. injection Hlast as ->.
  rewrite removelast_last in Hfree.
  rewrite existsb_app. simpl. rewrite Hm, orb_false_r.
  apply not_true_is_false. intros Hex.
  apply existsb_exists in Hex as [x [Hx Hbx]].
  rewrite Forall_forall in Hfree. apply list_elem_of_In in Hx.
  specialize (Hfree x Hx). congruence.
Qed.

End TraversalProps.

Section ProtocolProps.
Context `{D : Domain}.

(** The completeness test reads and changes nothing. *)
Lemma choice_point_is_complete_pure (r : resolver) ci :
  (choice_point_is_complete ci r).1 = r.
Proof.
  unfold choice_point_is_complete, cp_get. msimpl.
  destruct (cp_store r !! ci) as [c|]; [|done].
  destruct (cp_depends c); [done|].
  destruct (forallb _ _); [|done].
  destruct (cp_rdepends c); done.
Qed.

(** It has an answer only for a choice point with a current package. *)
Lemma choice_point_is_complete_nonzero (r : resolver) ci b :
  (choice_point_is_complete ci r).2 = inr b →
  ∃ c, cp_store r !! ci = Some c ∧ cp_nonzero c = true.
Proof.
  unfold choice_point_is_complete, cp_get. msimpl.
  destruct (cp_store r !! ci) as [c|]; [|done].
  intros Hb. exists c. split; [done|].
  unfold cp_depends, cp_current_pkg, cp_nonzero in *.
  by destruct (cp_matches c).
Qed.

Lemma cp_reduce_atoms_nonzero c top :
  cp_nonzero c = true → ∃ res, cp_reduce_atoms c top = inr res.
Proof.
  unfold cp_nonzero, cp_reduce_atoms. destruct (cp_matches c); [done|].
  intros _. destruct (remove_requiring _ _) as [[? ?]|]; eauto.
Qed.

(** Dereferencing the released atoms raises nothing and leaves the stacks
    alone. *)
Lemma deref_released_ok (r : resolver) released t :
  (deref_released released t r).2 = inr tt ∧
  search_stacks (deref_released released t r).1 = search_stacks r.
Proof.
  revert r. induction released as [|x released IH]; intros r; simpl; [done|].
  rewrite bind_unfold. cbn [gets]. unfold tracked_in.
  case_bool_decide as Hx.
  - destruct Hx as [[c refs] Hx]. rewrite bind_unfold.
    rewrite (deref_stack_for_atom_tracked r x t c refs Hx).
    destruct (filter _ refs).
    + destruct (IH (set_atoms (delete x)
               (set_pkg_atoms (λ _, released_pkg_atoms r x) r))) as [H1 H2].
      split; [exact H1|exact H2].
    + destruct (IH (set_atoms <[x := (c, l :: l0)]> r)) as [H1 H2].
      split; [exact H1|exact H2].
  - rewrite bind_unfold. msimpl. apply IH.
Qed.

(** C7. While a referencing stack [pre ++ [parent; top]] is processed: if
    the parent's choice point was complete before the reduction and, once
    the reduction is made and the released atoms are dereferenced, is not
    complete, then the prefix [pre ++ [parent]] is appended to
    [search_stacks] as a new stack, nothing is appended to the queue, and
    [bail] is as before. *)
Theorem incomplete_parent_rescheduled (r : resolver) a msg bail pre parent top ci refs :
  let stack := pre ++ [parent; top] in
  let r1 := (retract_choice parent top (pre ++ [parent]) r).1 in
  atoms r !! parent = Some (ci, refs) →
  (choice_point_is_complete ci r).2 = inr true →
  (choice_point_is_complete ci r1).2 = inr false →
  process_stack a msg bail stack r
    = (set_search_stacks (λ ss, ss ++ [pre ++ [parent]]) r1, inr (bail, []))
  ∧ search_stacks (process_stack a msg bail stack r).1
    = search_stacks r ++ [pre ++ [parent]].
Proof.
  intros stack r1 Hparent Hwas Hnow.
  assert (Ht : removelast stack = pre ++ [parent]).
  { unfold stack. change [parent; top] with ([parent] ++ [top]).
    by rewrite app_assoc, removelast_last. }
  assert (Hrev : reverse stack = top :: parent :: reverse pre).
  { unfold stack. by rewrite reverse_app. }
  assert (Hbail : match stack with [] => Some (NoSolution a msg) | _ :: _ => bail end = bail).
  { unfold stack. by destruct pre. }
  (* the first half *)
  destruct (choice_point_is_complete_nonzero r ci true Hwas) as [c [Hc Hnz]].
  destruct (cp_reduce_atoms_nonzero c top Hnz) as [[c' [released provides]] Hred].
  pose proof (choice_point_is_complete_pure r ci) as Hpure.
  assert (Hretract : retract_choice parent top (pre ++ [parent]) r = (r1, inr (ci, true))
                     ∧ search_stacks r1 = search_stacks r).
  { subst r1. unfold retract_choice. rewrite !bind_unfold. cbn [gets]. rewrite Hparent.
    rewrite !bind_unfold. unfold try_IndexError. rewrite !bind_unfold.
    destruct (choice_point_is_complete ci r) as [r0 res] eqn:Hcomp.
    simpl in Hwas, Hpure. subst r0 res.
    unfold cp_get. msimpl. rewrite Hc, Hred.
    pose proof (deref_released_ok (set_cp_store <[ci:=c']> r) released (pre ++ [parent]))
      as [Hok Hss].
    destruct (deref_released released (pre ++ [parent]) (set_cp_store <[ci:=c']> r))
      as [r2 res2]. simpl in Hok, Hss. subst res2. simpl. done. }
  destruct Hretract as [Hretract Hss1].
  (* the second half *)
  destruct (choice_point_is_complete_nonzero r1 ci false Hnow) as [c1 [Hc1 Hnz1]].
  pose proof (choice_point_is_complete_pure r1 ci) as Hpure1.
  assert (Hproc : process_stack a msg bail stack r
    = (set_search_stacks (λ ss, ss ++ [pre ++ [parent]]) r1, inr (bail, []))).
  { unfold process_stack. rewrite Hrev, Hbail, Ht. rewrite bind_unfold, Hretract.
    unfold reschedule. rewrite !bind_unfold. unfold cp_get. msimpl. rewrite Hc1, Hnz1.
    cbn [negb]. destruct (choice_point_is_complete ci r1) as [r0 res] eqn:Hcomp.
    simpl in Hnow, Hpure1. subst r0 res. reflexivity. }
  split; [exact Hproc|]. rewrite Hproc. simpl. by rewrite Hss1.
Qed.

End ProtocolProps.

Section FalseAtomsProps.
Context `{D : Domain}.

Ltac frame_side := intros; simpl; first [done | set_solver].

(** With [permenant] the atom is added to [false_atoms] before anything
    else is done; the rest is the protocol without [permenant]. *)
Lemma unsatisfiable_atom_permanent (r : resolver) a msg :
  current_atom r = Some a →
  unsatisfiable_atom a msg true r
    = unsatisfiable_atom a msg false (set_false_atoms (λ s, s ∪ {[a]}) r).
Proof.
  intros Hca. unfold unsatisfiable_atom. rewrite !bind_unfold. cbn [gets].
  cbn [current_atom set_false_atoms]. rewrite Hca.
  rewrite bool_decide_eq_true_2 by done. reflexivity.
Qed.

(** The protocol raises plain exceptions only: never [NoSolution], and the
    queue is always drained within the bound. *)
Lemma unsatisfiable_atom_plain_exn (r : resolver) a msg permenant e :
  (unsatisfiable_atom a msg permenant r).2 = inl e → plain_exn e.
Proof.
  intros He.
  assert (H : keeps (λ _, True) plain_exn (unsatisfiable_atom a msg permenant))
    by (apply frame_unsatisfiable_atom; done).
  specialize (H r Logic.I).
  destruct (unsatisfiable_atom a msg permenant r) as [r' [e'|x]]; [|done].
  simpl in He. injection He as ->. tauto.
Qed.

Lemma unsatisfiable_atom_never_NoSolution (r : resolver) a msg permenant b msg' :
  (unsatisfiable_atom a msg permenant r).2 ≠ inl (NoSolution b msg').
Proof. intros He. by apply unsatisfiable_atom_plain_exn in He. Qed.

(** An empty stack met in the queue ends the loop with [IndexError], the
    value just given to [bail] is lost and the queue is left as it is. *)
Lemma drain_empty_stack (r : resolver) fuel a msg bail rest :
  drain (S fuel) a msg bail ([] :: rest) r = (r, inl IndexError).
Proof. reflexivity. Qed.

(** C2, as the code has it.  A call [satisfy_atom(atom, [])] made while
    [atom] is the top of the current stack and the traversal's focus
    installs the entry (a new, empty choice point is the entry of [atom],
    listed under the atom's key, with the current stack as its one
    referencing stack; [false_atoms] is not touched so far) and then runs
    the unsatisfiability protocol on [atom] with [permenant] true, which
    first adds [atom] to [false_atoms]; whether the call returns or raises,
    [atom] is in [false_atoms] afterwards. *)
Theorem satisfy_atom_empty_marks_false (r : resolver) a i stack :
  current_stack r = Some i →
  search_stacks r !! i = Some stack →
  last stack = Some a →
  current_atom r = Some a →
  let r1 := install_entry a [] stack r in
  satisfy_atom a [] r =
    (unsatisfiable_atom a "None supplied" true ≫= λ _,
     cs ← gets current_stack;
     if bool_decide (cs = Some i) then pop_stack i else ret tt) r1 ∧
  atoms r1 !! a = Some (length (cp_store r), [stack]) ∧
  cp_store r1 !! length (cp_store r) = Some (new_choice_point a []) ∧
  pkg_atoms r1 !! key a
    = Some (default [] (pkg_atoms r !! key a) ++ [length (cp_store r)]) ∧
  false_atoms r1 = false_atoms r ∧
  unsatisfiable_atom a "None supplied" true r1
    = unsatisfiable_atom a "None supplied" false (add_false_atom a r1) ∧
  a ∈ false_atoms (satisfy_atom a [] r).1.
Proof.
  intros Hcs Hstack Hlast Hca r1.
  set (ci := length (cp_store r)).
  set (r0 := set_pkg_atoms (λ m, <[key a := default [] (m !! key a) ++ [ci]]> m)
               (set_atoms <[a := (ci, [])]>
                  (set_cp_store (λ s, s ++ [new_choice_point a []]) r))).
  assert (Hr1 : set_atoms <[a := (ci, [] ++ [stack])]> r0 = r1).
  { unfold r0, r1, install_entry, set_atoms, set_pkg_atoms, set_cp_store. simpl.
    f_equal. fold ci. by rewrite insert_insert_eq. }
  assert (Hci : cp_store r1 !! ci = Some (new_choice_point a [])).
  { simpl. rewrite lookup_app_r by (unfold ci; lia).
    unfold ci. by rewrite Nat.sub_diag. }
  assert (Hsat : satisfy_atom a [] r =
           (unsatisfiable_atom a "None supplied" true ≫= λ _,
            cs ← gets current_stack;
            if bool_decide (cs = Some i) then pop_stack i else ret tt) r1).
  { unfold satisfy_atom at 1. rewrite bind_unfold.
    unfold get_current_stack, stack_at. msimpl. rewrite Hcs, Hstack.
    unfold top_of. rewrite Hlast. msimpl.
    rewrite bool_decide_eq_true_2 by done.
    unfold cp_alloc. msimpl. fold ci. fold r0.
    rewrite (ref_stack_for_atom_tracked r0 a stack ci []) by apply lookup_insert_eq.
    rewrite bool_decide_eq_false_2 by (by intros ?%elem_of_nil).
    rewrite Hr1. unfold cp_get. msimpl.
    rewrite Hci. reflexivity. }
  assert (Hperm : unsatisfiable_atom a "None supplied" true r1
                  = unsatisfiable_atom a "None supplied" false (add_false_atom a r1))
    by (apply unsatisfiable_atom_permanent; exact Hca).
  split; [exact Hsat|].
  split; [apply lookup_insert_eq|].
  split; [exact Hci|].
  split; [apply lookup_insert_eq|].
  split; [reflexivity|].
  split; [exact Hperm|].
  rewrite Hsat, bind_unfold, Hperm.
  assert (Hk : keeps (λ r', a ∈ false_atoms r') plain_exn
                 (unsatisfiable_atom a "None supplied" false))
    by (apply frame_unsatisfiable_atom; frame_side).
  assert (H0 : a ∈ false_atoms (add_false_atom a r1))
    by (simpl; set_solver).
  specialize (Hk (add_false_atom a r1) H0).
  destruct (unsatisfiable_atom a "None supplied" false _) as [r3 [e|[]]].
  - simpl. tauto.
  - rename Hk into Hin.
    assert (Hpop : keeps (λ r', a ∈ false_atoms r') plain_exn (pop_stack i))
      by (apply frame_pop_stack; frame_side).
    msimpl. case_bool_decide; [|exact Hin].
    specialize (Hpop r3 Hin). destruct (pop_stack i r3) as [r4 [e|[]]]; simpl; tauto.
Qed.

End FalseAtomsProps.

(** ** No blocker below the top of a stack *)

Section StacksOk.
Context `{D : Domain}.

Lemma Forall_removelast {A} (P : A → Prop) (l : list A) :
  Forall P l → Forall P (removelast l).
Proof. intros H. rewrite removelast_firstn_len. by apply Forall_take. Qed.

Lemma below_top_free_removelast (s : list atom) :
  below_top_free s → below_top_free (removelast s).
Proof. apply Forall_removelast. Qed.

Lemma below_top_free_push (s : list atom) x :
  existsb blocks s = false → below_top_free (s ++ [x]).
Proof.
  intros Hs. unfold below_top_free. rewrite removelast_last.
  apply Forall_forall. intros y Hy. apply not_true_is_false. intros Hb.
  assert (existsb blocks s = true); [|congruence].
  apply existsb_exists. exists y. split; [by apply list_elem_of_In|done].
Qed.

Lemma below_top_free_singleton (x : atom) : below_top_free [x].
Proof. unfold below_top_free. simpl. constructor. Qed.

(** The two bookkeeping methods keep the invariant and leave
    [search_stacks] alone. *)
Lemma ok_ref_stack_for_atom a stack ss0 :
  below_top_free stack →
  keeps (λ r, stacks_ok r ∧ search_stacks r = ss0) plain_exn (ref_stack_for_atom a stack).
Proof.
  intros Hfree r [[Hs Hr] Hss].
  destruct (atoms r !! a) as [[c refs]|] eqn:Ha.
  - rewrite (ref_stack_for_atom_tracked r a stack c refs Ha).
    case_bool_decide; [done|]. split; [|done]. split; [exact Hs|].
    unfold refs_below_top_free. simpl. apply map_Forall_insert_2; [|exact Hr].
    simpl. apply Forall_app. split; [exact (Hr a _ Ha)|]. by constructor.
  - rewrite (ref_stack_for_atom_untracked r a stack Ha). done.
Qed.

Lemma ok_deref_stack_for_atom a stack ss0 :
  keeps (λ r, stacks_ok r ∧ search_stacks r = ss0) plain_exn (deref_stack_for_atom a stack).
Proof.
  intros r [[Hs Hr] Hss].
  destruct (atoms r !! a) as [[c refs]|] eqn:Ha.
  - rewrite (deref_stack_for_atom_tracked r a stack c refs Ha).
    destruct (filter _ refs) as [|s l] eqn:Hf.
    + split; [|done]. split; [exact Hs|].
      unfold refs_below_top_free. simpl. by apply map_Forall_delete.
    + split; [|done]. split; [exact Hs|].
      unfold refs_below_top_free. simpl. apply map_Forall_insert_2; [|exact Hr].
      simpl. rewrite <- Hf. apply Forall_forall. intros y Hy.
      apply list_elem_of_filter in Hy as [_ Hy].
      pose proof (Hr a _ Ha) as Hall. simpl in Hall.
      rewrite Forall_forall in Hall. by apply Hall.
  - rewrite (deref_stack_for_atom_untracked r a stack Ha). done.
Qed.

Lemma ok_deref_released released t ss0 :
  keeps (λ r, stacks_ok r ∧ search_stacks r = ss0) plain_exn (deref_released released t).
Proof.
  induction released as [|x released IH]; simpl; keeps_auto.
  apply ok_deref_stack_for_atom.
Qed.

(** Assignments that cannot break the invariant. *)
Lemma stacks_ok_cp_store f r ss0 :
  stacks_ok r ∧ search_stacks r = ss0 →
  stacks_ok (set_cp_store f r) ∧ search_stacks (set_cp_store f r) = ss0.
Proof. done. Qed.

Lemma stacks_ok_current_stack i r ss0 :
  stacks_ok r ∧ search_stacks r = ss0 →
  stacks_ok (set_current_stack i r) ∧ search_stacks (set_current_stack i r) = ss0.
Proof. done. Qed.

Lemma stacks_ok_current_atom a r ss0 :
  stacks_ok r ∧ search_stacks r = ss0 →
  stacks_ok (set_current_atom a r) ∧ search_stacks (set_current_atom a r) = ss0.
Proof. done. Qed.

Lemma ok_retract_choice parent top t ss0 :
  keeps (λ r, stacks_ok r ∧ search_stacks r = ss0) plain_exn (retract_choice parent top t).
Proof.
  unfold retract_choice. keeps_auto.
  - apply keeps_try; [|keeps_auto].
    eapply keeps_weaken; [|intros e He; right; exact He].
    keeps_auto.
    + by apply frame_choice_point_is_complete.
    + by apply frame_cp_get.
    + apply keeps_lift, cp_reduce_atoms_error.
  - apply ok_deref_released.
Qed.

Lemma keeps_free_stacks {A} (m : M A) X :
  (∀ ss0, keeps (λ r, stacks_ok r ∧ search_stacks r = ss0) X m) →
  keeps stacks_ok X m.
Proof.
  intros H r Hr. specialize (H (search_stacks r) r (conj Hr eq_refl)).
  destruct (m r) as [r' [e|x]]; tauto.
Qed.

Lemma stacks_ok_schedule (r : resolver) t :
  stacks_ok r → below_top_free t →
  stacks_ok (set_search_stacks (λ ss, ss ++ [t]) r).
Proof.
  intros [Hs Hr] Ht. split; [|exact Hr].
  unfold no_blocker_mid_stack. simpl. apply Forall_app. split; [exact Hs|].
  by constructor.
Qed.

Lemma ok_reschedule ci was_complete t :
  below_top_free t →
  triple stacks_ok (reschedule ci was_complete t)
    (λ more r, stacks_ok r ∧ Forall below_top_free more)
    (λ e r, stacks_ok r ∧ plain_exn e).
Proof.
  intros Ht. unfold reschedule.
  eapply triple_bind; [by apply frame_cp_get|]. intros c.
  destruct (negb (cp_nonzero c)).
  { intros r Hr. msimpl. split; [done|]. by constructor. }
  destruct was_complete; [|intros r Hr; msimpl; by split].
  eapply triple_bind; [by apply frame_choice_point_is_complete|]. intros now_complete.
  destruct (negb now_complete); intros r Hr; msimpl; [|by split].
  split; [by apply stacks_ok_schedule|done].
Qed.

Lemma ok_process_stack a msg bail stack :
  below_top_free stack →
  triple stacks_ok (process_stack a msg bail stack)
    (λ res r, stacks_ok r ∧ Forall below_top_free res.2)
    (λ e r, stacks_ok r ∧ plain_exn e).
Proof.
  intros Hfree. unfold process_stack.
  destruct (reverse stack) as [|top [|parent rest]] eqn:Hrev;
    [intros r Hr; msimpl; done..|].
  eapply triple_bind.
  { apply keeps_free_stacks. intros ss0. apply ok_retract_choice. }
  intros [ci was_complete].
  eapply triple_bind; [by apply ok_reschedule, below_top_free_removelast|].
  intros more r [Hr Hmore]. msimpl. by split.
Qed.

Lemma ok_drain fuel a msg bail q :
  Forall below_top_free q →
  triple stacks_ok (drain fuel a msg bail q) (λ _, stacks_ok) (λ _, stacks_ok).
Proof.
  revert bail q. induction fuel as [|fuel IH]; intros bail q Hq;
    destruct q as [|stack rest]; simpl; try (intros r Hr; msimpl; done).
  apply Forall_cons in Hq as [Hstack Hrest].
  eapply triple_bind.
  { eapply triple_weaken; [by apply (ok_process_stack a msg bail stack)|done|..].
    - intros x r H. exact H.
    - intros e r [H _]. exact H. }
  intros [bail' more]. apply triple_pure_pre. cbn [snd]. intros Hmore.
  apply IH. apply Forall_app. by split.
Qed.

Lemma ok_grab_next_stack : keeps stacks_ok plain_exn grab_next_stack.
Proof. by apply frame_grab_next_stack. Qed.

Lemma ok_unsatisfiable_atom a msg permenant :
  triple stacks_ok (unsatisfiable_atom a msg permenant) (λ _, stacks_ok) (λ _, stacks_ok).
Proof.
  unfold unsatisfiable_atom.
  apply triple_bind_gets. intros ca.
  apply triple_bind_assert; [tauto|]. intros _.
  eapply triple_bind with (Q := λ _, stacks_ok).
  { destruct permenant; intros r [Hr _]; msimpl; exact Hr. }
  intros _. apply triple_bind_gets. intros [[c refs]|]; [|intros r [Hr _]; msimpl; done].
  eapply triple_bind with (Q := λ _, stacks_ok).
  { intros r [Hr Ha]. apply ok_drain; [|exact Hr].
    destruct Hr as [_ Hrefs]. exact (Hrefs a _ Ha). }
  intros bail. eapply triple_bind with (Q := λ _, stacks_ok).
  { eapply triple_weaken; [apply ok_grab_next_stack|done|done|]. intros e r [H _]. exact H. }
  intros _. destruct bail; intros r Hr; msimpl; done.
Qed.

Lemma ok_pop_stack i : triple stacks_ok (pop_stack i) (λ _, stacks_ok) (λ _, stacks_ok).
Proof.
  intros r Hr. unfold pop_stack, stack_at. msimpl.
  destruct (search_stacks r !! i) as [s|] eqn:Hi; [|done].
  destruct s as [|x s']; [done|].
  destruct Hr as [Hs Hrefs]. split; [|exact Hrefs].
  unfold no_blocker_mid_stack in *. cbn [search_stacks set_search_stacks].
  apply Forall_insert; [exact Hs|].
  apply below_top_free_removelast.
  rewrite Forall_forall in Hs. apply Hs. by eapply list_elem_of_lookup_2.
Qed.

Lemma ok_add_root_atom a :
  triple stacks_ok (add_root_atom a) (λ _, stacks_ok) (λ _, stacks_ok).
Proof.
  intros r Hr. unfold add_root_atom, global_h, grab_next_stack. msimpl.
  destruct (bool_decide _); [done|]. cbn [search_stacks set_search_stacks].
  destruct (search_stacks r ++ [[a]]) eqn:Happ;
    (apply (stacks_ok_schedule r [a]); [exact Hr|apply below_top_free_singleton]).
Qed.

Lemma ok_get_current_stack :
  triple stacks_ok get_current_stack
    (λ res r, stacks_ok r ∧ below_top_free res.2) (λ _, stacks_ok).
Proof.
  intros r Hr. unfold get_current_stack, stack_at. msimpl.
  destruct (current_stack r) as [i|]; [|done].
  destruct (search_stacks r !! i) as [s|] eqn:Hi; [|done].
  split; [done|]. destruct Hr as [Hs _].
  unfold no_blocker_mid_stack in Hs. rewrite Forall_forall in Hs.
  apply Hs. by eapply list_elem_of_lookup_2.
Qed.

Lemma ok_satisfy_atom a matches :
  triple stacks_ok (satisfy_atom a matches) (λ _, stacks_ok) (λ _, stacks_ok).
Proof.
  unfold satisfy_atom.
  eapply triple_bind; [apply ok_get_current_stack|]. intros [i stack].
  apply triple_pure_pre. cbn [snd]. intros Hstack.
  eapply triple_bind with (Q := λ _, stacks_ok).
  { eapply triple_weaken; [by apply (frame_top_of stacks_ok)|done|done|].
    intros e r [H _]. exact H. }
  intros top. eapply triple_bind with (Q := λ _, stacks_ok).
  { destruct (bool_decide (a = top)); intros r Hr; msimpl; done. }
  intros _. eapply triple_bind with (Q := λ _, stacks_ok).
  { intros r Hr. unfold cp_alloc. msimpl. exact Hr. }
  intros ci. eapply triple_bind_modify with (Q := stacks_ok).
  { intros r [Hs Hrefs]. split; [exact Hs|].
    unfold refs_below_top_free. simpl. apply map_Forall_insert_2; [|exact Hrefs].
    constructor. }
  eapply triple_bind_modify with (Q := stacks_ok); [done|].
  eapply triple_bind with (Q := λ _, stacks_ok).
  { eapply triple_weaken.
    - apply keeps_free_stacks. intros ss0. by apply (ok_ref_stack_for_atom a stack ss0).
    - done.
    - done.
    - intros e r [H _]. exact H. }
  intros _. eapply triple_bind with (Q := λ _, stacks_ok).
  { eapply triple_weaken; [by apply (frame_cp_get stacks_ok)|done|done|].
    intros e r [H _]. exact H. }
  intros c. destruct (negb (cp_nonzero c)); [|intros r Hr; msimpl; done].
  eapply triple_bind; [apply ok_unsatisfiable_atom|]. intros ?.
  apply triple_bind_gets. intros cs.
  destruct (bool_decide (cs = Some i)).
  - eapply triple_pre; [apply ok_pop_stack|]. tauto.
  - intros r [Hr _]. msimpl. done.
Qed.

Lemma existsb_blocks_last (s : list atom) a :
  existsb blocks s = false → last s = Some a → blocks a = false.
Proof.
  intros Hs Hlast. apply not_true_is_false. intros Hb.
  assert (existsb blocks s = true); [|congruence].
  apply existsb_exists. exists a. split; [|done].
  destruct s as [|x s' _] using rev_ind; [done|].
  rewrite last_snoc in Hlast. injection Hlast as ->.
  apply in_app_iff. right. by left.
Qed.

(** The scan pushes a dependency only on a stack without blockers. *)
Lemma ok_scan_depends i t xs ss0 s :
  ss0 !! i = Some s → existsb blocks s = false → below_top_free t →
  triple (λ r, stacks_ok r ∧ search_stacks r = ss0) (scan_depends i t xs)
    (λ _, stacks_ok) (λ _, stacks_ok).
Proof.
  intros Hi Hs Ht. induction xs as [|x xs IH]; simpl.
  { intros r [Hr _]. msimpl. done. }
  apply triple_bind_gets. intros present. destruct present.
  - eapply triple_bind with (Q := λ _ r, stacks_ok r ∧ search_stacks r = ss0).
    + eapply triple_weaken; [by apply (ok_ref_stack_for_atom x t ss0)|tauto|done|].
      intros e r [[H _] _]. exact H.
    + intros ?. exact IH.
  - intros r [[[Hst Hrefs] Hss] _]. unfold push_stack, stack_at. msimpl.
    cbn [search_stacks set_current_atom]. rewrite Hss, Hi.
    split; [|exact Hrefs]. unfold no_blocker_mid_stack in *.
    cbn [search_stacks set_search_stacks set_current_atom]. rewrite Hss.
    apply Forall_insert; [by rewrite <- Hss|]. by apply below_top_free_push.
Qed.

(** What follows the scan when an atom is missing, for a top atom [a] that
    is not a blocker. *)
Lemma ok_loop_pass_missing i a (t : option (list atom)) :
  blocks a = false →
  triple stacks_ok
    (stack' ← stack_at i;
     m ← top_of stack';
     modify (set_current_atom (Some m));;
     if bool_decide (m ∈ removelast stack') then
       ret (t, Yielded (cycle_restriction m a))
     else if blocks a then
       blocker_case i a t;;
       assert_no_blocker;;
       ret (t, Continue)
     else ret (t, Yielded (RAtom m)))
    (λ _, stacks_ok) (λ _, stacks_ok).
Proof.
  intros Hba. rewrite Hba. apply (keeps_any_triple _ plain_exn).
  keeps_auto; by first [apply frame_stack_at | apply frame_top_of].
Qed.

Lemma ok_loop_pass t :
  triple stacks_ok (loop_pass t) (λ _, stacks_ok) (λ _, stacks_ok).
Proof.
  unfold loop_pass. apply triple_bind_gets. intros ss.
  destruct ss as [|s0 ss']; [intros r [Hr _]; msimpl; done|].
  apply triple_bind_gets. intros cs. cbv zeta.
  apply triple_bind_assert; [tauto|]. intros _.
  set (i := length (s0 :: ss') - 1).
  intros r [[Hr Hss] Hcs]. rewrite bind_unfold. unfold stack_at at 1.
  rewrite bind_unfold. cbn [gets]. rewrite Hss.
  destruct ((s0 :: ss') !! i) as [stack|] eqn:Hi; [|done].
  cbn [ret raise]. destruct stack as [|x stack'].
  - (* the current stack is empty *)
    assert (Hok : stacks_ok (set_search_stacks (λ l, removelast l) r)).
    { destruct Hr as [Hs Hrefs]. split; [|exact Hrefs].
      unfold no_blocker_mid_stack. simpl. by apply Forall_removelast. }
    unfold grab_next_stack. msimpl. cbn [search_stacks set_search_stacks].
    destruct (removelast (search_stacks r)) eqn:Hrl; [exact Hok|].
    cbn [search_stacks set_search_stacks]. rewrite Hrl. exact Hok.
  - (* the current stack has a top *)
    rewrite bind_unfold. destruct (existsb blocks (x :: stack')) eqn:Hnb; [done|].
    cbn [negb assert_ ret]. rewrite bind_unfold. unfold top_of at 1.
    destruct (last (x :: stack')) as [a|] eqn:Hlast; [|done].
    cbn [ret]. pose proof (existsb_blocks_last _ a Hnb Hlast) as Hba.
    rewrite bind_unfold. cbn [gets].
    assert (Hrest : ∀ t' missing,
      triple stacks_ok
        (if (missing : bool) then
           stack' ← stack_at i;
           m ← top_of stack';
           modify (set_current_atom (Some m));;
           if bool_decide (m ∈ removelast stack') then
             ret (t', Yielded (cycle_restriction m a))
           else if blocks a then
             blocker_case i a t';;
             assert_no_blocker;;
             ret (t', Continue)
           else ret (t', Yielded (RAtom m))
         else
           pop_stack i;;
           assert_no_blocker;;
           ret (t', Continue))
        (λ _, stacks_ok) (λ _, stacks_ok)).
    { intros t' [|]; [by apply ok_loop_pass_missing|].
      eapply triple_bind; [apply ok_pop_stack|]. intros ?.
      apply (keeps_any_triple _ plain_exn). keeps_auto.
      by apply frame_assert_no_blocker. }
    destruct (atoms r !! a) as [[ci refs]|] eqn:Ha.
    + rewrite bind_unfold.
      assert (Hscan : triple (λ r', stacks_ok r' ∧ search_stacks r' = s0 :: ss')
        (c ← cp_get ci;
         deps ← lift (cp_depends c);
         rdeps ← lift (cp_rdepends c);
         missing ← scan_depends i (x :: stack') (deps ++ rdeps);
         ret (Some (x :: stack'), missing))
        (λ _, stacks_ok) (λ _, stacks_ok)).
      { eapply triple_bind_keeps; [by apply frame_cp_get|tauto|]. intros c.
        eapply triple_bind_keeps; [apply keeps_lift, cp_depends_error|tauto|].
        intros deps.
        eapply triple_bind_keeps; [apply keeps_lift, cp_rdepends_error|tauto|].
        intros rdeps.
        eapply triple_bind with (Q := λ _, stacks_ok).
        - eapply (ok_scan_depends i _ _ _ _ Hi Hnb).
          destruct Hr as [Hs _]. unfold no_blocker_mid_stack in Hs.
          rewrite Forall_forall in Hs. apply Hs. rewrite Hss.
          by eapply list_elem_of_lookup_2.
        - intros missing r' Hr'. msimpl. exact Hr'. }
      specialize (Hscan r (conj Hr Hss)).
      lazymatch type of Hscan with
      | match ?mr with _ => _ end => destruct mr as [r1 [e|[t' missing]]]
      end; [exact Hscan|].
      exact (Hrest t' missing r1 Hscan).
    + exact (Hrest t true r Hr).
Qed.

Lemma ok_gen_step g :
  triple stacks_ok (gen_step g) (λ _, stacks_ok) (λ _, stacks_ok).
Proof.
  unfold gen_step. destruct (pc g).
  - eapply triple_bind; [apply ok_loop_pass|]. intros [t s] r Hr. msimpl. exact Hr.
  - apply (keeps_any_triple _ plain_exn). keeps_auto. by apply frame_assert_no_blocker.
  - intros r Hr. msimpl. exact Hr.
Qed.

Lemma ok_gen_next fuel g r : stacks_ok r → stacks_ok (gen_next fuel g r).1.1.
Proof.
  revert g r. induction fuel as [|fuel IH]; intros g r Hr; simpl; [done|].
  pose proof (ok_gen_step g r Hr) as Hs.
  destruct (gen_step g r) as [r' [e|[g' []]]]; simpl; try done.
  by apply IH.
Qed.

Lemma ok_run_op r o : stacks_ok r → stacks_ok (run_op r o).
Proof.
  intros Hr. destruct o as [a|fuel g|t|a matches|a msg permanent]; simpl.
  - pose proof (ok_add_root_atom a r Hr) as H.
    by destruct (add_root_atom a r) as [r' [e|x]].
  - by apply ok_gen_next.
  - pose proof (ok_loop_pass t r Hr) as H.
    by destruct (loop_pass t r) as [r' [e|x]].
  - pose proof (ok_satisfy_atom a matches r Hr) as H.
    by destruct (satisfy_atom a matches r) as [r' [e|x]].
  - pose proof (ok_unsatisfiable_atom a msg permanent r Hr) as H.
    by destruct (unsatisfiable_atom a msg permanent r) as [r' [e|x]].
Qed.

Lemma stacks_ok_init : stacks_ok init.
Proof.
  split.
  - unfold no_blocker_mid_stack. simpl. repeat constructor.
  - unfold refs_below_top_free. simpl. apply map_Forall_empty.
Qed.

(** C9. In every state reached from the initial one through [add_root_atom],
    steps of the traversal, [satisfy_atom] and [unsatisfiable_atom], in any
    order and with any arguments, whether they return or raise, no search
    stack holds a blocker below its top. *)
Theorem no_blocker_below_top (ops : list op) :
  Forall (λ s, Forall (λ x, blocks x = false) (removelast s))
         (search_stacks (run_ops init ops)).
Proof.
  assert (H : stacks_ok (run_ops init ops)).
  { generalize stacks_ok_init. generalize init.
    induction ops as [|o ops IH]; intros r Hr; simpl; [done|].
    apply IH. by apply ok_run_op. }
  exact (proj1 H).
Qed.

End StacksOk.

(** ** The scenarios *)

Section ScenarioProps.
#[local] Existing Instance ex_domain.

Ltac by_computation := vm_compute; reflexivity.
Ltac member :=
  lazymatch goal with
  | |- ?x ∈ ?X => apply (bool_decide_eq_true_1 (x ∈ X)); vm_compute; reflexivity
  end.
Ltac not_member :=
  lazymatch goal with
  | |- ?x ∉ ?X => apply (bool_decide_eq_false_1 (x ∈ X)); vm_compute; reflexivity
  end.

(** C1, at a root-level reference.  [a] is tracked, it is the traversal's
    focus and its one referencing stack is the empty stack.  The protocol
    adds [a] to [false_atoms] and then leaves with [IndexError], raised by
    [stack[-2]] on the empty stack: [NoSolution] is not raised, and
    [grab_next_stack] was not reached.  A root without candidates, whose
    referencing stack is [(a,)], ends the same way. *)
Theorem root_reference_raises_IndexError :
  atoms rooted !! want "a" = Some (0, [[]]) ∧
  current_atom rooted = Some (want "a") ∧
  unsatisfiable_atom (want "a") "no candidates" true rooted
    = (set_false_atoms (λ s, s ∪ {[want "a"]}) rooted, inl IndexError) ∧
  lone1.2 = Yield (RAtom (want "a")) ∧
  (satisfy_atom (want "a") [] lone1.1.1).2 = inl IndexError.
Proof. repeat split; by_computation. Qed.

(** C2, refuted.  [m] is yielded with no entry and is not in [false_atoms];
    [satisfy_atom(m, [])] returns normally, and [m] is in [false_atoms].
    Likewise for the root [a], where the call raises. *)
Lemma satisfy_atom_empty_adds_false_atom :
  bt3.2 = Yield (RAtom (want "m")) ∧
  (want "m" ∉ false_atoms bt3.1.1) ∧
  (satisfy_atom (want "m") [] bt3.1.1).2 = inr tt ∧
  want "m" ∈ false_atoms (satisfy_atom (want "m") [] bt3.1.1).1 ∧
  lone1.2 = Yield (RAtom (want "a")) ∧
  (want "a" ∉ false_atoms lone1.1.1) ∧
  (satisfy_atom (want "a") [] lone1.1.1).2 = inl IndexError ∧
  want "a" ∈ false_atoms (satisfy_atom (want "a") [] lone1.1.1).1.
Proof.
  split; [by_computation|]. split; [not_member|].
  split; [by_computation|]. split; [member|].
  split; [by_computation|]. split; [not_member|].
  split; [by_computation|member].
Qed.

(** C3, refuted.  [m] was added to [false_atoms] by the protocol when
    [satisfy_atom(m, [])] found no candidate; later in the same session the
    traversal, expanding [r2], yields [m] again.  And [a], reported as
    permanently unsatisfiable by the caller when it was yielded, is yielded
    again by the next pull. *)
Lemma false_atom_yielded_again :
  (want "m" ∉ false_atoms bt3.1.1) ∧
  want "m" ∈ false_atoms bt4 ∧
  want "m" ∈ false_atoms bt6 ∧
  bt7.2 = Yield (RAtom (want "m")) ∧
  lone1.2 = Yield (RAtom (want "a")) ∧
  want "a" ∈ false_atoms fl1.1 ∧
  fl2.2 = Yield (RAtom (want "a")).
Proof.
  split; [not_member|]. split; [member|]. split; [member|].
  split; [by_computation|]. split; [by_computation|].
  split; [member|by_computation].
Qed.

(** C4, at a blocker on top of the current stack.  The current stack is
    [[!p]]; the choice point listed under the key [p] has the current
    package [p], which the blocker matches.  The pass ends in
    [AssertionError] at the assertion that opens the body: the resolver is
    unchanged, [!p] is still on its stack, and the protocol was not run.
    Entered all the same, the branch [elif a.blocks] finds the conflict and
    calls the protocol, which raises [KeyError] at [self.atoms[atom]], the
    blocker having no entry; nothing is popped. *)
Theorem blocker_on_top_raises_AssertionError :
  let r := bl3.1.1 in
  search_stacks r = [[]; [blocker "p"]] ∧
  current_stack r = Some 1 ∧
  blocks (blocker "p") = true ∧
  pkg_atoms r !! key (blocker "p") = Some [0] ∧
  (cp_current_pkg <$> cp_store r !! 0) = Some (inr (package "p" [] [])) ∧
  atom_match (blocker "p") (package "p" [] []) = true ∧
  loop_pass None r = (r, inl AssertionError) ∧
  bl3.2 = Raised AssertionError ∧
  blocker_case 1 (blocker "p") None r
    = (set_current_atom (Some (blocker "p")) r, inl KeyError).
Proof. repeat split; by_computation. Qed.

(** C5, at a tracked atom.  [r1] has an entry; [add_root_atom(r1)] raises
    [NameError] and changes nothing: no root-level reference is added. *)
Theorem add_root_atom_tracked_raises_NameError :
  atoms bt2 !! want "r1" = Some (0, [[want "r1"]]) ∧
  add_root_atom (want "r1") bt2 = (bt2, inl NameError).
Proof. split; by_computation. Qed.

(** [satisfy_atom_empty_marks_false] at the yield of [m]. *)
Lemma satisfy_atom_empty_marks_false_witness :
  current_stack bt3.1.1 = Some 2 ∧
  search_stacks bt3.1.1 !! 2 = Some [want "r1"; want "m"] ∧
  last [want "r1"; want "m"] = Some (want "m") ∧
  current_atom bt3.1.1 = Some (want "m") ∧
  atoms (install_entry (want "m") [] [want "r1"; want "m"] bt3.1.1) !! want "m"
    = Some (length (cp_store bt3.1.1), [[want "r1"; want "m"]]) ∧
  want "m" ∈ false_atoms (satisfy_atom (want "m") [] bt3.1.1).1.
Proof.
  do 4 (split; [vm_compute; reflexivity|]).
  pose proof (satisfy_atom_empty_marks_false bt3.1.1 (want "m") 2
                [want "r1"; want "m"]
                ltac:(vm_compute; reflexivity) ltac:(vm_compute; reflexivity)
                ltac:(vm_compute; reflexivity) ltac:(vm_compute; reflexivity))
    as (_ & Hentry & _ & _ & _ & _ & Hin).
  split; [exact Hentry|exact Hin].
Defined.

(** [deref_stack_for_atom_spec] where the last referencing stack goes. *)
Lemma deref_stack_for_atom_spec_witness :
  atoms inc !! want "m" = Some (1, [[want "r"; want "m"]]) ∧
  (deref_stack_for_atom (want "m") [want "r"] inc).2 = inr tt.
Proof.
  split; [vm_compute; reflexivity|].
  apply (deref_stack_for_atom_spec inc (want "m") [want "r"] 1 [[want "r"; want "m"]]).
  vm_compute; reflexivity.
Defined.

(** [ref_stack_for_atom_idempotent] at a stack that is already recorded. *)
Lemma ref_stack_for_atom_idempotent_witness :
  atoms inc !! want "m" = Some (1, [[want "r"; want "m"]]) ∧
  ref_stack_for_atom (want "m") [want "r"; want "m"]
    (ref_stack_for_atom (want "m") [want "r"; want "m"] inc).1
  = ((ref_stack_for_atom (want "m") [want "r"; want "m"] inc).1, inr tt).
Proof.
  split; [vm_compute; reflexivity|].
  apply (ref_stack_for_atom_idempotent inc (want "m") [want "r"; want "m"] 1
           [[want "r"; want "m"]]).
  vm_compute; reflexivity.
Defined.

(** [incomplete_parent_rescheduled] where [m] fails under [r]: the candidate
    [R1] goes, [R2] needs the untracked [n], and [(r,)] is scheduled. *)
Lemma incomplete_parent_rescheduled_witness :
  atoms inc !! want "r" = Some (0, [[want "r"]]) ∧
  (choice_point_is_complete 0 inc).2 = inr true ∧
  (choice_point_is_complete 0
     (retract_choice (want "r") (want "m") [want "r"] inc).1).2 = inr false ∧
  search_stacks (process_stack (want "m") "None supplied" None [want "r"; want "m"] inc).1
  = [[want "r"; want "m"]; [want "r"]].
Proof.
  repeat (split; [vm_compute; reflexivity|]).
  apply (incomplete_parent_rescheduled inc (want "m") "None supplied" None []
           (want "r") (want "m") 0 [[want "r"]]); vm_compute; reflexivity.
Defined.

End ScenarioProps.

(** ** References name objects

    From the initial resolver on, no method meets a reference that names
    nothing: [Dangling] is never the exception a method leaves with. *)

Section StoreOk.
Context `{D : Domain}.

Lemma at_least_mono n k n' k' (r : resolver) :
  n' ≤ n → k' ≤ k → at_least n k r → at_least n' k' r.
Proof. intros Hn Hk (Hok & ? & ?). split; [done|]. split; lia. Qed.

Lemma at_least_here (r : resolver) :
  store_ok r → at_least (length (search_stacks r)) (length (cp_store r)) r.
Proof. intros Hok. split; [done|]. split; lia. Qed.

Lemma wf_stack_at i n k :
  i < n → keeps (at_least n k) no_dangling (stack_at i).
Proof.
  intros Hi r (Hok & Hn & Hk). unfold stack_at. msimpl.
  destruct (search_stacks r !! i) as [s|] eqn:Hl; [done|].
  apply lookup_ge_None in Hl. lia.
Qed.

Lemma wf_cp_get i n k :
  i < k → keeps (at_least n k) no_dangling (cp_get i).
Proof.
  intros Hi r (Hok & Hn & Hk). unfold cp_get. msimpl.
  destruct (cp_store r !! i) as [c|] eqn:Hl; [done|].
  apply lookup_ge_None in Hl. lia.
Qed.

Lemma wf_ref_stack_for_atom a stack n k :
  keeps (at_least n k) no_dangling (ref_stack_for_atom a stack).
Proof.
  intros r (Hok & Hn & Hk).
  destruct (atoms r !! a) as [[c refs]|] eqn:Ha.
  - rewrite (ref_stack_for_atom_tracked r a stack c refs Ha).
    case_bool_decide; [done|].
    destruct Hok as (Hat & Hpk & Hcs). split; [|done].
    split; [|done]. simpl. apply map_Forall_insert_2; [|exact Hat].
    exact (Hat a _ Ha).
  - rewrite (ref_stack_for_atom_untracked r a stack Ha). done.
Qed.

Lemma released_pkg_atoms_ok (r : resolver) a :
  store_ok r →
  map_Forall (λ _ xs, Forall (λ x, x < length (cp_store r)) xs) (released_pkg_atoms r a).
Proof.
  intros (Hat & Hpk & Hcs). unfold released_pkg_atoms.
  destruct (pkg_atoms r !! key a) as [xs|] eqn:Hk; [|exact Hpk].
  destruct (filter _ xs) as [|y l] eqn:Hf.
  - by apply map_Forall_delete.
  - apply map_Forall_insert_2; [|exact Hpk]. rewrite <- Hf.
    apply Forall_forall. intros z Hz. apply list_elem_of_filter in Hz as [_ Hz].
    pose proof (Hpk _ _ Hk) as Hall. rewrite Forall_forall in Hall. by apply Hall.
Qed.

Lemma wf_deref_stack_for_atom a stack n k :
  keeps (at_least n k) no_dangling (deref_stack_for_atom a stack).
Proof.
  intros r (Hok & Hn & Hk).
  destruct (atoms r !! a) as [[c refs]|] eqn:Ha.
  - rewrite (deref_stack_for_atom_tracked r a stack c refs Ha).
    pose proof (released_pkg_atoms_ok r a Hok) as Hrel.
    destruct Hok as (Hat & Hpk & Hcs).
    destruct (filter _ refs) as [|s l] eqn:Hf.
    + split; [|done]. split; [|split; [exact Hrel|exact Hcs]].
      simpl. by apply map_Forall_delete.
    + split; [|done]. split; [|done].
      simpl. apply map_Forall_insert_2; [|exact Hat]. exact (Hat a _ Ha).
  - rewrite (deref_stack_for_atom_untracked r a stack Ha). done.
Qed.

Lemma wf_deref_released released t n k :
  keeps (at_least n k) no_dangling (deref_released released t).
Proof.
  induction released as [|x released IH]; simpl; keeps_auto.
  apply wf_deref_stack_for_atom.
Qed.

Lemma wf_grab_next_stack n k : keeps (at_least n k) no_dangling grab_next_stack.
Proof.
  intros r Hal. unfold grab_next_stack. msimpl.
  destruct (search_stacks r) as [|s ss] eqn:Hss; [done|].
  destruct Hal as ((Hat & Hpk & Hcs) & Hn & Hk).
  split; [|done]. split; [done|]. split; [done|].
  simpl. intros i [= <-]. rewrite Hss. simpl. lia.
Qed.

Lemma wf_pop_stack i n k :
  i < n → keeps (at_least n k) no_dangling (pop_stack i).
Proof.
  intros Hi r (Hok & Hn & Hk). unfold pop_stack, stack_at. msimpl.
  destruct (search_stacks r !! i) as [s|] eqn:Hl.
  - destruct s; [done|]. destruct Hok as (Hat & Hpk & Hcs).
    split; [|simpl; rewrite length_insert; done].
    split; [done|]. split; [done|]. simpl. rewrite length_insert. exact Hcs.
  - apply lookup_ge_None in Hl. lia.
Qed.

Lemma wf_push_stack i x n k :
  i < n → keeps (at_least n k) no_dangling (push_stack i x).
Proof.
  intros Hi r (Hok & Hn & Hk). unfold push_stack, stack_at. msimpl.
  destruct (search_stacks r !! i) as [s|] eqn:Hl.
  - destruct Hok as (Hat & Hpk & Hcs).
    split; [|simpl; rewrite length_insert; done].
    split; [done|]. split; [done|]. simpl. rewrite length_insert. exact Hcs.
  - apply lookup_ge_None in Hl. lia.
Qed.

(** A choice point raises [IndexError] and nothing else. *)
Lemma cp_current_pkg_IndexError c e : cp_current_pkg c = inl e → e = IndexError.
Proof. unfold cp_current_pkg. destruct (cp_matches c); [|done]. by intros [= <-]. Qed.

Lemma cp_depends_IndexError c e : cp_depends c = inl e → e = IndexError.
Proof.
  unfold cp_depends. destruct (cp_current_pkg c) eqn:E; [|done].
  intros [= <-]. by eapply cp_current_pkg_IndexError.
Qed.

Lemma cp_rdepends_IndexError c e : cp_rdepends c = inl e → e = IndexError.
Proof.
  unfold cp_rdepends. destruct (cp_current_pkg c) eqn:E; [|done].
  intros [= <-]. by eapply cp_current_pkg_IndexError.
Qed.

Lemma cp_reduce_atoms_IndexError c a e : cp_reduce_atoms c a = inl e → e = IndexError.
Proof.
  unfold cp_reduce_atoms. destruct (cp_matches c); [by intros [= <-]|].
  destruct (remove_requiring _ _) as [[? ?]|]; done.
Qed.

Lemma wf_choice_point_is_complete ci n k :
  ci < k → keeps (at_least n k) no_dangling (choice_point_is_complete ci).
Proof.
  intros Hci. unfold choice_point_is_complete. keeps_auto.
  - by apply wf_cp_get.
  - apply keeps_lift. by intros e ->%cp_depends_IndexError.
  - apply keeps_lift. by intros e ->%cp_rdepends_IndexError.
Qed.

Lemma wf_weaken {A} (m : M A) n k n' k' (P : resolver → Prop) :
  n ≤ n' → k ≤ k' →
  triple P m (λ _, at_least n' k') (λ e r, at_least n' k' r ∧ no_dangling e) →
  triple P m (λ _, at_least n k) (λ e r, at_least n k r ∧ no_dangling e).
Proof.
  intros Hn Hk Hm. eapply triple_weaken; [exact Hm|done|..].
  - intros x r. by apply at_least_mono.
  - intros e r [H ?]. split; [|done]. by eapply at_least_mono.
Qed.

Lemma at_least_cp_store_insert n k (r : resolver) ci c :
  at_least n k r → at_least n k (set_cp_store <[ci := c]> r).
Proof.
  intros ((Hat & Hpk & Hcs) & Hn & Hk). unfold at_least, store_ok. simpl.
  rewrite length_insert. done.
Qed.

Lemma at_least_schedule n k (r : resolver) t :
  at_least n k r → at_least n k (set_search_stacks (λ ss, ss ++ [t]) r).
Proof.
  intros ((Hat & Hpk & Hcs) & Hn & Hk). unfold at_least, store_ok. simpl.
  rewrite length_app. simpl. repeat split; try done; try lia.
  intros i Hi. specialize (Hcs i Hi). lia.
Qed.

Lemma wf_retract_choice parent top t n k :
  triple (at_least n k) (retract_choice parent top t)
    (λ res r, at_least n (k `max` S res.1) r)
    (λ e r, at_least n k r ∧ no_dangling e).
Proof.
  apply triple_from_state. intros r0 Hal. unfold retract_choice.
  apply triple_bind_gets. intros [[ci refs]|]; [|by intros r [-> _]].
  set (k' := k `max` S ci).
  eapply triple_pre with (P' := at_least n k').
  2:{ intros r [-> Ha]. destruct Hal as ((Hat & Hpk & Hcs) & Hn & Hk).
      pose proof (Hat _ _ Ha) as Hci. simpl in Hci.
      split; [done|]. split; [done|]. unfold k'. lia. }
  eapply triple_weaken with (Q' := λ res r, at_least n (k `max` S res.1) r)
    (E' := λ e r, at_least n k' r ∧ no_dangling e); [|done|done|].
  - eapply triple_bind with (Q := λ _, at_least n k').
    { apply keeps_try; [|keeps_auto].
      keeps_auto.
      + eapply keeps_weaken; [apply wf_choice_point_is_complete; unfold k'; lia|].
        intros e He. by right.
      + eapply keeps_weaken; [apply wf_cp_get; unfold k'; lia|].
        intros e He. by right.
      + apply keeps_lift. intros e ->%cp_reduce_atoms_IndexError. by left.
      + intros r. apply at_least_cp_store_insert. }
    intros [was_complete released_atoms].
    eapply triple_bind with (Q := λ _, at_least n k'); [apply wf_deref_released|].
    intros ? r Hr. exact Hr.
  - intros e r [Hr He]. split; [|done]. eapply at_least_mono; [| |exact Hr]; unfold k'; lia.
Qed.

Lemma wf_reschedule ci was_complete t n k :
  ci < k → keeps (at_least n k) no_dangling (reschedule ci was_complete t).
Proof.
  intros Hci. unfold reschedule. keeps_auto.
  - by apply wf_cp_get.
  - by apply wf_choice_point_is_complete.
  - intros r. apply at_least_schedule.
Qed.

Lemma wf_process_stack a msg bail stack n k :
  keeps (at_least n k) no_dangling (process_stack a msg bail stack).
Proof.
  unfold process_stack.
  destruct (reverse stack) as [|top [|parent rest]]; [by intros r Hr..|].
  eapply triple_bind; [apply wf_retract_choice|]. intros [ci was_complete].
  cbn [fst]. apply (wf_weaken _ n k n (k `max` S ci)); [lia..|].
  change (keeps (at_least n (k `max` S ci)) no_dangling
            (more ← reschedule ci was_complete (removelast stack);
             ret (match stack with
                  | [] => Some (NoSolution a msg)
                  | _ :: _ => bail
                  end, more))).
  keeps_auto. apply wf_reschedule. lia.
Qed.

Lemma wf_drain fuel a msg bail q n k :
  keeps (at_least n k) no_dangling (drain fuel a msg bail q).
Proof.
  revert bail q. induction fuel as [|fuel IH]; intros bail q;
    destruct q as [|stack rest]; simpl; try (by intros r Hr).
  keeps_auto. apply wf_process_stack.
Qed.

Lemma wf_unsatisfiable_atom a msg permenant n k :
  keeps (at_least n k) no_dangling (unsatisfiable_atom a msg permenant).
Proof.
  unfold unsatisfiable_atom.
  apply keeps_bind; [keeps_auto|intros ca].
  apply keeps_bind; [keeps_auto|intros _].
  apply keeps_bind; [destruct permenant; keeps_auto|intros _].
  apply keeps_bind; [keeps_auto|intros e].
  destruct e as [[c refs]|]; [|keeps_auto].
  eapply triple_bind with (Q := λ b r, at_least n k r ∧ b = None).
  { eapply triple_weaken.
    - apply triple_conj; [apply (wf_drain (queue_weight refs) a msg None refs n k)|].
      apply (frame_drain (λ _, True)); done.
    - intros r Hr. split; [exact Hr|done].
    - intros x r [H1 [_ H2]]. done.
    - intros e r [H1 _]. exact H1. }
  intros b. apply triple_pure_pre. intros ->.
  change (keeps (at_least n k) no_dangling (grab_next_stack;; ret tt)).
  keeps_auto. apply wf_grab_next_stack.
Qed.

Lemma wf_get_current_stack n k :
  triple (at_least n k) get_current_stack
    (λ res r, at_least (n `max` S res.1) k r)
    (λ e r, at_least n k r ∧ no_dangling e).
Proof.
  intros r Hal. unfold get_current_stack, stack_at. msimpl.
  destruct (current_stack r) as [i|] eqn:Hi; [|done].
  pose proof Hal as ((Hat & Hpk & Hcs) & Hn & Hk). specialize (Hcs i Hi).
  destruct (search_stacks r !! i) as [s|] eqn:Hl.
  - split; [exact (proj1 Hal)|]. cbn [fst]. split; lia.
  - apply lookup_ge_None in Hl. lia.
Qed.

Lemma wf_top_of s n k : keeps (at_least n k) no_dangling (top_of s).
Proof. unfold top_of. keeps_auto. Qed.

Lemma wf_cp_alloc c n k :
  triple (at_least n k) (cp_alloc c)
    (λ ci r, at_least n (k `max` S ci) r)
    (λ e r, at_least n k r ∧ no_dangling e).
Proof.
  intros r ((Hat & Hpk & Hcs) & Hn & Hk). unfold cp_alloc. msimpl.
  unfold at_least, store_ok. simpl. rewrite length_app. simpl.
  split; [|split; lia]. split; [|split; [|done]].
  - intros a e Ha. specialize (Hat a e Ha). simpl in *. lia.
  - intros key xs Hxs. specialize (Hpk key xs Hxs). simpl in *.
    eapply Forall_impl; [exact Hpk|]. intros x Hx. simpl in *. lia.
Qed.

Lemma at_least_new_entry n k (r : resolver) a ci :
  ci < k → at_least n k r →
  at_least n k (set_pkg_atoms (λ m, <[key a := default [] (m !! key a) ++ [ci]]> m)
                  (set_atoms <[a := (ci, [])]> r)).
Proof.
  intros Hci ((Hat & Hpk & Hcs) & Hn & Hk). unfold at_least, store_ok. simpl.
  split; [|done]. split; [|split; [|done]].
  - apply map_Forall_insert_2; [simpl; lia|exact Hat].
  - apply map_Forall_insert_2; [|exact Hpk]. apply Forall_app. split.
    + destruct (pkg_atoms r !! key a) as [xs|] eqn:Hxs; [exact (Hpk _ _ Hxs)|].
      constructor.
    + repeat constructor. lia.
Qed.

Lemma wf_satisfy_atom a matches n k :
  keeps (at_least n k) no_dangling (satisfy_atom a matches).
Proof.
  unfold satisfy_atom.
  eapply triple_bind; [apply wf_get_current_stack|]. intros [i stack]. cbn [fst].
  apply (wf_weaken _ n k (n `max` S i) k); [lia..|].
  eapply triple_bind; [apply wf_top_of|]. intros top.
  eapply triple_bind; [by apply keeps_assert|]. intros ?.
  eapply triple_bind.
  { eapply triple_weaken; [apply wf_cp_alloc|done|done|]. intros e r H. exact H. }
  intros ci.
  apply (wf_weaken _ (n `max` S i) k (n `max` S i) (k `max` S ci)); [lia..|].
  change (keeps (at_least (n `max` S i) (k `max` S ci)) no_dangling
    (modify (set_atoms <[a := (ci, [])]>);;
     modify (set_pkg_atoms (λ m, <[key a := default [] (m !! key a) ++ [ci]]> m));;
     ref_stack_for_atom a stack;;
     c ← cp_get ci;
     if negb (cp_nonzero c) then
       unsatisfiable_atom a "None supplied" true;;
       cs ← gets current_stack;
       if bool_decide (cs = Some i) then pop_stack i else ret tt
     else ret tt)).
  eapply triple_bind_modify with (Q := λ r, ∃ r0, at_least (n `max` S i) (k `max` S ci) r0
                                         ∧ r = set_atoms <[a := (ci, [])]> r0).
  { intros r Hr. by exists r. }
  eapply triple_bind_modify with (Q := at_least (n `max` S i) (k `max` S ci)).
  { intros r [r0 [Hr0 ->]]. apply at_least_new_entry; [lia|done]. }
  change (keeps (at_least (n `max` S i) (k `max` S ci)) no_dangling
    (ref_stack_for_atom a stack;;
     c ← cp_get ci;
     if negb (cp_nonzero c) then
       unsatisfiable_atom a "None supplied" true;;
       cs ← gets current_stack;
       if bool_decide (cs = Some i) then pop_stack i else ret tt
     else ret tt)).
  keeps_auto.
  - apply wf_ref_stack_for_atom.
  - apply wf_cp_get. lia.
  - apply wf_unsatisfiable_atom.
  - apply wf_pop_stack. lia.
Qed.

Lemma wf_add_root_atom a n k : keeps (at_least n k) no_dangling (add_root_atom a).
Proof.
  unfold add_root_atom, global_h.
  keeps_auto;
    first [ apply wf_ref_stack_for_atom
          | apply wf_grab_next_stack
          | intros r; apply at_least_schedule ].
Qed.

Lemma wf_assert_no_blocker n k : keeps (at_least n k) no_dangling assert_no_blocker.
Proof.
  unfold assert_no_blocker.
  eapply triple_bind; [apply wf_get_current_stack|]. intros [i stack]. cbn [fst].
  apply (wf_weaken _ n k (n `max` S i) k); [lia..|].
  by apply keeps_assert.
Qed.

Lemma wf_scan_depends i t xs n k :
  i < n → keeps (at_least n k) no_dangling (scan_depends i t xs).
Proof.
  intros Hi. induction xs as [|x xs IH]; simpl; keeps_auto.
  - apply wf_ref_stack_for_atom.
  - by apply wf_push_stack.
Qed.

Lemma wf_find_conflict a xs n k :
  Forall (λ x, x < k) xs → keeps (at_least n k) no_dangling (find_conflict a xs).
Proof.
  induction xs as [|x xs IH]; intros Hxs; simpl; [keeps_auto|].
  apply Forall_cons in Hxs as [Hx Hxs]. specialize (IH Hxs).
  keeps_auto.
  - by apply wf_cp_get.
  - apply keeps_lift. by intros e ->%cp_current_pkg_IndexError.
Qed.

Lemma wf_blocker_case i a t n k :
  i < n → keeps (at_least n k) no_dangling (blocker_case i a t).
Proof.
  intros Hi. apply triple_from_state. intros r0 Hal. unfold blocker_case.
  apply triple_bind_gets. intros xs.
  set (k' := length (cp_store r0)).
  assert (Hal' : at_least n k' r0).
  { destruct Hal as (Hok & Hn & Hk). split; [done|]. split; [done|]. unfold k'. lia. }
  assert (Hk' : k ≤ k') by (destruct Hal as (_ & _ & Hk); exact Hk).
  apply triple_from_state. intros r1 [-> Hxs].
  assert (Hall : Forall (λ x, x < k') xs).
  { subst xs. destruct Hal as ((Hat & Hpk & Hcs) & _ & _).
    destruct (pkg_atoms r0 !! key a) as [ys|] eqn:Hys; [exact (Hpk _ _ Hys)|].
    constructor. }
  eapply triple_pre with (P' := at_least n k'); [|by intros r ->].
  apply (wf_weaken _ n k n k'); [lia..|].
  eapply triple_bind; [by apply wf_find_conflict|]. intros conflict.
  destruct conflict.
  - change (keeps (at_least n k') no_dangling
      (modify (set_current_atom (Some a));;
       unsatisfiable_atom a "backtracking for blocker" false;;
       pop_stack i)).
    keeps_auto; [apply wf_unsatisfiable_atom|by apply wf_pop_stack].
  - eapply triple_bind.
    { eapply triple_weaken; [apply wf_cp_alloc|done|done|]. intros e r H. exact H. }
    intros ci. apply (wf_weaken _ n k' n (k' `max` S ci)); [lia..|].
    eapply triple_bind_modify with (Q := at_least n (k' `max` S ci)).
    { intros r ((Hat & Hpk & Hcs) & Hn & Hk). split; [|done].
      split; [|done]. simpl. apply map_Forall_insert_2; [simpl; lia|exact Hat]. }
    eapply triple_bind with (Q := λ _, at_least n (k' `max` S ci)).
    { destruct t; by intros r Hr. }
    intros t'. eapply triple_bind; [apply wf_ref_stack_for_atom|]. intros ?.
    eapply triple_bind; [apply wf_get_current_stack|]. intros [j stack]. cbn [fst].
    apply (wf_weaken _ n (k' `max` S ci) (n `max` S j) (k' `max` S ci)); [lia..|].
    apply wf_pop_stack. lia.
Qed.

Lemma at_least_result_mono {A} n k n' k' (res : resolver * (exn + A)) :
  n' ≤ n → k' ≤ k →
  match res with
  | (r', inl e) => at_least n k r' ∧ no_dangling e
  | (r', inr _) => at_least n k r'
  end →
  match res with
  | (r', inl e) => at_least n' k' r' ∧ no_dangling e
  | (r', inr _) => at_least n' k' r'
  end.
Proof.
  intros Hn Hk. destruct res as [r' [e|x]].
  - intros [H ?]. split; [|done]. by eapply at_least_mono.
  - by apply at_least_mono.
Qed.

(** What follows the scan of the dependencies in a pass. *)
Lemma wf_loop_pass_tail i a (t : option (list atom)) (missing : bool) n k :
  i < n →
  keeps (at_least n k) no_dangling
    (if missing then
       stack' ← stack_at i;
       m ← top_of stack';
       modify (set_current_atom (Some m));;
       if bool_decide (m ∈ removelast stack') then
         ret (t, Yielded (cycle_restriction m a))
       else if blocks a then
         blocker_case i a t;;
         assert_no_blocker;;
         ret (t, Continue)
       else ret (t, Yielded (RAtom m))
     else
       pop_stack i;;
       assert_no_blocker;;
       ret (t, Continue)).
Proof.
  intros Hi. destruct missing; keeps_auto;
    first [ by apply wf_stack_at | apply wf_top_of | by apply wf_blocker_case
          | apply wf_assert_no_blocker | by apply wf_pop_stack ].
Qed.

Lemma wf_loop_pass t k : keeps (at_least 0 k) no_dangling (loop_pass t).
Proof.
  unfold loop_pass. apply triple_bind_gets. intros ss.
  destruct ss as [|s0 ss']; [by intros r [Hr _]|].
  apply triple_bind_gets. intros cs. cbv zeta.
  apply triple_bind_assert; [by intros r [[Hr _] _]|]. intros _.
  set (i := length (s0 :: ss') - 1).
  intros r [[Hal Hss] Hcs]. rewrite bind_unfold. unfold stack_at at 1.
  rewrite bind_unfold. cbn [gets]. rewrite Hss.
  destruct ((s0 :: ss') !! i) as [stack|] eqn:Hi.
  2:{ apply lookup_ge_None in Hi. unfold i in Hi. simpl in Hi. lia. }
  assert (Hlen : i < length (search_stacks r)).
  { rewrite Hss. by eapply lookup_lt_Some. }
  assert (Hal' : at_least (length (search_stacks r)) k r).
  { destruct Hal as (Hok & _ & Hk). split; [done|]. split; [lia|done]. }
  cbn [ret raise]. destruct stack as [|x stack'].
  - (* the current stack is empty *)
    unfold grab_next_stack. msimpl. cbn [search_stacks set_search_stacks].
    destruct Hal as ((Hat & Hpk & _) & _ & Hk).
    destruct (removelast (search_stacks r)) as [|s1 ss1] eqn:Hrl.
    + split; [|split; [lia|done]]. split; [done|]. split; [done|]. done.
    + cbn [search_stacks set_search_stacks]. rewrite Hrl.
      split; [|split; [lia|done]]. split; [done|]. split; [done|].
      simpl. intros j [= <-]. rewrite Hrl. simpl. lia.
  - (* the current stack has a top *)
    rewrite bind_unfold. destruct (existsb blocks (x :: stack')) eqn:Hnb.
    { split; [exact Hal|done]. }
    cbn [negb assert_ ret]. rewrite bind_unfold. unfold top_of at 1.
    destruct (last (x :: stack')) as [a|] eqn:Hlast; [|by split].
    cbn [ret]. rewrite bind_unfold. cbn [gets].
    destruct (atoms r !! a) as [[ci refs]|] eqn:Ha.
    + rewrite bind_unfold.
      set (n' := length (search_stacks r)). set (k' := k `max` S ci).
      assert (Hal'' : at_least n' k' r).
      { destruct Hal' as ((Hat & Hpk & Hcs') & Hn & Hk).
        pose proof (Hat _ _ Ha) as Hci. simpl in Hci.
        split; [done|]. split; [done|]. unfold k'. lia. }
      assert (Hscan : keeps (at_least n' k') no_dangling
        (c ← cp_get ci;
         deps ← lift (cp_depends c);
         rdeps ← lift (cp_rdepends c);
         missing ← scan_depends i (x :: stack') (deps ++ rdeps);
         ret (Some (x :: stack'), missing))).
      { keeps_auto.
        - apply wf_cp_get. unfold k'. lia.
        - apply keeps_lift. by intros e ->%cp_depends_IndexError.
        - apply keeps_lift. by intros e ->%cp_rdepends_IndexError.
        - by apply wf_scan_depends. }
      specialize (Hscan r Hal'').
      lazymatch type of Hscan with
      | match ?mr with _ => _ end => destruct mr as [r1 [e|[t' missing]]]
      end.
      * destruct Hscan as [H ?]. split; [|done].
        eapply at_least_mono; [| |exact H]; unfold k'; lia.
      * refine (at_least_result_mono n' k' 0 k _ _ _
                  (wf_loop_pass_tail i a t' missing n' k' Hlen r1 Hscan));
          unfold k'; lia.
    + refine (at_least_result_mono _ k 0 k _ _ _
                (wf_loop_pass_tail i a t true _ k Hlen r Hal')); lia.
Qed.

Lemma wf_gen_step g k : keeps (at_least 0 k) no_dangling (gen_step g).
Proof.
  unfold gen_step. destruct (pc g); keeps_auto;
    first [ apply wf_loop_pass | apply wf_assert_no_blocker ].
Qed.

Lemma wf_gen_next fuel g (r : resolver) :
  store_ok r →
  store_ok (gen_next fuel g r).1.1 ∧ (gen_next fuel g r).2 ≠ Raised Dangling.
Proof.
  revert g r. induction fuel as [|fuel IH]; intros g r Hr; simpl; [done|].
  assert (Hal : at_least 0 0 r) by (split; [done|]; split; lia).
  pose proof (wf_gen_step g 0 r Hal) as Hs.
  destruct (gen_step g r) as [r' [e|[g' []]]]; simpl.
  - destruct Hs as [[H _] He]. split; [done|]. by destruct e.
  - apply IH. exact (proj1 Hs).
  - split; [exact (proj1 Hs)|done].
  - split; [exact (proj1 Hs)|done].
Qed.

Lemma store_ok_run_op (r : resolver) o : store_ok r → store_ok (run_op r o).
Proof.
  intros Hr. assert (Hal : at_least 0 0 r) by (split; [done|]; split; lia).
  destruct o as [a|fuel g|t|a matches|a msg permanent]; simpl.
  - pose proof (wf_add_root_atom a 0 0 r Hal) as H.
    destruct (add_root_atom a r) as [r' [e|x]]; simpl; [exact (proj1 (proj1 H))|exact (proj1 H)].
  - by apply wf_gen_next.
  - pose proof (wf_loop_pass t 0 r Hal) as H.
    destruct (loop_pass t r) as [r' [e|x]]; simpl; [exact (proj1 (proj1 H))|exact (proj1 H)].
  - pose proof (wf_satisfy_atom a matches 0 0 r Hal) as H.
    destruct (satisfy_atom a matches r) as [r' [e|x]]; simpl;
      [exact (proj1 (proj1 H))|exact (proj1 H)].
  - pose proof (wf_unsatisfiable_atom a msg permanent 0 0 r Hal) as H.
    destruct (unsatisfiable_atom a msg permanent r) as [r' [e|x]]; simpl;
      [exact (proj1 (proj1 H))|exact (proj1 H)].
Qed.

Lemma store_ok_run_ops ops : store_ok (run_ops init ops).
Proof.
  assert (H0 : store_ok init).
  { split; [apply map_Forall_empty|]. split; [apply map_Forall_empty|].
    simpl. intros i [= <-]. lia. }
  revert H0. generalize init.
  induction ops as [|o ops IH]; intros r Hr; simpl; [done|].
  apply IH. by apply store_ok_run_op.
Qed.

(** In a session that starts with a new resolver, no method of the
    interface leaves with [Dangling]: the references of the model always
    name an object, as those of Python do. *)
Lemma session_never_dangling (ops : list op) :
  let r := run_ops init ops in
  (∀ a, (add_root_atom a r).2 ≠ inl Dangling) ∧
  (∀ a matches, (satisfy_atom a matches r).2 ≠ inl Dangling) ∧
  (∀ a msg permanent, (unsatisfiable_atom a msg permanent r).2 ≠ inl Dangling) ∧
  (∀ fuel g, (gen_next fuel g r).2 ≠ Raised Dangling).
Proof.
  intros r. pose proof (store_ok_run_ops ops) as Hok. fold r in Hok.
  assert (Hal : at_least 0 0 r) by (split; [done|]; split; lia).
  split; [|split; [|split]].
  - intros a. pose proof (wf_add_root_atom a 0 0 r Hal) as H.
    destruct (add_root_atom a r) as [r' [e|x]]; simpl; [|done].
    destruct H as [_ He]. by intros [= ->].
  - intros a matches. pose proof (wf_satisfy_atom a matches 0 0 r Hal) as H.
    destruct (satisfy_atom a matches r) as [r' [e|x]]; simpl; [|done].
    destruct H as [_ He]. by intros [= ->].
  - intros a msg permanent.
    pose proof (wf_unsatisfiable_atom a msg permanent 0 0 r Hal) as H.
    destruct (unsatisfiable_atom a msg permanent r) as [r' [e|x]]; simpl; [|done].
    destruct H as [_ He]. by intros [= ->].
  - intros fuel g. by apply wf_gen_next.
Qed.

End StoreOk.

(** * Further properties of the resolver *)

(** ** Bookkeeping: how the two methods compose *)

Section BookkeepingMore.
Context `{D : Domain}.

Lemma resolver_eta (r : resolver) :
  {| search_stacks := search_stacks r; current_stack := current_stack r;
     current_atom := current_atom r; false_atoms := false_atoms r;
     atoms := atoms r; pkg_atoms := pkg_atoms r; cp_store := cp_store r |} = r.
Proof. by destruct r. Qed.

Lemma set_atoms_id (r : resolver) m : m = atoms r → set_atoms (λ _, m) r = r.
Proof. intros ->. apply resolver_eta. Qed.

Lemma filter_all_kept {A} (P : A → Prop) `{∀ x, Decision (P x)} (l : list A) :
  Forall P l → filter P l = l.
Proof.
  induction 1 as [|x l Hx Hl IH]; [done|].
  rewrite filter_cons_True by done. by rewrite IH.
Qed.

(** X10. Registering a stack and dereferencing it again is a round trip:
    when [atom] is tracked, has some referencing stack, and none of them
    starts with [stack], [ref_stack_for_atom(atom, stack)] followed by
    [deref_stack_for_atom(atom, stack)] returns normally and leaves the
    resolver exactly as it was. *)
Theorem ref_then_deref_restores (r : resolver) a stack c refs :
  atoms r !! a = Some (c, refs) →
  refs ≠ [] →
  (∀ x, x ∈ refs → ¬ stack `prefix_of` x) →
  (ref_stack_for_atom a stack ≫= λ _, deref_stack_for_atom a stack) r = (r, inr tt).
Proof.
  intros Ha Hne Hpre. rewrite bind_unfold.
  rewrite (ref_stack_for_atom_tracked r a stack c refs Ha).
  rewrite bool_decide_eq_false_2.
  2:{ intros Hin. apply (Hpre stack Hin). done. }
  set (r1 := set_atoms <[a := (c, refs ++ [stack])]> r).
  assert (Ha1 : atoms r1 !! a = Some (c, refs ++ [stack])) by apply lookup_insert_eq.
  rewrite (deref_stack_for_atom_tracked r1 a stack c _ Ha1).
  assert (Hf : filter (λ x, take (length stack) x ≠ stack) (refs ++ [stack]) = refs).
  { rewrite filter_app, filter_all_kept.
    - rewrite filter_cons_False, filter_nil; [by rewrite app_nil_r|].
      intros Hn. apply Hn. by rewrite firstn_all.
    - apply Forall_forall. intros x Hx Heq. apply (Hpre x Hx).
      by apply take_eq_prefix. }
  rewrite Hf. destruct refs as [|s0 refs0]; [done|].
  f_equal. unfold r1. destruct r as [ss cs ca fa at_ pa st].
  unfold set_atoms. simpl in *.
  f_equal. rewrite insert_insert_eq. by apply insert_id.
Qed.

(** X11. Dereferencing is idempotent: after [deref_stack_for_atom(atom,
    stack)] on a tracked atom, a second call with the same arguments changes
    nothing.  It returns normally when the first call left the entry, and
    raises [AssertionError] when the first call released the atom. *)
Theorem deref_stack_for_atom_twice (r : resolver) a stack c refs :
  atoms r !! a = Some (c, refs) →
  let r1 := (deref_stack_for_atom a stack r).1 in
  deref_stack_for_atom a stack r1 =
    (r1, match filter (λ x, take (length stack) x ≠ stack) refs with
         | [] => inl AssertionError
         | _ :: _ => inr tt
         end).
Proof.
  intros Ha r1. subst r1.
  rewrite (deref_stack_for_atom_tracked r a stack c refs Ha).
  destruct (filter _ refs) as [|s0 kept] eqn:Hf; cbn [fst].
  - apply deref_stack_for_atom_untracked. simpl. apply lookup_delete_eq.
  - set (r1 := set_atoms <[a := (c, s0 :: kept)]> r).
    assert (Ha1 : atoms r1 !! a = Some (c, s0 :: kept)) by apply lookup_insert_eq.
    rewrite (deref_stack_for_atom_tracked r1 a stack c _ Ha1).
    rewrite <- Hf. rewrite filter_all_kept.
    2:{ apply Forall_forall. intros x Hx. by apply list_elem_of_filter in Hx as [? _]. }
    rewrite Hf. f_equal. unfold r1. destruct r as [ss cs ca fa at_ pa st].
    unfold set_atoms. simpl.
    f_equal. by rewrite insert_insert_eq.
Qed.

End BookkeepingMore.

(** ** The protocol: errors, and what it leaves alone *)

Section ProtocolMore.
Context `{D : Domain}.

(** X2. A referencing stack of fewer than two atoms at the head of the
    queue ends the protocol with [IndexError]: [stack[-2]] is evaluated
    outside the [try].  The atom is already in [false_atoms] when
    [permenant] is set; nothing else has changed, no stack was rescheduled
    and [grab_next_stack] was not reached. *)
Theorem unsatisfiable_atom_short_stack (r : resolver) a msg (permenant : bool) c s refs :
  current_atom r = Some a →
  atoms r !! a = Some (c, s :: refs) →
  length s < 2 →
  unsatisfiable_atom a msg permenant r
    = (if permenant then add_false_atom a r else r, inl IndexError).
Proof.
  intros Hca Ha Hlen. unfold unsatisfiable_atom. rewrite !bind_unfold. cbn [gets].
  rewrite Hca, bool_decide_eq_true_2 by done. cbn [assert_ ret].
  assert (Hq : queue_weight (s :: refs) = S (length s + queue_weight refs)) by done.
  assert (Hp : ∀ bail r0, process_stack a msg bail s r0 = (r0, inl IndexError)).
  { intros bail r0. unfold process_stack.
    destruct s as [|x [|y s']]; [done|done|]. simpl in Hlen. lia. }
  destruct permenant; msimpl; cbn [atoms set_false_atoms]; rewrite Ha, Hq;
    cbn [drain]; change (mbind ?k ?m) with (bind m k); unfold bind;
    by rewrite Hp.
Qed.

(** X3. The two ways the protocol fails at once.  Called for an atom that
    is not the traversal's focus it raises [AssertionError] and changes
    nothing.  Called for the focus when that atom has no entry it raises
    [KeyError] at [self.atoms[atom]]; with [permenant] the atom has by then
    been added to [false_atoms], and nothing else has changed. *)
Theorem unsatisfiable_atom_errors (r : resolver) a msg (permenant : bool) :
  (current_atom r ≠ Some a →
   unsatisfiable_atom a msg permenant r = (r, inl AssertionError)) ∧
  (current_atom r = Some a → atoms r !! a = None →
   unsatisfiable_atom a msg permenant r
     = (if permenant then add_false_atom a r else r, inl KeyError)).
Proof.
  split.
  - intros Hca. unfold unsatisfiable_atom. rewrite !bind_unfold. cbn [gets].
    by rewrite bool_decide_eq_false_2.
  - intros Hca Ha. unfold unsatisfiable_atom. rewrite !bind_unfold. cbn [gets].
    rewrite Hca, bool_decide_eq_true_2 by done. cbn [assert_ ret].
    destruct permenant; msimpl; cbn [atoms set_false_atoms]; by rewrite Ha.
Qed.

(** The first half of the loop body returns whenever the parent is tracked
    and its choice point exists. *)
Lemma retract_choice_returns (r : resolver) parent top t ci refs :
  atoms r !! parent = Some (ci, refs) →
  is_Some (cp_store r !! ci) →
  ∃ was_complete,
    retract_choice parent top t r
      = ((retract_choice parent top t r).1, inr (ci, was_complete)).
Proof.
  intros Hparent [c Hc]. unfold retract_choice. rewrite !bind_unfold. cbn [gets].
  rewrite Hparent. rewrite !bind_unfold. unfold try_IndexError. rewrite !bind_unfold.
  assert (Hcomp : ∃ res, choice_point_is_complete ci r = (r, res) ∧
                         (res = inl IndexError ∨ ∃ b, res = inr b)).
  { unfold choice_point_is_complete, cp_get. msimpl. rewrite Hc.
    destruct (cp_depends c) as [e|deps] eqn:Hd.
    - apply cp_depends_IndexError in Hd as ->. eauto.
    - destruct (forallb _ deps); [|eauto].
      destruct (cp_rdepends c) as [e|rdeps] eqn:Hrd; [|eauto].
      apply cp_rdepends_IndexError in Hrd as ->. eauto. }
  destruct Hcomp as (res & -> & [-> | [b ->]]).
  - msimpl.
    pose proof (deref_released_ok r [top] t) as [Hok _].
    destruct (deref_released [top] t r) as [r2 res2]. simpl in Hok. subst res2.
    by exists false.
  - unfold cp_get. msimpl. rewrite Hc.
    destruct (cp_reduce_atoms c top) as [e|[c' [released provides]]] eqn:Hred.
    + apply cp_reduce_atoms_IndexError in Hred as ->.
      pose proof (deref_released_ok r [top] t) as [Hok _].
      destruct (deref_released [top] t r) as [r2 res2]. simpl in Hok. subst res2.
      by exists false.
    + pose proof (deref_released_ok (set_cp_store <[ci:=c']> r) released t) as [Hok _].
      destruct (deref_released released t (set_cp_store <[ci:=c']> r)) as [r2 res2].
      simpl in Hok. subst res2. by exists b.
Qed.

Lemma process_stack_two (r : resolver) a msg bail pre parent top ci was_complete :
  retract_choice parent top (pre ++ [parent]) r
    = ((retract_choice parent top (pre ++ [parent]) r).1, inr (ci, was_complete)) →
  process_stack a msg bail (pre ++ [parent; top]) r =
    (more ← reschedule ci was_complete (pre ++ [parent]); ret (bail, more))
      (retract_choice parent top (pre ++ [parent]) r).1.
Proof.
  intros Hret. unfold process_stack.
  assert (Ht : removelast (pre ++ [parent; top]) = pre ++ [parent]).
  { change [parent; top] with ([parent] ++ [top]).
    by rewrite app_assoc, removelast_last. }
  assert (Hrev : reverse (pre ++ [parent; top]) = top :: parent :: reverse pre).
  { by rewrite reverse_app. }
  assert (Hbail : match pre ++ [parent; top] with
                  | [] => Some (NoSolution a msg) | _ :: _ => bail end = bail).
  { by destruct pre. }
  rewrite Hrev, Hbail, Ht. rewrite bind_unfold, Hret. reflexivity.
Qed.

(** The first half of the body changes neither [search_stacks] nor
    [false_atoms], and reassigns neither [current_stack] nor
    [current_atom]. *)
Lemma retract_choice_stacks (r : resolver) parent top t :
  let r1 := (retract_choice parent top t r).1 in
  search_stacks r1 = search_stacks r ∧ current_stack r1 = current_stack r ∧
  current_atom r1 = current_atom r ∧ false_atoms r1 = false_atoms r.
Proof.
  assert (Hk : keeps
    (λ r', search_stacks r' = search_stacks r ∧ current_stack r' = current_stack r ∧
           current_atom r' = current_atom r ∧ false_atoms r' = false_atoms r)
    plain_exn (retract_choice parent top t))
    by (apply frame_retract_choice; intros; simpl in *; done).
  specialize (Hk r (conj eq_refl (conj eq_refl (conj eq_refl eq_refl)))).
  destruct (retract_choice parent top t r) as [r1 [e|x]]; simpl; tauto.
Qed.

(** X4. The cascade.  While a referencing stack [pre ++ [parent; top]] is
    processed: if the parent's choice point is empty once the reduction is
    made, the prefix [pre ++ [parent]] is put on the queue to be processed
    in its turn and [bail] is as before; [search_stacks] is as it was
    before the stack was processed (nothing is appended to it), and so are
    [current_stack], [current_atom] and [false_atoms]. *)
Theorem emptied_parent_enqueued (r : resolver) a msg bail pre parent top ci refs :
  let r1 := (retract_choice parent top (pre ++ [parent]) r).1 in
  let r2 := (process_stack a msg bail (pre ++ [parent; top]) r).1 in
  atoms r !! parent = Some (ci, refs) →
  is_Some (cp_store r !! ci) →
  (cp_nonzero <$> cp_store r1 !! ci) = Some false →
  process_stack a msg bail (pre ++ [parent; top]) r
    = (r1, inr (bail, [pre ++ [parent]])) ∧
  search_stacks r2 = search_stacks r ∧ current_stack r2 = current_stack r ∧
  current_atom r2 = current_atom r ∧ false_atoms r2 = false_atoms r.
Proof.
  intros r1 r2 Hparent Hci Hempty.
  assert (Hps : process_stack a msg bail (pre ++ [parent; top]) r
                = (r1, inr (bail, [pre ++ [parent]]))).
  { destruct (retract_choice_returns r parent top (pre ++ [parent]) ci refs Hparent Hci)
      as [wc Hret].
    rewrite (process_stack_two r a msg bail pre parent top ci wc Hret). fold r1.
    unfold reschedule, cp_get. msimpl.
    destruct (cp_store r1 !! ci) as [c1|]; [|done].
    simpl in Hempty. injection Hempty as ->. reflexivity. }
  split; [exact Hps|].
  unfold r2. rewrite Hps. cbn [fst].
  exact (retract_choice_stacks r parent top (pre ++ [parent])).
Qed.

(** X5. While a referencing stack [pre ++ [parent; top]] is processed: if
    the parent's choice point is complete once the reduction is made and the
    released atoms are dereferenced, nothing is rescheduled and nothing is
    put on the queue: [search_stacks] is as it was before the stack was
    processed, and so are [current_stack], [current_atom] and
    [false_atoms]; [bail] is as before. *)
Theorem complete_parent_left_alone (r : resolver) a msg bail pre parent top ci refs :
  let r1 := (retract_choice parent top (pre ++ [parent]) r).1 in
  let r2 := (process_stack a msg bail (pre ++ [parent; top]) r).1 in
  atoms r !! parent = Some (ci, refs) →
  is_Some (cp_store r !! ci) →
  (choice_point_is_complete ci r1).2 = inr true →
  process_stack a msg bail (pre ++ [parent; top]) r = (r1, inr (bail, [])) ∧
  search_stacks r2 = search_stacks r ∧ current_stack r2 = current_stack r ∧
  current_atom r2 = current_atom r ∧ false_atoms r2 = false_atoms r.
Proof.
  intros r1 r2 Hparent Hci Hnow.
  assert (Hps : process_stack a msg bail (pre ++ [parent; top]) r
                = (r1, inr (bail, []))).
  { destruct (retract_choice_returns r parent top (pre ++ [parent]) ci refs Hparent Hci)
      as [wc Hret].
    rewrite (process_stack_two r a msg bail pre parent top ci wc Hret). fold r1.
    destruct (choice_point_is_complete_nonzero r1 ci true Hnow) as [c1 [Hc1 Hnz1]].
    pose proof (choice_point_is_complete_pure r1 ci) as Hpure1.
    unfold reschedule. rewrite !bind_unfold. unfold cp_get. msimpl. rewrite Hc1, Hnz1.
    cbn [negb]. destruct wc; [|reflexivity].
    destruct (choice_point_is_complete ci r1) as [r0 res] eqn:Hcomp.
    simpl in Hnow, Hpure1. subst r0 res. reflexivity. }
  split; [exact Hps|].
  unfold r2. rewrite Hps. cbn [fst].
  exact (retract_choice_stacks r parent top (pre ++ [parent])).
Qed.

End ProtocolMore.

Section ProtocolStacks.
Context `{D : Domain}.

Ltac frame_same := intros; simpl in *; done.

Lemma prefix_reschedule ss0 ci was_complete t :
  keeps (λ r, ss0 `prefix_of` search_stacks r) plain_exn (reschedule ci was_complete t).
Proof.
  unfold reschedule. keeps_auto.
  - apply frame_cp_get.
  - apply frame_choice_point_is_complete.
  - intros r Hr. simpl. by apply prefix_app_r.
Qed.

Lemma prefix_process_stack ss0 a msg bail stack :
  keeps (λ r, ss0 `prefix_of` search_stacks r) plain_exn (process_stack a msg bail stack).
Proof.
  unfold process_stack.
  destruct (reverse stack) as [|top [|parent rest]]; keeps_auto.
  - apply frame_retract_choice; frame_same.
  - apply prefix_reschedule.
Qed.

Lemma prefix_drain ss0 fuel a msg bail q :
  triple (λ r, ss0 `prefix_of` search_stacks r) (drain fuel a msg bail q)
    (λ _ r, ss0 `prefix_of` search_stacks r) (λ _ r, ss0 `prefix_of` search_stacks r).
Proof.
  revert bail q. induction fuel as [|fuel IH]; intros bail q;
    destruct q as [|stack rest]; simpl; try (by intros r Hr).
  eapply triple_bind; [apply (keeps_any_triple _ plain_exn), prefix_process_stack|].
  intros [bail' more]. apply IH.
Qed.

(** X6. The protocol leaves the search stacks it finds as they are: what it
    schedules is appended after them, and the traversal's focus is not
    reassigned.  When it returns, [current_stack] is the last search
    stack. *)
Theorem unsatisfiable_atom_appends_stacks (r : resolver) a msg permenant :
  let r' := (unsatisfiable_atom a msg permenant r).1 in
  search_stacks r `prefix_of` search_stacks r' ∧
  current_atom r' = current_atom r ∧
  ((unsatisfiable_atom a msg permenant r).2 = inr tt →
   current_stack r' = Some (length (search_stacks r') - 1)).
Proof.
  intros r'. subst r'.
  assert (Hca : keeps (λ r', current_atom r' = current_atom r) plain_exn
                  (unsatisfiable_atom a msg permenant))
    by (apply frame_unsatisfiable_atom; frame_same).
  specialize (Hca r eq_refl).
  assert (Hst : triple (λ r', search_stacks r `prefix_of` search_stacks r')
            (unsatisfiable_atom a msg permenant)
            (λ _ r', search_stacks r `prefix_of` search_stacks r'
                     ∧ current_stack r' = Some (length (search_stacks r') - 1))
            (λ _ r', search_stacks r `prefix_of` search_stacks r')).
  { unfold unsatisfiable_atom.
    apply triple_bind_gets. intros ca.
    apply triple_bind_assert; [tauto|]. intros _.
    eapply triple_bind with (Q := λ _ r', search_stacks r `prefix_of` search_stacks r').
    { destruct permenant; intros r0 [Hr0 _]; msimpl; exact Hr0. }
    intros _. apply triple_bind_gets. intros [[c refs]|]; [|by intros r0 [Hr0 _]].
    eapply triple_bind; [eapply triple_pre; [apply prefix_drain|tauto]|].
    intros bail r0 Hr0. unfold grab_next_stack. msimpl.
    destruct (search_stacks r0) as [|s0 ss0] eqn:Hss; [by rewrite Hss|].
    destruct bail; msimpl; cbn [search_stacks current_stack set_current_stack];
      rewrite Hss; done. }
  assert (H0 : search_stacks r `prefix_of` search_stacks r) by (by exists []; rewrite app_nil_r).
  specialize (Hst r H0).
  destruct (unsatisfiable_atom a msg permenant r) as [r' [e|[]]]; simpl in *.
  - split; [exact Hst|]. split; [tauto|done].
  - split; [tauto|]. split; [tauto|]. intros _. tauto.
Qed.

(** What the protocol does to [false_atoms]. *)
Lemma false_atoms_unsatisfiable_atom_false (F : gset atom) a msg :
  keeps (λ r, false_atoms r = F) plain_exn (unsatisfiable_atom a msg false).
Proof.
  unfold unsatisfiable_atom.
  apply keeps_bind; [keeps_auto|intros ca].
  apply keeps_bind; [keeps_auto|intros _].
  apply keeps_bind; [keeps_auto|intros _].
  apply keeps_bind; [keeps_auto|intros e].
  destruct e as [[c refs]|]; [|keeps_auto].
  eapply triple_bind.
  { apply (frame_drain (λ r, false_atoms r = F)); [frame_same..|lia]. }
  intros b. apply triple_pure_pre. intros ->.
  lazymatch goal with
  | |- triple _ ?m _ _ => change (keeps (λ r, false_atoms r = F) plain_exn m)
  end.
  keeps_auto. apply frame_grab_next_stack; frame_same.
Qed.

Lemma false_atoms_unsatisfiable_atom (r : resolver) a msg (permenant : bool) :
  false_atoms (unsatisfiable_atom a msg permenant r).1 = false_atoms r ∨
  (permenant = true ∧
   false_atoms (unsatisfiable_atom a msg permenant r).1 = false_atoms r ∪ {[a]}).
Proof.
  destruct permenant.
  - destruct (decide (current_atom r = Some a)) as [Hca|Hca].
    + right. split; [done|]. rewrite (unsatisfiable_atom_permanent r a msg Hca).
      pose proof (false_atoms_unsatisfiable_atom_false (false_atoms r ∪ {[a]}) a msg
                    (set_false_atoms (λ s, s ∪ {[a]}) r) eq_refl) as H.
      destruct (unsatisfiable_atom a msg false _) as [r' [e|x]]; simpl; tauto.
    + left. unfold unsatisfiable_atom. rewrite !bind_unfold. cbn [gets].
      by rewrite bool_decide_eq_false_2.
  - left.
    pose proof (false_atoms_unsatisfiable_atom_false (false_atoms r) a msg r eq_refl) as H.
    destruct (unsatisfiable_atom a msg false r) as [r' [e|x]]; simpl; tauto.
Qed.

Lemma false_atoms_pop_stack (F : gset atom) i :
  keeps (λ r, false_atoms r = F) plain_exn (pop_stack i).
Proof. apply frame_pop_stack; frame_same. Qed.

Lemma false_atoms_loop_pass (F : gset atom) t :
  keeps (λ r, false_atoms r = F) plain_exn (loop_pass t).
Proof.
  pose proof (false_atoms_unsatisfiable_atom_false F) as Hunsat.
  pose proof (false_atoms_pop_stack F) as Hpop.
  assert (Href : ∀ a s, keeps (λ r, false_atoms r = F) plain_exn (ref_stack_for_atom a s))
    by (intros; apply frame_ref_stack_for_atom; frame_same).
  assert (Hgcs : keeps (λ r, false_atoms r = F) plain_exn get_current_stack)
    by apply frame_get_current_stack.
  assert (Hsa : ∀ i, keeps (λ r, false_atoms r = F) plain_exn (stack_at i))
    by (intros; apply frame_stack_at).
  assert (Htop : ∀ s, keeps (λ r, false_atoms r = F) plain_exn (top_of s))
    by (intros; apply frame_top_of).
  assert (Hget : ∀ i, keeps (λ r, false_atoms r = F) plain_exn (cp_get i))
    by (intros; apply frame_cp_get).
  assert (Halloc : ∀ c, keeps (λ r, false_atoms r = F) plain_exn (cp_alloc c))
    by (intros; apply frame_cp_alloc; frame_same).
  assert (Hgrab : keeps (λ r, false_atoms r = F) plain_exn grab_next_stack)
    by (apply frame_grab_next_stack; frame_same).
  assert (Hanb : keeps (λ r, false_atoms r = F) plain_exn assert_no_blocker)
    by apply frame_assert_no_blocker.
  assert (Hscan : ∀ i t xs, keeps (λ r, false_atoms r = F) plain_exn (scan_depends i t xs))
    by (intros; apply frame_scan_depends; frame_same).
  assert (Hfind : ∀ a xs, keeps (λ r, false_atoms r = F) plain_exn (find_conflict a xs))
    by (intros; apply frame_find_conflict).
  assert (Hblock : ∀ i a t, keeps (λ r, false_atoms r = F) plain_exn (blocker_case i a t)).
  { intros. unfold blocker_case. keeps_auto; frame_same. }
  unfold loop_pass. keeps_auto; try frame_same.
  - apply keeps_lift, cp_depends_error.
  - apply keeps_lift, cp_rdepends_error.
Qed.

(** X7. How atoms enter [false_atoms].  [add_root_atom] and the traversal
    never change the set; the protocol without [permenant] never changes
    it; the protocol with [permenant] and [satisfy_atom] add at most the
    atom they are called with; and [satisfy_atom] adds nothing unless it
    runs the protocol. *)
Theorem false_atoms_only_by_failure :
  (∀ (r : resolver) a, false_atoms (add_root_atom a r).1 = false_atoms r) ∧
  (∀ (r : resolver) fuel g, false_atoms (gen_next fuel g r).1.1 = false_atoms r) ∧
  (∀ (r : resolver) a msg,
     false_atoms (unsatisfiable_atom a msg false r).1 = false_atoms r) ∧
  (∀ (r : resolver) a msg,
     false_atoms (unsatisfiable_atom a msg true r).1 ⊆ false_atoms r ∪ {[a]}) ∧
  (∀ (r : resolver) a matches,
     false_atoms (satisfy_atom a matches r).1 ⊆ false_atoms r ∪ {[a]}).
Proof.
  split; [|split; [|split; [|split]]].
  - intros r a.
    pose proof (frame_add_root_atom (λ r', false_atoms r' = false_atoms r)) as H.
    specialize (H ltac:(frame_same) ltac:(frame_same) ltac:(frame_same) a r eq_refl).
    destruct (add_root_atom a r) as [r' [e|x]]; simpl; tauto.
  - intros r fuel. revert r. induction fuel as [|fuel IH]; intros r g; simpl; [done|].
    assert (Hs : keeps (λ r', false_atoms r' = false_atoms r) plain_exn (gen_step g)).
    { unfold gen_step. destruct (pc g); keeps_auto.
      - apply false_atoms_loop_pass.
      - apply frame_assert_no_blocker. }
    specialize (Hs r eq_refl).
    destruct (gen_step g r) as [r' [e|[g' []]]]; simpl; try tauto.
    rewrite IH. exact Hs.
  - intros r a msg.
    pose proof (false_atoms_unsatisfiable_atom_false (false_atoms r) a msg r eq_refl) as H.
    destruct (unsatisfiable_atom a msg false r) as [r' [e|x]]; simpl; tauto.
  - intros r a msg.
    destruct (false_atoms_unsatisfiable_atom r a msg true) as [-> | [_ ->]]; set_solver.
  - intros r a matches.
    assert (H : triple (λ r', false_atoms r' = false_atoms r) (satisfy_atom a matches)
                  (λ _ r', false_atoms r' ⊆ false_atoms r ∪ {[a]})
                  (λ _ r', false_atoms r' ⊆ false_atoms r ∪ {[a]})).
    { unfold satisfy_atom.
      assert (Hsub : ∀ r', false_atoms r' = false_atoms r →
                           false_atoms r' ⊆ false_atoms r ∪ {[a]}).
      { intros r' ->. apply union_subseteq_l. }
      eapply triple_bind_keeps; [apply frame_get_current_stack|by auto|].
      intros [i stack].
      eapply triple_bind_keeps; [apply frame_top_of|by auto|]. intros top.
      eapply triple_bind_keeps;
        [apply (keeps_assert _ plain_exn); exact I|by auto|]. intros _.
      eapply triple_bind_keeps; [apply frame_cp_alloc; frame_same|by auto|]. intros ci.
      eapply triple_bind_modify with (Q := λ r', false_atoms r' = false_atoms r); [done|].
      eapply triple_bind_modify with (Q := λ r', false_atoms r' = false_atoms r); [done|].
      eapply triple_bind_keeps;
        [apply frame_ref_stack_for_atom; frame_same|by auto|]. intros _.
      eapply triple_bind_keeps; [apply frame_cp_get|by auto|]. intros c.
      destruct (negb (cp_nonzero c)); [|by intros r' Hr'; apply Hsub].
      eapply triple_bind with (Q := λ _ r', false_atoms r' ⊆ false_atoms r ∪ {[a]}).
      { intros r0 Hr0.
        pose proof (false_atoms_unsatisfiable_atom r0 a "None supplied" true) as Hfa.
        destruct (unsatisfiable_atom a "None supplied" true r0) as [r' [e|x]];
          simpl in Hfa |- *; rewrite <- Hr0;
          destruct Hfa as [Hfa | [_ Hfa]]; rewrite Hfa;
          first [apply union_subseteq_l | reflexivity]. }
      intros _. apply triple_bind_gets. intros cs.
      destruct (bool_decide (cs = Some i)); [|by intros r' [Hr' _]].
      eapply triple_pre with (P' := λ r', false_atoms r' ⊆ false_atoms r ∪ {[a]});
        [|tauto].
      apply keeps_any_triple with (X := plain_exn).
      apply frame_pop_stack; frame_same. }
    specialize (H r eq_refl).
    destruct (satisfy_atom a matches r) as [r' [e|x]]; simpl; tauto.
Qed.

End ProtocolStacks.

(** ** [satisfy_atom] *)

Section SatisfyMore.
Context `{D : Domain}.

(** [satisfy_atom], once its assertion has passed: the entry is installed,
    and the protocol runs if the choice point is empty. *)
Lemma satisfy_atom_unfold (r : resolver) a matches i stack :
  current_stack r = Some i →
  search_stacks r !! i = Some stack →
  last stack = Some a →
  satisfy_atom a matches r =
    match matches with
    | [] =>
        (unsatisfiable_atom a "None supplied" true ≫= λ _,
         cs ← gets current_stack;
         if bool_decide (cs = Some i) then pop_stack i else ret tt)
          (install_entry a matches stack r)
    | _ :: _ => (install_entry a matches stack r, inr tt)
    end.
Proof.
  intros Hcs Hstack Hlast.
  set (ci := length (cp_store r)).
  set (r1 := set_pkg_atoms (λ m, <[key a := default [] (m !! key a) ++ [ci]]> m)
               (set_atoms <[a := (ci, [])]>
                  (set_cp_store (λ s, s ++ [new_choice_point a matches]) r))).
  assert (Hr2 : set_atoms <[a := (ci, [] ++ [stack])]> r1 = install_entry a matches stack r).
  { unfold r1, install_entry, set_atoms, set_pkg_atoms, set_cp_store. simpl.
    f_equal. fold ci. by rewrite insert_insert_eq. }
  unfold satisfy_atom at 1. rewrite bind_unfold.
  unfold get_current_stack, stack_at. msimpl. rewrite Hcs, Hstack.
  unfold top_of. rewrite Hlast. msimpl.
  rewrite bool_decide_eq_true_2 by done.
  unfold cp_alloc. msimpl. fold ci. fold r1.
  rewrite (ref_stack_for_atom_tracked r1 a stack ci []) by apply lookup_insert_eq.
  rewrite bool_decide_eq_false_2 by (by intros ?%elem_of_nil).
  rewrite Hr2. unfold cp_get. msimpl.
  assert (Hci : cp_store (install_entry a matches stack r) !! ci
                = Some (new_choice_point a matches)).
  { simpl. rewrite lookup_app_r by (unfold ci; lia).
    unfold ci. by rewrite Nat.sub_diag. }
  rewrite Hci. by destruct matches.
Qed.

(** X8. [satisfy_atom(atom, matches)] with at least one match, called with
    [atom] on top of the current stack, returns normally and only installs
    the entry: a new choice point over the matches is the entry of [atom]
    (any earlier entry and its referencing stacks are replaced), it is
    appended to [pkg_atoms] under the atom's key, and the current stack is
    the atom's one referencing stack.  The stacks, the focus and
    [false_atoms] are as before, and [atom] stays on top of its stack. *)
Theorem satisfy_atom_installs (r : resolver) a p ps i stack :
  current_stack r = Some i →
  search_stacks r !! i = Some stack →
  last stack = Some a →
  satisfy_atom a (p :: ps) r = (install_entry a (p :: ps) stack r, inr tt) ∧
  atoms (satisfy_atom a (p :: ps) r).1 !! a = Some (length (cp_store r), [stack]) ∧
  cp_store (satisfy_atom a (p :: ps) r).1 !! length (cp_store r)
    = Some (new_choice_point a (p :: ps)) ∧
  search_stacks (satisfy_atom a (p :: ps) r).1 = search_stacks r ∧
  false_atoms (satisfy_atom a (p :: ps) r).1 = false_atoms r.
Proof.
  intros Hcs Hstack Hlast.
  rewrite (satisfy_atom_unfold r a (p :: ps) i stack Hcs Hstack Hlast).
  split; [done|]. split; [apply lookup_insert_eq|]. split; [|done].
  simpl. rewrite lookup_app_r by lia. by rewrite Nat.sub_diag.
Qed.

(** X9. [satisfy_atom] called out of turn changes nothing: without a current
    stack it raises [TypeError], on an empty current stack [IndexError], and
    for an atom that is not the top of the current stack
    [AssertionError]. *)
Theorem satisfy_atom_out_of_turn (r : resolver) a matches :
  (current_stack r = None → satisfy_atom a matches r = (r, inl TypeError)) ∧
  (∀ i, current_stack r = Some i → search_stacks r !! i = Some [] →
        satisfy_atom a matches r = (r, inl IndexError)) ∧
  (∀ i stack b, current_stack r = Some i → search_stacks r !! i = Some stack →
                last stack = Some b → a ≠ b →
                satisfy_atom a matches r = (r, inl AssertionError)).
Proof.
  split; [|split].
  - intros Hcs. unfold satisfy_atom, get_current_stack. msimpl. by rewrite Hcs.
  - intros i Hcs Hstack. unfold satisfy_atom, get_current_stack, stack_at. msimpl.
    by rewrite Hcs, Hstack.
  - intros i stack b Hcs Hstack Hlast Hne.
    unfold satisfy_atom, get_current_stack, stack_at. msimpl.
    rewrite Hcs, Hstack. unfold top_of. rewrite Hlast. msimpl.
    by rewrite bool_decide_eq_false_2.
Qed.

(** The same failure on a short stack, for use below. *)
Lemma unsatisfiable_atom_short_stack_eq (r : resolver) a msg (permenant : bool) c s refs :
  current_atom r = Some a →
  atoms r !! a = Some (c, s :: refs) →
  length s < 2 →
  unsatisfiable_atom a msg permenant r
    = (if permenant then add_false_atom a r else r, inl IndexError).
Proof.
  intros Hca Ha Hlen. unfold unsatisfiable_atom. rewrite !bind_unfold. cbn [gets].
  rewrite Hca, bool_decide_eq_true_2 by done. cbn [assert_ ret].
  assert (Hq : queue_weight (s :: refs) = S (length s + queue_weight refs)) by done.
  assert (Hp : ∀ bail r0, process_stack a msg bail s r0 = (r0, inl IndexError)).
  { intros bail r0. unfold process_stack.
    destruct s as [|x [|y s']]; [done|done|]. simpl in Hlen. lia. }
  destruct permenant; msimpl; cbn [atoms set_false_atoms]; rewrite Ha, Hq;
    cbn [drain]; change (mbind ?k ?m) with (bind m k); unfold bind;
    by rewrite Hp.
Qed.

(** X12. A root without candidates.  When the current stack is [[atom]] and
    [atom] is the focus, [satisfy_atom(atom, [])] raises [IndexError]: the
    entry is installed, [atom] is added to [false_atoms], and the protocol
    fails on the referencing stack [(atom,)].  [atom] is still on its
    stack. *)
Theorem root_without_candidates (r : resolver) a i :
  current_stack r = Some i →
  search_stacks r !! i = Some [a] →
  current_atom r = Some a →
  satisfy_atom a [] r = (add_false_atom a (install_entry a [] [a] r), inl IndexError) ∧
  search_stacks (satisfy_atom a [] r).1 = search_stacks r ∧
  a ∈ false_atoms (satisfy_atom a [] r).1.
Proof.
  intros Hcs Hstack Hca.
  rewrite (satisfy_atom_unfold r a [] i [a] Hcs Hstack eq_refl), bind_unfold.
  rewrite (unsatisfiable_atom_short_stack_eq (install_entry a [] [a] r) a
             "None supplied" true (length (cp_store r)) [a] []);
    [|exact Hca|apply lookup_insert_eq|simpl; lia].
  split; [done|]. split; [done|]. simpl. set_solver.
Qed.

End SatisfyMore.

(** ** The traversal, pass by pass *)

Section TraversalMore.
Context `{D : Domain}.

(** Registering changes the referencing stacks and nothing else. *)
Lemma ref_stack_for_atom_effect (r : resolver) x t :
  let r' := (ref_stack_for_atom x t r).1 in
  search_stacks r' = search_stacks r ∧ current_stack r' = current_stack r ∧
  current_atom r' = current_atom r ∧ false_atoms r' = false_atoms r ∧
  pkg_atoms r' = pkg_atoms r ∧ cp_store r' = cp_store r ∧
  (∀ y c refs, atoms r !! y = Some (c, refs) →
     ∃ refs', atoms r' !! y = Some (c, refs') ∧ (∀ s, s ∈ refs → s ∈ refs') ∧
              (y = x → t ∈ refs')) ∧
  (∀ y, atoms r !! y = None → atoms r' !! y = None).
Proof.
  intros r'. subst r'. destruct (atoms r !! x) as [[c refs]|] eqn:Hx.
  - rewrite (ref_stack_for_atom_tracked r x t c refs Hx).
    case_bool_decide as Hin; simpl.
    + repeat split; try done. intros y c' refs' Hy. exists refs'.
      split; [done|]. split; [done|]. intros ->. congruence.
    + repeat split; try done.
      * intros y c' refs' Hy. destruct (decide (y = x)) as [->|Hne].
        -- rewrite Hx in Hy. injection Hy as <- <-. exists (refs ++ [t]).
           rewrite lookup_insert_eq. split; [done|]. split; set_solver.
        -- exists refs'. rewrite lookup_insert_ne by done. split; [done|]. by split.
      * intros y Hy. rewrite lookup_insert_ne; [done|]. intros ->. congruence.
  - rewrite (ref_stack_for_atom_untracked r x t Hx). simpl.
    repeat split; try done. intros y c refs Hy. exists refs.
    split; [done|]. split; [done|]. intros ->. congruence.
Qed.

Lemma ref_all_effect (r : resolver) xs t :
  let r' := ref_all t xs r in
  search_stacks r' = search_stacks r ∧ current_stack r' = current_stack r ∧
  current_atom r' = current_atom r ∧ false_atoms r' = false_atoms r ∧
  pkg_atoms r' = pkg_atoms r ∧ cp_store r' = cp_store r ∧
  (∀ y c refs, atoms r !! y = Some (c, refs) →
     ∃ refs', atoms r' !! y = Some (c, refs') ∧ (∀ s, s ∈ refs → s ∈ refs') ∧
              (y ∈ xs → t ∈ refs')) ∧
  (∀ y, atoms r !! y = None → atoms r' !! y = None).
Proof.
  revert r. induction xs as [|x xs IH]; intros r; simpl.
  { repeat split; try done. intros y c refs Hy. exists refs.
    split; [done|]. split; [done|]. by intros ?%elem_of_nil. }
  destruct (ref_stack_for_atom_effect r x t)
    as (H1 & H2 & H3 & H4 & H5 & H6 & H7 & H8).
  destruct (IH (ref_stack_for_atom x t r).1)
    as (I1 & I2 & I3 & I4 & I5 & I6 & I7 & I8).
  unfold ref_all in *. simpl.
  split; [congruence|]. split; [congruence|]. split; [congruence|].
  split; [congruence|]. split; [congruence|]. split; [congruence|]. split.
  - intros y c refs Hy. destruct (H7 y c refs Hy) as (refs1 & Hy1 & Hsub1 & Ht1).
    destruct (I7 y c refs1 Hy1) as (refs2 & Hy2 & Hsub2 & Ht2).
    exists refs2. split; [done|]. split; [by auto|].
    intros [->|Hin]%elem_of_cons; [|by auto]. apply Hsub2. by apply Ht1.
  - intros y Hy. by apply I8, H8.
Qed.

(** The scan goes through the tracked dependencies, registering the stack
    for each. *)
Lemma scan_depends_tracked (r : resolver) i t xs rest :
  Forall (λ y, is_Some (atoms r !! y)) xs →
  scan_depends i t (xs ++ rest) r = scan_depends i t rest (ref_all t xs r).
Proof.
  revert r. induction xs as [|x xs IH]; intros r Hall; [done|].
  apply Forall_cons in Hall as [[[c refs] Hx] Hall].
  cbn [app scan_depends]. rewrite bind_unfold. cbn [gets]. unfold tracked_in.
  rewrite bool_decide_eq_true_2 by (by rewrite Hx).
  rewrite bind_unfold.
  assert (Hret : (ref_stack_for_atom x t r).2 = inr tt).
  { rewrite (ref_stack_for_atom_tracked r x t c refs Hx). by case_bool_decide. }
  destruct (ref_stack_for_atom x t r) as [r1 res] eqn:Href. simpl in Hret. subst res.
  change (ref_all t (x :: xs) r) with (ref_all t xs (ref_stack_for_atom x t r).1).
  rewrite Href. apply IH.
  eapply Forall_impl; [exact Hall|]. intros y [[c' refs'] Hy].
  pose proof (ref_stack_for_atom_effect r x t) as (_ & _ & _ & _ & _ & _ & H7 & _).
  rewrite Href in H7. destruct (H7 y c' refs' Hy) as (refs1 & Hy1 & _). by rewrite Hy1.
Qed.

(** A pass over a current stack that has a top and no blocker, up to the
    scan of the dependencies. *)
Lemma loop_pass_at_top (r : resolver) t ss stack a :
  search_stacks r = ss ++ [stack] →
  current_stack r = Some (length ss) →
  existsb blocks stack = false →
  last stack = Some a →
  loop_pass t r =
    ('(t, missing_atoms) ←
       match atoms r !! a with
       | None => ret (t, true)
       | Some (ci, _) =>
           c ← cp_get ci;
           deps ← lift (cp_depends c);
           rdeps ← lift (cp_rdepends c);
           missing ← scan_depends (length ss) stack (deps ++ rdeps);
           ret (Some stack, missing)
       end;
     if (missing_atoms : bool) then
       stack' ← stack_at (length ss);
       m ← top_of stack';
       modify (set_current_atom (Some m));;
       if bool_decide (m ∈ removelast stack') then
         ret (t, Yielded (cycle_restriction m a))
       else if blocks a then
         blocker_case (length ss) a t;;
         assert_no_blocker;;
         ret (t, Continue)
       else ret (t, Yielded (RAtom m))
     else
       pop_stack (length ss);;
       assert_no_blocker;;
       ret (t, Continue)) r.
Proof.
  intros Hss Hcs Hnb Hlast.
  destruct (last_app_singleton_length ss stack) as [Hlen Hlook].
  unfold loop_pass. rewrite bind_unfold. cbn [gets].
  rewrite Hss. destruct (ss ++ [stack]) as [|s0 ss0] eqn:Happ.
  { by destruct ss. }
  rewrite Hlen. rewrite bind_unfold. cbn [gets]. rewrite Hcs.
  rewrite bool_decide_eq_true_2 by done.
  cbn [assert_]. rewrite bind_unfold. cbn [ret].
  rewrite bind_unfold. unfold stack_at at 1. rewrite bind_unfold. cbn [gets].
  rewrite Hss, Hlook. cbn [ret].
  destruct stack as [|x stack'] eqn:Hstack; [done|].
  rewrite bind_unfold, Hnb. cbn [negb assert_ ret].
  rewrite bind_unfold. unfold top_of at 1. rewrite Hlast. cbn [ret].
  rewrite bind_unfold. cbn [gets]. reflexivity.
Qed.

Lemma existsb_removelast {A} (f : A → bool) (l : list A) :
  existsb f l = false → existsb f (removelast l) = false.
Proof.
  induction l as [|x [|y l] IH]; [done|done|].
  intros [Hx Hl]%orb_false_iff. change (existsb f (x :: removelast (y :: l)) = false).
  simpl existsb at 1. rewrite Hx. by apply IH.
Qed.

Lemma insert_last_stack (ss : list (list atom)) (stack stack' : list atom) :
  <[length ss := stack']> (ss ++ [stack]) = ss ++ [stack'].
Proof. rewrite insert_app_r_alt by lia. by rewrite Nat.sub_diag. Qed.

(** X13. Descent.  The top atom [a] of the current stack is tracked, and
    the dependencies of its current package, [depends] then [rdepends], are
    tracked up to [x], which is not.  Then the pass registers the current
    stack as a referencing stack of each dependency before [x], pushes [x]
    on the current stack, makes it the focus and yields it; when [x] is
    already on the stack it yields instead the restriction that asks for a
    package of [x] whose [depends] and [rdepends] do not contain [a]. *)
Theorem traversal_descends (r : resolver) t ss stack a ci refs c p tracked x rest fuel :
  search_stacks r = ss ++ [stack] →
  current_stack r = Some (length ss) →
  existsb blocks stack = false →
  last stack = Some a →
  atoms r !! a = Some (ci, refs) →
  cp_store r !! ci = Some c →
  cp_current_pkg c = inr p →
  pkg_depends p ++ pkg_rdepends p = tracked ++ x :: rest →
  Forall (λ y, is_Some (atoms r !! y)) tracked →
  atoms r !! x = None →
  gen_next (S fuel) {| pc := AtLoop; local_t := t |} r =
    (set_search_stacks (λ _, ss ++ [stack ++ [x]])
       (set_current_atom (Some x) (ref_all stack tracked r)),
     {| pc := AfterYield; local_t := Some stack |},
     Yield (if bool_decide (x ∈ stack) then cycle_restriction x a else RAtom x)) ∧
  (∀ y, y ∈ tracked →
     ∃ refs', atoms (ref_all stack tracked r) !! y = Some (refs'.1, refs'.2)
              ∧ stack ∈ refs'.2).
Proof.
  intros Hss Hcs Hnb Hlast Ha Hc Hp Hdeps Hall Hx.
  pose proof (existsb_blocks_last _ a Hnb Hlast) as Hba.
  destruct (ref_all_effect r tracked stack)
    as (E1 & E2 & E3 & E4 & E5 & E6 & E7 & E8).
  set (r0 := ref_all stack tracked r) in *.
  destruct (last_app_singleton_length ss stack) as [Hlen Hlook].
  split.
  - assert (Hpass : loop_pass t r =
      (set_search_stacks (λ _, ss ++ [stack ++ [x]]) (set_current_atom (Some x) r0),
       inr (Some stack,
            Yielded (if bool_decide (x ∈ stack) then cycle_restriction x a
                     else RAtom x)))).
    { rewrite (loop_pass_at_top r t ss stack a Hss Hcs Hnb Hlast).
      rewrite Ha. rewrite !bind_unfold. unfold cp_get at 1. rewrite bind_unfold.
      cbn [gets]. rewrite Hc. cbn [ret].
      unfold cp_depends, cp_rdepends. rewrite Hp.
      do 2 (rewrite bind_unfold; cbn [lift]). rewrite bind_unfold.
      rewrite Hdeps, (scan_depends_tracked r (length ss) stack tracked (x :: rest) Hall).
      fold r0. cbn [scan_depends]. rewrite bind_unfold. cbn [gets]. unfold tracked_in.
      rewrite bool_decide_eq_false_2 by (rewrite (E8 x Hx); by intros [? ?]).
      unfold push_stack, stack_at. msimpl.
      cbn [search_stacks set_current_atom set_search_stacks].
      rewrite E1, Hss, Hlook. cbn [search_stacks set_search_stacks set_current_atom].
      rewrite E1, Hss, insert_last_stack.
      rewrite (proj2 (last_app_singleton_length ss (stack ++ [x]))). unfold top_of.
      rewrite last_snoc. rewrite removelast_last, Hba.
      assert (Hst : set_current_atom (Some x)
                      (set_search_stacks (λ _, ss ++ [stack ++ [x]])
                         (set_current_atom (Some x) r0))
                    = set_search_stacks (λ _, ss ++ [stack ++ [x]])
                        (set_current_atom (Some x) r0)) by done.
      destruct r0 as [ss0 cs0 ca0 fa0 at0 pa0 st0]. simpl in E1. subst ss0.
      unfold set_search_stacks, set_current_atom in *. simpl in *.
      rewrite Hss, insert_last_stack.
      by case_bool_decide. }
    cbn [gen_next gen_step pc local_t]. rewrite bind_unfold, Hpass.
    msimpl. by case_bool_decide.
  - intros y Hy. rewrite Forall_forall in Hall.
    destruct (Hall y Hy) as [[cy refsy] Hyr].
    destruct (E7 y cy refsy Hyr) as (refs' & Hy' & _ & Ht).
    exists (cy, refs'). split; [done|]. by apply Ht.
Qed.

(** X14. An atom whose dependencies are all tracked is done with.  The top
    atom [a] of the current stack is tracked and every dependency of its
    current package is tracked: the pass registers the current stack as a
    referencing stack of each of them, pops [a], and goes on without
    yielding. *)
Theorem traversal_pops_satisfied (r : resolver) t ss stack a ci refs c p :
  search_stacks r = ss ++ [stack] →
  current_stack r = Some (length ss) →
  existsb blocks stack = false →
  last stack = Some a →
  atoms r !! a = Some (ci, refs) →
  cp_store r !! ci = Some c →
  cp_current_pkg c = inr p →
  Forall (λ y, is_Some (atoms r !! y)) (pkg_depends p ++ pkg_rdepends p) →
  loop_pass t r =
    (set_search_stacks (λ _, ss ++ [removelast stack])
       (ref_all stack (pkg_depends p ++ pkg_rdepends p) r),
     inr (Some stack, Continue)) ∧
  (∀ y, y ∈ pkg_depends p ++ pkg_rdepends p →
     ∃ refs', atoms (ref_all stack (pkg_depends p ++ pkg_rdepends p) r) !! y
                = Some (refs'.1, refs'.2)
              ∧ stack ∈ refs'.2).
Proof.
  intros Hss Hcs Hnb Hlast Ha Hc Hp Hall.
  destruct (ref_all_effect r (pkg_depends p ++ pkg_rdepends p) stack)
    as (E1 & E2 & E3 & E4 & E5 & E6 & E7 & E8).
  remember (ref_all stack (pkg_depends p ++ pkg_rdepends p) r) as r0 eqn:Hr0 in *.
  destruct (last_app_singleton_length ss stack) as [Hlen Hlook].
  split.
  - rewrite (loop_pass_at_top r t ss stack a Hss Hcs Hnb Hlast).
    rewrite Ha. rewrite !bind_unfold. unfold cp_get at 1. rewrite bind_unfold.
    cbn [gets]. rewrite Hc. cbn [ret].
    unfold cp_depends, cp_rdepends. rewrite Hp.
    do 2 (rewrite bind_unfold; cbn [lift]). rewrite bind_unfold.
    rewrite <- (app_nil_r (pkg_depends p ++ pkg_rdepends p)) at 1.
    rewrite (scan_depends_tracked r (length ss) stack _ [] Hall).
    rewrite <- Hr0. cbn [scan_depends ret]. clear Hr0.
    unfold pop_stack, stack_at. msimpl. rewrite E1, Hss, Hlook.
    destruct stack as [|x0 stack0] eqn:Hstack; [done|]. rewrite <- Hstack in *.
    unfold assert_no_blocker, get_current_stack, stack_at. msimpl.
    cbn [search_stacks current_stack set_search_stacks].
    rewrite E2, Hcs. cbn [search_stacks set_search_stacks].
    rewrite E1, Hss, insert_last_stack.
    rewrite (proj2 (last_app_singleton_length ss (removelast stack))).
    assert (Hrl : existsb blocks (removelast stack) = false)
      by (by apply existsb_removelast).
    rewrite Hrl. cbn [negb].
    destruct r0 as [ss0 cs0 ca0 fa0 at0 pa0 st0]. simpl in E1. subst ss0.
    unfold set_search_stacks. simpl. by rewrite Hss, insert_last_stack.
  - intros y Hy. rewrite Forall_forall in Hall.
    destruct (Hall y Hy) as [[cy refsy] Hyr].
    destruct (E7 y cy refsy Hyr) as (refs' & Hy' & _ & Ht).
    exists (cy, refs'). split; [done|]. by apply Ht.
Qed.

(** A top atom without entry that is not below the top is yielded. *)
Lemma loop_pass_yields_top (r : resolver) t ss stack m :
  search_stacks r = ss ++ [stack] →
  current_stack r = Some (length ss) →
  existsb blocks stack = false →
  last stack = Some m →
  atoms r !! m = None →
  m ∉ removelast stack →
  loop_pass t r = (set_current_atom (Some m) r, inr (t, Yielded (RAtom m))).
Proof.
  intros Hss Hcs Hnb Hlast Hm Hnin.
  pose proof (existsb_blocks_last _ m Hnb Hlast) as Hbm.
  destruct (last_app_singleton_length ss stack) as [Hlen Hlook].
  rewrite (loop_pass_at_top r t ss stack m Hss Hcs Hnb Hlast).
  rewrite Hm. unfold stack_at, top_of. msimpl. rewrite Hss, Hlook, Hlast.
  by rewrite bool_decide_eq_false_2, Hbm.
Qed.

(** X15. A new root is the next atom asked for.  After [add_root_atom(a)]
    for an untracked atom that is not a blocker, whatever the resolver held
    before, a traversal yields [a] at once; the stack [[a]] is the current
    one, and [a] is the focus. *)
Theorem new_root_is_asked_for (r : resolver) a fuel :
  atoms r !! a = None →
  blocks a = false →
  let r1 := (add_root_atom a r).1 in
  (add_root_atom a r).2 = inr tt ∧
  search_stacks r1 = search_stacks r ++ [[a]] ∧
  gen_next (S fuel) iterate_unresolved_atoms r1 =
    (set_current_atom (Some a) r1, {| pc := AfterYield; local_t := None |},
     Yield (RAtom a)).
Proof.
  intros Ha Hb r1. subst r1. rewrite (add_root_atom_untracked r a Ha). cbn [fst snd].
  split; [done|]. split; [done|].
  set (r1 := set_current_stack _ _).
  assert (Hpass : loop_pass None r1 =
                  (set_current_atom (Some a) r1, inr (None, Yielded (RAtom a)))).
  { apply (loop_pass_yields_top r1 None (search_stacks r) [a] a); try done.
    - simpl. by rewrite Hb.
    - simpl. by intros ?%elem_of_nil. }
  unfold iterate_unresolved_atoms. cbn [gen_next gen_step pc local_t].
  rewrite bind_unfold, Hpass. by msimpl.
Qed.

(** A pass over an empty current stack pops it. *)
Lemma loop_pass_empty_stack (r : resolver) t ss :
  search_stacks r = ss ++ [[]] →
  current_stack r = Some (length ss) →
  loop_pass t r =
    match ss with
    | [] => (set_current_stack None (set_search_stacks (λ _, []) r), inr (t, Returned))
    | _ :: _ =>
        (set_current_stack (Some (length ss - 1)) (set_search_stacks (λ _, ss) r),
         inr (t, Continue))
    end.
Proof.
  intros Hss Hcs.
  destruct (last_app_singleton_length ss []) as [Hlen Hlook].
  unfold loop_pass. rewrite bind_unfold. cbn [gets].
  rewrite Hss. destruct (ss ++ [[]]) as [|s0 ss0] eqn:Happ.
  { by destruct ss. }
  rewrite Hlen. rewrite bind_unfold. cbn [gets]. rewrite Hcs.
  rewrite bool_decide_eq_true_2 by done.
  cbn [assert_]. rewrite bind_unfold. cbn [ret].
  rewrite bind_unfold. unfold stack_at at 1. rewrite bind_unfold. cbn [gets].
  rewrite Hss, Hlook. cbn [ret].
  assert (Hrem : removelast (search_stacks r) = ss).
  { by rewrite Hss, <- Happ, removelast_last. }
  unfold grab_next_stack. msimpl.
  unfold set_search_stacks, set_current_stack. simpl. rewrite !Hrem.
  destruct ss as [|s1 ss2]; reflexivity.
Qed.

Lemma replicate_snoc {A} (n : nat) (x : A) : replicate (S n) x = replicate n x ++ [x].
Proof. induction n as [|n IH]; [done|]. simpl in *. by rewrite <- IH. Qed.

Lemma gen_next_continue fuel g (r : resolver) g' r' :
  gen_step g r = (r', inr (g', Continue)) →
  gen_next (S fuel) g r = gen_next fuel g' r'.
Proof. intros H. simpl. by rewrite H. Qed.

Lemma gen_step_continue t (r : resolver) r' t' :
  loop_pass t r = (r', inr (t', Continue)) →
  gen_step {| pc := AtLoop; local_t := t |} r
    = (r', inr ({| pc := AtLoop; local_t := t' |}, Continue)).
Proof. intros H. unfold gen_step. cbn [pc local_t]. rewrite bind_unfold, H. by msimpl. Qed.

(** X16. The end of a traversal.  When every search stack is empty and the
    last one is current, the traversal returns: the stacks are popped one
    after the other without a yield, [search_stacks] ends empty and
    [current_stack] is [None]; nothing else changes.  This is how a
    traversal of a new resolver ends. *)
Theorem traversal_finishes_on_empty_stacks (r : resolver) t n fuel :
  search_stacks r = replicate (S n) [] →
  current_stack r = Some n →
  gen_next (S n + fuel) {| pc := AtLoop; local_t := t |} r =
    (set_current_stack None (set_search_stacks (λ _, []) r),
     {| pc := Finished; local_t := t |}, StopIteration).
Proof.
  revert r. induction n as [|n IH]; intros r Hss Hcs.
  - cbn [Nat.add gen_next gen_step pc local_t]. rewrite bind_unfold.
    rewrite (loop_pass_empty_stack r t []); [by msimpl|done|done].
  - set (r1 := set_current_stack (Some n) (set_search_stacks (λ _, replicate (S n) []) r)).
    assert (Hpass : loop_pass t r = (r1, inr (t, Continue))).
    { rewrite (loop_pass_empty_stack r t (replicate (S n) [])).
      - rewrite length_replicate. replace (S n - 1) with n by lia. reflexivity.
      - by rewrite Hss, replicate_snoc.
      - by rewrite length_replicate. }
    change (S (S n) + fuel) with (S (S n + fuel)).
    rewrite (gen_next_continue _ _ r _ r1 (gen_step_continue t r r1 t Hpass)).
    rewrite (IH r1); [|done|done].
    unfold r1. by destruct r.
Qed.

(** X17. A blocker on the current stack stops the traversal.  Whether the
    generator is about to start a pass or to resume after a yield, if the
    current stack, the last one, holds a blocker anywhere, top included,
    [next()] raises [AssertionError]; the resolver is unchanged and the
    generator is finished. *)
Theorem traversal_rejects_blocker (r : resolver) g ss stack fuel :
  search_stacks r = ss ++ [stack] →
  current_stack r = Some (length ss) →
  existsb blocks stack = true →
  pc g ≠ Finished →
  gen_next (S fuel) g r =
    (r, {| pc := Finished; local_t := local_t g |}, Raised AssertionError).
Proof.
  intros Hss Hcs Hb Hpc.
  destruct (last_app_singleton_length ss stack) as [Hlen Hlook].
  cbn [gen_next]. unfold gen_step. destruct (pc g); [| |done].
  - rewrite bind_unfold.
    by rewrite (loop_pass_blocker_on_stack r (local_t g) ss stack Hss Hb).
  - unfold assert_no_blocker, get_current_stack, stack_at. msimpl.
    rewrite Hcs, Hss, Hlook, Hb. reflexivity.
Qed.

End TraversalMore.

(** ** The cycle case *)

Section CycleProps.
Context `{D : Domain}.

Lemma assert_no_blocker_passes (r : resolver) ss stack :
  search_stacks r = ss ++ [stack] →
  current_stack r = Some (length ss) →
  existsb blocks stack = false →
  assert_no_blocker r = (r, inr tt).
Proof.
  intros Hss Hcs Hnb.
  destruct (last_app_singleton_length ss stack) as [Hlen Hlook].
  unfold assert_no_blocker, get_current_stack, stack_at. msimpl.
  rewrite Hcs, Hss, Hlook, Hnb. reflexivity.
Qed.

(** A generator that starts a pass, or resumes after a yield with the
    closing assertion of the body to make, and whose pass yields. *)
Lemma gen_next_yields (r : resolver) g fuel r' t' v :
  pc g ≠ Finished →
  assert_no_blocker r = (r, inr tt) →
  loop_pass (local_t g) r = (r', inr (t', Yielded v)) →
  gen_next (S (S fuel)) g r = (r', {| pc := AfterYield; local_t := t' |}, Yield v).
Proof.
  intros Hpc Hassert Hpass.
  assert (Hloop : ∀ n, gen_next (S n) {| pc := AtLoop; local_t := local_t g |} r
                       = (r', {| pc := AfterYield; local_t := t' |}, Yield v)).
  { intros n. cbn [gen_next gen_step pc local_t]. rewrite bind_unfold, Hpass.
    by msimpl. }
  destruct g as [[| |] t]; [exact (Hloop (S fuel))| |done].
  cbn [local_t] in *.
  rewrite (gen_next_continue (S fuel) _ r {| pc := AtLoop; local_t := t |} r).
  - exact (Hloop fuel).
  - unfold gen_step. cbn [pc local_t]. rewrite bind_unfold, Hassert. by msimpl.
Qed.

(** The pass that descends into the first untracked dependency. *)
Lemma loop_pass_descends (r : resolver) t ss stack a ci refs c p tracked x rest :
  search_stacks r = ss ++ [stack] →
  current_stack r = Some (length ss) →
  existsb blocks stack = false →
  last stack = Some a →
  atoms r !! a = Some (ci, refs) →
  cp_store r !! ci = Some c →
  cp_current_pkg c = inr p →
  pkg_depends p ++ pkg_rdepends p = tracked ++ x :: rest →
  Forall (λ y, is_Some (atoms r !! y)) tracked →
  atoms r !! x = None →
  loop_pass t r =
    (set_search_stacks (λ _, ss ++ [stack ++ [x]])
       (set_current_atom (Some x) (ref_all stack tracked r)),
     inr (Some stack,
          Yielded (if bool_decide (x ∈ stack) then cycle_restriction x a
                   else RAtom x))).
Proof.
  intros Hss Hcs Hnb Hlast Ha Hc Hp Hdeps Hall Hx.
  pose proof (existsb_blocks_last _ a Hnb Hlast) as Hba.
  destruct (ref_all_effect r tracked stack)
    as (E1 & E2 & E3 & E4 & E5 & E6 & E7 & E8).
  set (r0 := ref_all stack tracked r) in *.
  destruct (last_app_singleton_length ss stack) as [Hlen Hlook].
  rewrite (loop_pass_at_top r t ss stack a Hss Hcs Hnb Hlast).
  rewrite Ha. rewrite !bind_unfold. unfold cp_get at 1. rewrite bind_unfold.
  cbn [gets]. rewrite Hc. cbn [ret].
  unfold cp_depends, cp_rdepends. rewrite Hp.
  do 2 (rewrite bind_unfold; cbn [lift]). rewrite bind_unfold.
  rewrite Hdeps, (scan_depends_tracked r (length ss) stack tracked (x :: rest) Hall).
  fold r0. cbn [scan_depends]. rewrite bind_unfold. cbn [gets]. unfold tracked_in.
  rewrite bool_decide_eq_false_2 by (rewrite (E8 x Hx); by intros [? ?]).
  unfold push_stack, stack_at. msimpl.
  cbn [search_stacks set_current_atom set_search_stacks].
  rewrite E1, Hss, Hlook. cbn [search_stacks set_search_stacks set_current_atom].
  rewrite E1, Hss, insert_last_stack.
  rewrite (proj2 (last_app_singleton_length ss (stack ++ [x]))). unfold top_of.
  rewrite last_snoc. rewrite removelast_last, Hba.
  destruct r0 as [ss0 cs0 ca0 fa0 at0 pa0 st0]. simpl in E1. subst ss0.
  unfold set_search_stacks, set_current_atom in *. simpl in *.
  rewrite Hss, insert_last_stack.
  by case_bool_decide.
Qed.

(** The scan of the dependencies, up to the first untracked one: the stack
    is registered for the tracked ones before it, and it is pushed. *)
Lemma scan_depends_pushes (r : resolver) ss stack tracked x rest :
  search_stacks r = ss ++ [stack] →
  Forall (λ y, is_Some (atoms r !! y)) tracked →
  atoms r !! x = None →
  scan_depends (length ss) stack (tracked ++ x :: rest) r =
    (set_search_stacks (λ _, ss ++ [stack ++ [x]])
       (set_current_atom (Some x) (ref_all stack tracked r)), inr true).
Proof.
  intros Hss Hall Hx.
  destruct (ref_all_effect r tracked stack)
    as (E1 & E2 & E3 & E4 & E5 & E6 & E7 & E8).
  destruct (last_app_singleton_length ss stack) as [Hlen Hlook].
  rewrite (scan_depends_tracked r (length ss) stack tracked (x :: rest) Hall).
  set (r0 := ref_all stack tracked r) in *.
  cbn [scan_depends]. rewrite bind_unfold. cbn [gets]. unfold tracked_in.
  rewrite bool_decide_eq_false_2 by (rewrite (E8 x Hx); by intros [? ?]).
  unfold push_stack, stack_at. msimpl.
  cbn [search_stacks set_current_atom]. rewrite E1, Hss, Hlook.
  unfold set_search_stacks. cbn [search_stacks set_current_atom].
  by rewrite E1, Hss, insert_last_stack.
Qed.

(** The pass over a stack whose top is untracked and occurs below the
    top. *)
Lemma loop_pass_cycle_on_top (r : resolver) t ss stack m :
  search_stacks r = ss ++ [stack] →
  current_stack r = Some (length ss) →
  existsb blocks stack = false →
  last stack = Some m →
  atoms r !! m = None →
  m ∈ removelast stack →
  loop_pass t r = (set_current_atom (Some m) r, inr (t, Yielded (cycle_restriction m m))).
Proof.
  intros Hss Hcs Hnb Hlast Hm Hin.
  destruct (last_app_singleton_length ss stack) as [Hlen Hlook].
  rewrite (loop_pass_at_top r t ss stack m Hss Hcs Hnb Hlast).
  rewrite Hm. unfold stack_at, top_of. msimpl.
  rewrite Hss, Hlook, Hlast.
  rewrite bool_decide_eq_true_2 by done. reflexivity.
Qed.

(** C8. The cycle case.  Let [a] be the atom on top of the current stack
    when a step of the traversal begins, the current stack being the last
    search stack, and let the generator be at the start of a pass or
    suspended at a yield.

    - [a] is tracked and the scan of its current package's dependencies
      stops at the first untracked one, [m], pushing it; [m] was already on
      the stack.  Then the step yields the restriction that asks for a
      package of [m] whose [depends] and [rdepends] do not contain [a].
      The resolver is as the scan left it, [m] pushed once on top: nothing
      was pushed or popped after that, and the generator is suspended.
    - [a] itself has no entry and occurs below the top, so that [m] is [a].
      Then the step yields the same restriction, for [m] and excluding [m];
      only [current_atom] was assigned, no stack was pushed or popped, and
      the generator is suspended. *)
Theorem cycle_yields_breaking_restriction :
  (∀ (r : resolver) g ss stack a ci refs c p tracked m rest fuel,
     pc g ≠ Finished →
     search_stacks r = ss ++ [stack] →
     current_stack r = Some (length ss) →
     existsb blocks stack = false →
     last stack = Some a →
     atoms r !! a = Some (ci, refs) →
     cp_store r !! ci = Some c →
     cp_current_pkg c = inr p →
     pkg_depends p ++ pkg_rdepends p = tracked ++ m :: rest →
     Forall (λ y, is_Some (atoms r !! y)) tracked →
     atoms r !! m = None →
     m ∈ stack →
     let r' := set_search_stacks (λ _, ss ++ [stack ++ [m]])
                 (set_current_atom (Some m) (ref_all stack tracked r)) in
     scan_depends (length ss) stack (pkg_depends p ++ pkg_rdepends p) r
       = (r', inr true) ∧
     gen_next (S (S fuel)) g r =
       (r', {| pc := AfterYield; local_t := Some stack |},
        Yield (AndRestriction
                 [RAtom m;
                  PackageRestriction "depends" (ContainmentMatch a true);
                  PackageRestriction "rdepends" (ContainmentMatch a true)]))) ∧
  (∀ (r : resolver) g ss stack m fuel,
     pc g ≠ Finished →
     search_stacks r = ss ++ [stack] →
     current_stack r = Some (length ss) →
     last stack = Some m →
     atoms r !! m = None →
     m ∈ removelast stack →
     below_top_free stack →
     gen_next (S (S fuel)) g r =
       (set_current_atom (Some m) r,
        {| pc := AfterYield; local_t := local_t g |},
        Yield (AndRestriction
                 [RAtom m;
                  PackageRestriction "depends" (ContainmentMatch m true);
                  PackageRestriction "rdepends" (ContainmentMatch m true)]))).
Proof.
  split.
  - intros r g ss stack a ci refs c p tracked m rest fuel
      Hpc Hss Hcs Hnb Hlast Ha Hc Hp Hdeps Hall Hm Hin r'.
    split; [rewrite Hdeps; by apply scan_depends_pushes|].
    apply (gen_next_yields r g fuel _ (Some stack) (cycle_restriction m a) Hpc).
    + by apply (assert_no_blocker_passes r ss stack).
    + rewrite (loop_pass_descends r (local_t g) ss stack a ci refs c p tracked m rest);
        try done.
      by rewrite bool_decide_eq_true_2.
  - intros r g ss stack m fuel Hpc Hss Hcs Hlast Hm Hin Hfree.
    assert (Hbm : blocks m = false).
    { unfold below_top_free in Hfree. rewrite Forall_forall in Hfree. by apply Hfree. }
    pose proof (existsb_blocks_below_top stack m Hlast Hfree Hbm) as Hnb.
    apply (gen_next_yields r g fuel _ (local_t g) (cycle_restriction m m) Hpc).
    + by apply (assert_no_blocker_passes r ss stack).
    + by apply (loop_pass_cycle_on_top r (local_t g) ss stack m).
Qed.

End CycleProps.

(** ** [false_atoms] is written and never read *)

Create HintDb blind.

Section FalseAtomsBlind.
Context `{D : Domain}.

Lemma blind_ret {A} (x : A) : ignores_false_atoms (ret x).
Proof. by intros F r. Qed.

Lemma blind_raise {A} e : ignores_false_atoms (@raise _ A e).
Proof. by intros F r. Qed.

Lemma blind_lift {A} (x : exn + A) : ignores_false_atoms (lift x).
Proof. by intros F r. Qed.

Lemma blind_assert b : ignores_false_atoms (assert_ b).
Proof. by destruct b. Qed.

Lemma blind_gets {A} (f : resolver → A) :
  (∀ F r, f (set_false_atoms (λ _, F) r) = f r) → ignores_false_atoms (gets f).
Proof. intros Hf F r. unfold gets. by rewrite Hf. Qed.

Lemma blind_modify (f : resolver → resolver) :
  (∀ F r, f (set_false_atoms (λ _, F) r) = set_false_atoms (λ _, F) (f r)) →
  ignores_false_atoms (modify f).
Proof. intros Hf F r. unfold modify. by rewrite Hf. Qed.

Lemma blind_bind {A B} (m : M A) (k : A → M B) :
  ignores_false_atoms m → (∀ x, ignores_false_atoms (k x)) →
  ignores_false_atoms (m ≫= k).
Proof.
  intros Hm Hk F r. unfold mbind, M_bind, bind. rewrite Hm.
  destruct (m r) as [r' [e|x]]; [done|apply Hk].
Qed.

Lemma blind_try {A} (m h : M A) :
  ignores_false_atoms m → ignores_false_atoms h →
  ignores_false_atoms (try_IndexError m h).
Proof.
  intros Hm Hh F r. unfold try_IndexError. rewrite Hm.
  destruct (m r) as [r' [e|x]]; [|done]. destruct e; try done. apply Hh.
Qed.

Ltac blind_step :=
  lazymatch goal with
  | |- ignores_false_atoms (mbind _ _) => apply blind_bind; [|intros ?]
  | |- ignores_false_atoms (mret _) => apply blind_ret
  | |- ignores_false_atoms (ret _) => apply blind_ret
  | |- ignores_false_atoms (raise _) => apply blind_raise
  | |- ignores_false_atoms (lift _) => apply blind_lift
  | |- ignores_false_atoms (gets _) => apply blind_gets; intros; reflexivity
  | |- ignores_false_atoms (assert_ _) => apply blind_assert
  | |- ignores_false_atoms (modify _) => apply blind_modify; intros; reflexivity
  | |- ignores_false_atoms (try_IndexError _ _) => apply blind_try
  | |- ignores_false_atoms (match ?x with _ => _ end) => destruct x
  end.

Ltac blind_auto := repeat (first [ solve [auto with blind] | blind_step ]).

Lemma blind_ref_stack_for_atom a stack : ignores_false_atoms (ref_stack_for_atom a stack).
Proof. unfold ref_stack_for_atom. blind_auto. Qed.

Lemma blind_deref_stack_for_atom a stack :
  ignores_false_atoms (deref_stack_for_atom a stack).
Proof. unfold deref_stack_for_atom. blind_auto. Qed.

Lemma blind_grab_next_stack : ignores_false_atoms grab_next_stack.
Proof. unfold grab_next_stack. blind_auto. Qed.

Lemma blind_stack_at i : ignores_false_atoms (stack_at i).
Proof. unfold stack_at. blind_auto. Qed.

#[local] Hint Resolve blind_ref_stack_for_atom blind_deref_stack_for_atom
  blind_grab_next_stack blind_stack_at : blind.

Lemma blind_get_current_stack : ignores_false_atoms get_current_stack.
Proof. unfold get_current_stack. blind_auto. Qed.

Lemma blind_top_of s : ignores_false_atoms (top_of s).
Proof. unfold top_of. blind_auto. Qed.

Lemma blind_pop_stack i : ignores_false_atoms (pop_stack i).
Proof. unfold pop_stack. blind_auto. Qed.

Lemma blind_push_stack i x : ignores_false_atoms (push_stack i x).
Proof. unfold push_stack. blind_auto. Qed.

Lemma blind_cp_get i : ignores_false_atoms (cp_get i).
Proof. unfold cp_get. blind_auto. Qed.

Lemma blind_cp_alloc c : ignores_false_atoms (cp_alloc c).
Proof. unfold cp_alloc. blind_auto. Qed.

#[local] Hint Resolve blind_get_current_stack blind_top_of blind_pop_stack
  blind_push_stack blind_cp_get blind_cp_alloc : blind.

Lemma blind_choice_point_is_complete ci :
  ignores_false_atoms (choice_point_is_complete ci).
Proof. unfold choice_point_is_complete. blind_auto. Qed.

Lemma blind_deref_released released t :
  ignores_false_atoms (deref_released released t).
Proof. induction released as [|x released IH]; simpl; blind_auto. Qed.

#[local] Hint Resolve blind_choice_point_is_complete blind_deref_released : blind.

Lemma blind_retract_choice parent top t :
  ignores_false_atoms (retract_choice parent top t).
Proof. unfold retract_choice. blind_auto. Qed.

Lemma blind_reschedule ci was_complete t :
  ignores_false_atoms (reschedule ci was_complete t).
Proof. unfold reschedule. blind_auto. Qed.

#[local] Hint Resolve blind_retract_choice blind_reschedule : blind.

Lemma blind_process_stack a msg bail stack :
  ignores_false_atoms (process_stack a msg bail stack).
Proof. unfold process_stack. blind_auto. Qed.

#[local] Hint Resolve blind_process_stack : blind.

Lemma blind_drain fuel a msg bail q : ignores_false_atoms (drain fuel a msg bail q).
Proof.
  revert bail q. induction fuel as [|fuel IH]; intros bail q;
    destruct q as [|stack rest]; simpl; blind_auto.
Qed.

#[local] Hint Resolve blind_drain : blind.

Lemma blind_unsatisfiable_atom a msg :
  ignores_false_atoms (unsatisfiable_atom a msg false).
Proof. unfold unsatisfiable_atom. blind_auto. Qed.

Lemma blind_assert_no_blocker : ignores_false_atoms assert_no_blocker.
Proof. unfold assert_no_blocker. blind_auto. Qed.

Lemma blind_scan_depends i t xs : ignores_false_atoms (scan_depends i t xs).
Proof. induction xs as [|x xs IH]; simpl; blind_auto. Qed.

Lemma blind_find_conflict a xs : ignores_false_atoms (find_conflict a xs).
Proof. induction xs as [|x xs IH]; simpl; blind_auto. Qed.

#[local] Hint Resolve blind_unsatisfiable_atom blind_assert_no_blocker
  blind_scan_depends blind_find_conflict : blind.

Lemma blind_blocker_case i a t : ignores_false_atoms (blocker_case i a t).
Proof. unfold blocker_case. blind_auto. Qed.

#[local] Hint Resolve blind_blocker_case : blind.

Lemma blind_loop_pass t : ignores_false_atoms (loop_pass t).
Proof. unfold loop_pass. blind_auto. Qed.

#[local] Hint Resolve blind_loop_pass : blind.

Lemma blind_gen_step g : ignores_false_atoms (gen_step g).
Proof. unfold gen_step. blind_auto. Qed.

Lemma blind_gen_next fuel g (r : resolver) F :
  gen_next fuel g (set_false_atoms (λ _, F) r)
  = (set_false_atoms (λ _, F) (gen_next fuel g r).1.1,
     (gen_next fuel g r).1.2, (gen_next fuel g r).2).
Proof.
  revert g r. induction fuel as [|fuel IH]; intros g r; [done|].
  cbn [gen_next]. rewrite (blind_gen_step g F r).
  destruct (gen_step g r) as [r' [e|[g' []]]]; simpl; [done| |done|done].
  apply IH.
Qed.

(** C3, as the code has it.  [false_atoms] only grows: whatever the caller
    does next, an atom that is in it stays in it.  The traversal does not
    read the set: run with any other set in its place, a [next()] yields,
    returns or raises the same, leaves its generator in the same state and
    the resolver the same, that set apart, which it leaves as it was.  In
    particular, when the current stack is the last search stack and holds
    no blocker, an atom on top of it that has no entry and is not below the
    top is yielded by the next step of a traversal that has not finished,
    member of [false_atoms] or not. *)
Theorem false_atoms_kept_not_consulted :
  (∀ (r : resolver) (ops : list op), false_atoms r ⊆ false_atoms (run_ops r ops)) ∧
  (∀ (r : resolver) F fuel g,
     gen_next fuel g (set_false_atoms (λ _, F) r)
     = (set_false_atoms (λ _, F) (gen_next fuel g r).1.1,
        (gen_next fuel g r).1.2, (gen_next fuel g r).2)) ∧
  (∀ (r : resolver) g ss stack m fuel,
     pc g ≠ Finished →
     search_stacks r = ss ++ [stack] →
     current_stack r = Some (length ss) →
     existsb blocks stack = false →
     last stack = Some m →
     atoms r !! m = None →
     m ∉ removelast stack →
     gen_next (S (S fuel)) g r =
       (set_current_atom (Some m) r, {| pc := AfterYield; local_t := local_t g |},
        Yield (RAtom m))).
Proof.
  split; [|split].
  - intros r ops.
    apply (frame_run_ops (λ r', false_atoms r ⊆ false_atoms r'));
      intros; simpl; first [done | set_solver].
  - intros r F fuel g. apply blind_gen_next.
  - intros r g ss stack m fuel Hpc Hss Hcs Hnb Hlast Hm Hnin.
    apply (gen_next_yields r g fuel _ (local_t g) (RAtom m) Hpc).
    + by apply (assert_no_blocker_passes r ss stack).
    + by apply (loop_pass_yields_top r (local_t g) ss stack m).
Qed.

End FalseAtomsBlind.

Section ProtocolExceptions.
Context `{D : Domain}.

(** X1. Whatever the resolver holds and whatever it is called with, the
    protocol never leaves with [NoSolution]: the exceptions it can raise are
    the plain ones, the [AssertionError] of its own assertion, [KeyError]
    and [IndexError] among them.  (Nor is its queue ever cut short by the
    bound of the model.) *)
Theorem unsatisfiable_atom_raises_plain (r : resolver) a msg permenant :
  match (unsatisfiable_atom a msg permenant r).2 with
  | inl (NoSolution _ _) | inl OutOfFuel => False
  | _ => True
  end.
Proof.
  assert (H : keeps (λ _, True) plain_exn (unsatisfiable_atom a msg permenant))
    by (apply frame_unsatisfiable_atom; done).
  specialize (H r Logic.I).
  destruct (unsatisfiable_atom a msg permenant r) as [r' [e|x]]; [|done].
  simpl. destruct H as [_ He]. by destruct e.
Qed.

End ProtocolExceptions.

(** ** The further properties, at the scenarios *)

Section MoreScenarioProps.
#[local] Existing Instance ex_domain.

Ltac compute_it := vm_compute; reflexivity.

Lemma unsatisfiable_atom_short_stack_witness :
  current_atom rooted = Some (want "a") ∧
  atoms rooted !! want "a" = Some (0, [[]]) ∧
  (unsatisfiable_atom (want "a") "no candidates" true rooted).2 = inl IndexError.
Proof.
  split; [compute_it|]. split; [compute_it|].
  rewrite (unsatisfiable_atom_short_stack rooted (want "a") "no candidates" true 0 [] []);
    [reflexivity|compute_it|compute_it|simpl; lia].
Defined.

Lemma unsatisfiable_atom_errors_witness :
  current_atom lone1.1.1 = Some (want "a") ∧
  atoms lone1.1.1 !! want "a" = None ∧
  (unsatisfiable_atom (want "a") "lookup failed" true lone1.1.1).2 = inl KeyError.
Proof.
  split; [compute_it|]. split; [compute_it|].
  rewrite (proj2 (unsatisfiable_atom_errors lone1.1.1 (want "a") "lookup failed" true));
    [reflexivity|compute_it|compute_it].
Defined.

Lemma emptied_parent_enqueued_witness :
  atoms solo !! want "r" = Some (0, [[want "r"]]) ∧
  (process_stack (want "m") "None supplied" None [want "r"; want "m"] solo).2
    = inr (None, [[want "r"]]) ∧
  search_stacks
    (process_stack (want "m") "None supplied" None [want "r"; want "m"] solo).1
    = [[want "r"; want "m"]].
Proof.
  split; [compute_it|].
  pose proof (emptied_parent_enqueued solo (want "m") "None supplied" None []
                (want "r") (want "m") 0 [[want "r"]]
                ltac:(compute_it) ltac:(eexists; compute_it) ltac:(compute_it))
    as [Hps [Hss _]].
  change ([] ++ [want "r"; want "m"]) with [want "r"; want "m"] in Hps, Hss.
  split; [by rewrite Hps|exact Hss].
Defined.

Lemma complete_parent_left_alone_witness :
  atoms bt3i !! want "r1" = Some (0, [[want "r1"]]) ∧
  (process_stack (want "m") "None supplied" None [want "r1"; want "m"] bt3i).2
    = inr (None, []) ∧
  search_stacks
    (process_stack (want "m") "None supplied" None [want "r1"; want "m"] bt3i).1
    = search_stacks bt3i.
Proof.
  split; [compute_it|].
  pose proof (complete_parent_left_alone bt3i (want "m") "None supplied" None []
                (want "r1") (want "m") 0 [[want "r1"]]
                ltac:(compute_it) ltac:(eexists; compute_it) ltac:(compute_it))
    as [Hps [Hss _]].
  change ([] ++ [want "r1"; want "m"]) with [want "r1"; want "m"] in Hps, Hss.
  split; [by rewrite Hps|exact Hss].
Defined.

Lemma satisfy_atom_installs_witness :
  current_stack bt1.1.1 = Some 2 ∧
  search_stacks bt1.1.1 !! 2 = Some [want "r1"] ∧
  atoms (satisfy_atom (want "r1") [P1; P2] bt1.1.1).1 !! want "r1"
    = Some (0, [[want "r1"]]).
Proof.
  split; [compute_it|]. split; [compute_it|].
  apply (satisfy_atom_installs bt1.1.1 (want "r1") P1 [P2] 2 [want "r1"]); compute_it.
Defined.

Lemma satisfy_atom_out_of_turn_witness :
  current_stack bt1.1.1 = Some 2 ∧
  search_stacks bt1.1.1 !! 2 = Some [want "r1"] ∧
  satisfy_atom (want "r2") [Q1] bt1.1.1 = (bt1.1.1, inl AssertionError).
Proof.
  split; [compute_it|]. split; [compute_it|].
  apply (proj2 (proj2 (satisfy_atom_out_of_turn bt1.1.1 (want "r2") [Q1]))
           2 [want "r1"] (want "r1")); [compute_it|compute_it|compute_it|].
  intros Heq. discriminate Heq.
Defined.

Lemma ref_then_deref_restores_witness :
  atoms inc !! want "m" = Some (1, [[want "r"; want "m"]]) ∧
  (ref_stack_for_atom (want "m") [want "z"] ≫=
     λ _, deref_stack_for_atom (want "m") [want "z"]) inc = (inc, inr tt).
Proof.
  split; [compute_it|].
  apply (ref_then_deref_restores inc (want "m") [want "z"] 1 [[want "r"; want "m"]]).
  - compute_it.
  - discriminate.
  - intros x ->%list_elem_of_singleton [k Hk]. discriminate Hk.
Defined.

Lemma deref_stack_for_atom_twice_witness :
  atoms inc !! want "m" = Some (1, [[want "r"; want "m"]]) ∧
  (deref_stack_for_atom (want "m") [want "r"]
     (deref_stack_for_atom (want "m") [want "r"] inc).1).2 = inl AssertionError.
Proof.
  split; [compute_it|].
  rewrite (deref_stack_for_atom_twice inc (want "m") [want "r"] 1
             [[want "r"; want "m"]]); compute_it.
Defined.

Lemma root_without_candidates_witness :
  current_stack lone1.1.1 = Some 1 ∧
  search_stacks lone1.1.1 !! 1 = Some [want "a"] ∧
  current_atom lone1.1.1 = Some (want "a") ∧
  (satisfy_atom (want "a") [] lone1.1.1).2 = inl IndexError.
Proof.
  split; [compute_it|]. split; [compute_it|]. split; [compute_it|].
  rewrite (proj1 (root_without_candidates lone1.1.1 (want "a") 1
                    ltac:(compute_it) ltac:(compute_it) ltac:(compute_it))).
  reflexivity.
Defined.

Lemma traversal_descends_witness :
  atoms bt2 !! want "r1" = Some (0, [[want "r1"]]) ∧
  atoms bt2 !! want "m" = None ∧
  (gen_next 1 iterate_unresolved_atoms bt2).2 = Yield (RAtom (want "m")).
Proof.
  split; [compute_it|]. split; [compute_it|].
  unfold iterate_unresolved_atoms.
  rewrite (proj1 (traversal_descends bt2 None [[]; [want "r2"]] [want "r1"]
                    (want "r1") 0 [[want "r1"]]
                    (new_choice_point (want "r1") [P1; P2]) P1 [] (want "m") [] 0
                    ltac:(compute_it) ltac:(compute_it) ltac:(compute_it)
                    ltac:(compute_it) ltac:(compute_it) ltac:(compute_it)
                    ltac:(compute_it) ltac:(compute_it) ltac:(constructor)
                    ltac:(compute_it))).
  compute_it.
Defined.

Lemma traversal_pops_satisfied_witness :
  atoms bt4 !! want "r1" = Some (0, [[want "r1"]]) ∧
  search_stacks (loop_pass None bt4).1 = [[]; [want "r2"]; []].
Proof.
  split; [compute_it|].
  rewrite (proj1 (traversal_pops_satisfied bt4 None [[]; [want "r2"]] [want "r1"]
                    (want "r1") 0 [[want "r1"]]
                    (new_choice_point (want "r1") [P2]) P2
                    ltac:(compute_it) ltac:(compute_it) ltac:(compute_it)
                    ltac:(compute_it) ltac:(compute_it) ltac:(compute_it)
                    ltac:(compute_it) ltac:(constructor))).
  reflexivity.
Defined.

Lemma new_root_is_asked_for_witness :
  atoms init !! want "a" = None ∧
  (gen_next 1 iterate_unresolved_atoms (add_root_atom (want "a") init).1).2
    = Yield (RAtom (want "a")).
Proof.
  split; [compute_it|].
  rewrite (proj2 (proj2 (new_root_is_asked_for init (want "a") 0
                           ltac:(compute_it) ltac:(compute_it)))).
  reflexivity.
Defined.

Lemma traversal_finishes_on_empty_stacks_witness :
  search_stacks init = replicate 1 [] ∧
  (gen_next 1 iterate_unresolved_atoms init).2 = StopIteration.
Proof.
  split; [compute_it|].
  unfold iterate_unresolved_atoms.
  change (gen_next 1) with (gen_next (1 + 0)).
  rewrite (traversal_finishes_on_empty_stacks init None 0 0
             ltac:(compute_it) ltac:(compute_it)).
  reflexivity.
Defined.

Lemma traversal_rejects_blocker_witness :
  search_stacks bl3.1.1 = [[]] ++ [[blocker "p"]] ∧
  (gen_next 1 iterate_unresolved_atoms bl3.1.1).2 = Raised AssertionError.
Proof.
  split; [compute_it|].
  rewrite (traversal_rejects_blocker bl3.1.1 iterate_unresolved_atoms [[]]
             [blocker "p"] 0 ltac:(compute_it) ltac:(compute_it) ltac:(compute_it)
             ltac:(discriminate)).
  reflexivity.
Defined.

(** [cycle_yields_breaking_restriction] in the session where [n], tracked
    and on top of [[r; p; n]], needs the untracked [p]: the traversal,
    resumed, pushes [p] and yields the restriction on [p] that excludes [n].
    Pulled once more, it finds [p] on top and below, and yields the
    restriction on [p] that excludes [p]. *)
Lemma cycle_yields_breaking_restriction_witness :
  search_stacks cy10 = [[]] ++ [[want "r"; want "p"; want "n"]] ∧
  is_Some (atoms cy10 !! want "n") ∧
  atoms cy10 !! want "p" = None ∧
  cy11.2 = Yield (AndRestriction
                    [RAtom (want "p");
                     PackageRestriction "depends" (ContainmentMatch (want "n") true);
                     PackageRestriction "rdepends" (ContainmentMatch (want "n") true)]) ∧
  search_stacks cy11.1.1 = [[]] ++ [[want "r"; want "p"; want "n"; want "p"]] ∧
  (gen_next 2 cy11.1.2 cy11.1.1).2 =
    Yield (AndRestriction
             [RAtom (want "p");
              PackageRestriction "depends" (ContainmentMatch (want "p") true);
              PackageRestriction "rdepends" (ContainmentMatch (want "p") true)]).
Proof.
  split; [compute_it|]. split; [eexists; compute_it|]. split; [compute_it|].
  assert (Hin : want "p" ∈ [want "r"; want "p"; want "n"]).
  { apply (bool_decide_eq_true_1 (want "p" ∈ [want "r"; want "p"; want "n"])).
    compute_it. }
  assert (Hin' : want "p" ∈ removelast [want "r"; want "p"; want "n"; want "p"]).
  { apply (bool_decide_eq_true_1
             (want "p" ∈ removelast [want "r"; want "p"; want "n"; want "p"])).
    compute_it. }
  split.
  { change cy11 with (gen_next (S (S 6)) cy9.1.2 cy10).
    rewrite (proj2 (proj1 cycle_yields_breaking_restriction cy10 cy9.1.2 [[]]
               [want "r"; want "p"; want "n"] (want "n") 4 [[want "r"; want "p"; want "n"]]
               (new_choice_point (want "n") [N1]) N1 [] (want "p") [] 6
               ltac:(vm_compute; discriminate) ltac:(compute_it) ltac:(compute_it)
               ltac:(compute_it) ltac:(compute_it) ltac:(compute_it)
               ltac:(compute_it) ltac:(compute_it) ltac:(compute_it)
               ltac:(constructor) ltac:(compute_it) Hin)).
    reflexivity. }
  split; [compute_it|].
  rewrite (proj2 cycle_yields_breaking_restriction cy11.1.1 cy11.1.2 [[]]
             [want "r"; want "p"; want "n"; want "p"] (want "p") 0
             ltac:(vm_compute; discriminate) ltac:(compute_it) ltac:(compute_it)
             ltac:(compute_it) ltac:(compute_it) Hin' ltac:(repeat constructor)).
  reflexivity.
Defined.

(** [false_atoms_kept_not_consulted] where the caller has reported [a] as
    permanently unsatisfiable: [a] is in [false_atoms], and the traversal,
    resumed, yields it once more; with the set emptied it does the same. *)
Lemma false_atoms_kept_not_consulted_witness :
  want "a" ∈ false_atoms fl1.1 ∧
  search_stacks fl1.1 = [[]] ++ [[want "a"]] ∧
  gen_next 2 lone1.1.2 fl1.1 =
    (set_current_atom (Some (want "a")) fl1.1,
     {| pc := AfterYield; local_t := None |}, Yield (RAtom (want "a"))) ∧
  (gen_next 2 lone1.1.2 (set_false_atoms (λ _, ∅) fl1.1)).2
    = Yield (RAtom (want "a")).
Proof.
  split.
  { apply (bool_decide_eq_true_1 (want "a" ∈ false_atoms fl1.1)). compute_it. }
  split; [compute_it|].
  pose proof (proj2 (proj2 false_atoms_kept_not_consulted) fl1.1 lone1.1.2 [[]]
                [want "a"] (want "a") 0
                ltac:(vm_compute; discriminate) ltac:(compute_it) ltac:(compute_it)
                ltac:(compute_it) ltac:(compute_it) ltac:(compute_it)
                ltac:(by intros ?%elem_of_nil)) as Hyield.
  split; [exact Hyield|].
  rewrite (proj1 (proj2 false_atoms_kept_not_consulted) fl1.1 ∅ 2 lone1.1.2).
  cbn [snd]. by rewrite Hyield.
Defined.

End MoreScenarioProps.
